(** * agentThreshold: the extraction-and-decision pipeline of the
    Hyperliquid position monitor (src/agentThreshold.py).

    A Python [str] is a list of characters and a character is its
    Unicode code point.  [str.isspace] is the interpreter's fixed list of
    white-space characters.  The decimal digits ([\d], [Decimal()]) and
    the upper-case mapping ([str.upper]) are those of Python on the ASCII
    range and, beyond it, those of the Unicode database of the
    interpreter, which the development takes as the two parameters
    [unicode_decimal] and [unicode_upper].  [Decimal] values are the
    finite ones, a sign, a coefficient and an exponent, with the
    arithmetic of the default context (28 significant digits,
    round-half-even, Emax 999999, Overflow trapped).  Times are in
    milliseconds.  [print] diagnostics are not part of the model. *)

From Stdlib Require Import List Ascii String ZArith NArith Lia Bool.
Import ListNotations.

Set Implicit Arguments.

(** ** Text *)

(** A character is its code point. *)
Abbreviation char := N (only parsing).

Definition str := list char.

(** ["c"%ch] is the code point of the ASCII character [c]. *)
Definition char_of_bytes (l : list Byte.byte) : option N :=
  match l with
  | [b] => Some (Byte.to_N b)
  | _ => None
  end.

Definition bytes_of_char (n : N) : option (list Byte.byte) :=
  match Byte.of_N n with
  | Some b => Some [b]
  | None => None
  end.

Declare Scope ch_scope.
Delimit Scope ch_scope with ch.
String Notation N char_of_bytes bytes_of_char : ch_scope.

(** The code points of a text written in UTF-8, as the literals of this
    file and of the source are. *)
Fixpoint utf8 (bs : list N) : str :=
  match bs with
  | [] => []
  | b :: rest =>
      if (b <? 128)%N then b :: utf8 rest
      else if (b <? 224)%N then
        match rest with
        | b1 :: r => ((b - 192) * 64 + (b1 - 128))%N :: utf8 r
        | _ => []
        end
      else if (b <? 240)%N then
        match rest with
        | b1 :: b2 :: r =>
            ((b - 224) * 4096 + (b1 - 128) * 64 + (b2 - 128))%N :: utf8 r
        | _ => []
        end
      else
        match rest with
        | b1 :: b2 :: b3 :: r =>
            ((b - 240) * 262144 + (b1 - 128) * 4096 + (b2 - 128) * 64
             + (b3 - 128))%N :: utf8 r
        | _ => []
        end
  end.

Definition chars (s : string) : str :=
  utf8 (map N_of_ascii (list_ascii_of_string s)).

(** [str.isspace] of one character, which [str.strip] asks: TAB..CR,
    FS..US and the space on the ASCII range; beyond it NEL, the
    no-break space, the Ogham space mark, EN QUAD..HAIR SPACE, the line
    and paragraph separators, the narrow no-break space, the medium
    mathematical space and the ideographic space. *)
Definition isspace (c : char) : bool :=
  ((9 <=? c) && (c <=? 13) || (28 <=? c) && (c <=? 32)
   || (c =? 133) || (c =? 160) || (c =? 5760)
   || (8192 <=? c) && (c <=? 8202)
   || (c =? 8232) || (c =? 8233) || (c =? 8239) || (c =? 8287)
   || (c =? 12288))%N.

(** Two tables for the examples: the Arabic-Indic digits, and the two
    small letters whose capital is an ASCII letter (the dotless i and
    the long s). *)
Definition sample_decimal (c : char) : option N :=
  if ((1632 <=? c) && (c <=? 1641))%N then Some (c - 1632)%N else None.

Definition sample_upper (c : char) : str :=
  if (c =? 305)%N then ["I"%ch]
  else if (c =? 383)%N then ["S"%ch]
  else [c].

Section Unicode.

(** The Unicode database beyond the ASCII range: the value of a decimal
    digit ([unicodedata.decimal], absent for any other character) and
    the upper-case mapping of a character, which can be more than one
    character long. *)
Variable unicode_decimal : char -> option N.
Variable unicode_upper : char -> str.

(** The decimal digit a character stands for, if it is one.  A digit of
    the database has a value below ten and is no white space; the two
    tests say so of the parameter. *)
Definition decimal_value (c : char) : option N :=
  if (c <? 128)%N then
    if ((48 <=? c) && (c <=? 57))%N then Some (c - 48)%N else None
  else if isspace c then None
  else
    match unicode_decimal c with
    | Some d => if (d <? 10)%N then Some d else None
    | None => None
    end.

(** The class [\d] of a [str] pattern. *)
Definition isdigit (c : char) : bool :=
  match decimal_value c with
  | Some _ => true
  | None => false
  end.

Definition upper_char (c : char) : str :=
  if (c <? 128)%N then
    [if ((97 <=? c) && (c <=? 122))%N then (c - 32)%N else c]
  else unicode_upper c.

(** [s.upper()] *)
Definition upper (s : str) : str := flat_map upper_char s.

Fixpoint str_eqb (a b : str) : bool :=
  match a, b with
  | [], [] => true
  | x :: a', y :: b' => N.eqb x y && str_eqb a' b'
  | _, _ => false
  end.

Fixpoint dropwhile (p : char -> bool) (s : str) : str :=
  match s with
  | c :: s' => if p c then dropwhile p s' else s
  | [] => []
  end.

Fixpoint takewhile (p : char -> bool) (s : str) : str :=
  match s with
  | c :: s' => if p c then c :: takewhile p s' else []
  | [] => []
  end.

Definition lstrip (s : str) : str := dropwhile isspace s.
Definition rstrip (s : str) : str := rev (dropwhile isspace (rev s)).

(** [s.strip()] *)
Definition strip (s : str) : str := rstrip (lstrip s).

Definition mem_char (c : char) (set : str) : bool :=
  existsb (N.eqb c) set.

(** [s.rstrip(set)]: trailing characters that belong to [set] go. *)
Definition rstrip_chars (set : str) (s : str) : str :=
  rev (dropwhile (fun c => mem_char c set) (rev s)).

Fixpoint starts_with (p s : str) : bool :=
  match p, s with
  | [], _ => true
  | x :: p', y :: s' => N.eqb x y && starts_with p' s'
  | _ :: _, [] => false
  end.

(** [s.replace(old, new)] for a non-empty [old]: the occurrences are
    found from the left and do not overlap; [skip] counts the characters
    of the occurrence just replaced that are still to be passed. *)
Fixpoint replace_from (old new : str) (skip : nat) (s : str) : str :=
  match s with
  | [] => []
  | c :: s' =>
      match skip with
      | S k => replace_from old new k s'
      | O =>
          if starts_with old s
          then new ++ replace_from old new (List.length old - 1) s'
          else c :: replace_from old new 0 s'
      end
  end.

Definition replace (old new : str) (s : str) : str :=
  replace_from old new 0 s.

(** [x in s] for a one-character [x] *)
Definition contains_char (c : char) (s : str) : bool := mem_char c s.

(** [sep.join(lines)] *)
Fixpoint join (sep : str) (lines : list str) : str :=
  match lines with
  | [] => []
  | [l] => l
  | l :: rest => l ++ sep ++ join sep rest
  end.

(** ** Regular expressions: the fragment [NUMERIC_PATTERN] is written in *)

Inductive cset :=
| CLit (c : char)      (* a literal character *)
| CDigit.               (* \d *)

Definition cset_mem (cs : cset) (c : char) : bool :=
  match cs with
  | CLit x => N.eqb c x
  | CDigit => isdigit c
  end.

Inductive regex :=
| One (cs : cset)
| Many1 (cs : cset)          (* cs+  , greedy *)
| Cat (r1 r2 : regex)
| Opt (r : regex).           (* r?   , greedy *)

(** A backtracking matcher in the order Python's [re] tries the
    alternatives: the longest repetition first, the optional part present
    first.  The continuation [k] receives what is left of the text. *)
Fixpoint many (cs : cset) (s : str) (k : str -> option str) : option str :=
  match s with
  | c :: s' =>
      if cset_mem cs c
      then match many cs s' k with
           | Some r => Some r
           | None => k s
           end
      else k s
  | [] => k []
  end.

Fixpoint rx_match (r : regex) (s : str) (k : str -> option str) : option str :=
  match r with
  | One cs =>
      match s with
      | c :: s' => if cset_mem cs c then k s' else None
      | [] => None
      end
  | Many1 cs =>
      match s with
      | c :: s' => if cset_mem cs c then many cs s' k else None
      | [] => None
      end
  | Cat r1 r2 => rx_match r1 s (fun s' => rx_match r2 s' k)
  | Opt r1 =>
      match rx_match r1 s k with
      | Some r => Some r
      | None => k s
      end
  end.

(** The text matched at the start of [s], if any. *)
Definition match_at (r : regex) (s : str) : option str :=
  match rx_match r s (@Some str) with
  | Some rest => Some (firstn (List.length s - List.length rest) s)
  | None => None
  end.

(** [pattern.search(s)] followed by [match.group()]: the match at the
    leftmost position that has one. *)
Fixpoint search (r : regex) (s : str) : option str :=
  match match_at r s with
  | Some m => Some m
  | None =>
      match s with
      | [] => None
      | _ :: s' => search r s'
      end
  end.

(** [re.compile(r"-?\d+(?:\.\d+)?")] *)
Definition NUMERIC_PATTERN : regex :=
  Cat (Opt (One (CLit "-"%ch)))
      (Cat (Many1 CDigit)
           (Opt (Cat (One (CLit "."%ch)) (Many1 CDigit)))).

(** ** Decimal: finite values and the default context *)

(** [_sign], [_int] and [_exp] of a finite [Decimal]: the value is
    [(-1)^sign * int * 10^exp]. *)
Record Decimal := mkDecimal { d_sign : bool; d_int : N; d_exp : Z }.

(** The value of a digit, as [int()] and [Decimal()] read it. *)
Definition digit_val (c : char) : N :=
  match decimal_value c with
  | Some d => d
  | None => 0%N
  end.

Definition digit_char (d : N) : char := (48 + d)%N.

(** [int(ds)] for a string of digits *)
Definition int_of_digits (ds : str) : N :=
  fold_left (fun acc c => (acc * 10 + digit_val c)%N) ds 0%N.

Fixpoint digits_from (fuel : nat) (n : N) (acc : str) : str :=
  match fuel with
  | O => acc
  | S f =>
      let acc' := digit_char (n mod 10) :: acc in
      if (n / 10 =? 0)%N then acc' else digits_from f (n / 10)%N acc'
  end.

(** [str(n)] for a natural number *)
Definition str_of_int (n : N) : str :=
  digits_from (S (N.to_nat (N.log2 n))) n [].

(** [len(self._int)] *)
Definition ndigits (n : N) : Z := Z.of_nat (List.length (str_of_int n)).

Definition nonempty (s : str) : bool :=
  match s with [] => false | _ :: _ => true end.

(** [Decimal(s)] on the plain syntax, a sign, digits and a fraction; any
    other text is [InvalidOperation] here ([None]).  Python reads more
    (exponents, infinities, NaN), none of which [NUMERIC_PATTERN] can
    hand over. *)
Definition Decimal_of_str (s : str) : option Decimal :=
  let '(neg, body) :=
    match s with
    | c :: r =>
        if N.eqb c "-"%ch then (true, r)
        else if N.eqb c "+"%ch then (false, r)
        else (false, s)
    | [] => (false, s)
    end in
  let ip := takewhile isdigit body in
  match dropwhile isdigit body with
  | [] =>
      if nonempty ip then Some (mkDecimal neg (int_of_digits ip) 0) else None
  | c :: fp =>
      if N.eqb c "."%ch && forallb isdigit fp && (nonempty ip || nonempty fp)
      then Some (mkDecimal neg (int_of_digits (ip ++ fp))
                           (- Z.of_nat (List.length fp)))
      else None
  end.

(** The default context. *)
Definition prec : Z := 28.
Definition Emax : Z := 999999.
Definition Emin : Z := -999999.
Definition Etiny : Z := Emin - prec + 1.
Definition Etop : Z := Emax - prec + 1.

(** The signals the default context traps that finite arithmetic can
    raise. *)
Inductive signal := Overflow.

(** ROUND_HALF_EVEN: [c] without its [k] low digits. *)
Definition round_half_even (c : N) (k : Z) : N :=
  let p := (10 ^ Z.to_N k)%N in
  let q := (c / p)%N in
  let r := (c mod p)%N in
  if (2 * r <? p)%N then q
  else if (p <? 2 * r)%N then (q + 1)%N
  else if N.even q then q else (q + 1)%N.

(** [Decimal._fix(context)]: round to the context's precision and check
    the exponent range. *)
Definition fix_ (d : Decimal) : signal + Decimal :=
  if (d_int d =? 0)%N
  then inr (mkDecimal (d_sign d) 0 (Z.min (Z.max (d_exp d) Etiny) Emax))
  else
    let exp_min0 := (ndigits (d_int d) + d_exp d - prec)%Z in
    if (Etop <? exp_min0)%Z then inl Overflow
    else
      let exp_min := Z.max exp_min0 Etiny in
      if (d_exp d <? exp_min)%Z then
        let coeff := round_half_even (d_int d) (exp_min - d_exp d) in
        let '(coeff, exp_min) :=
          if (prec <? ndigits coeff)%Z
          then ((coeff / 10)%N, (exp_min + 1)%Z)
          else (coeff, exp_min) in
        if (Etop <? exp_min)%Z then inl Overflow
        else inr (mkDecimal (d_sign d) coeff exp_min)
      else inr d.

(** The product before the context is applied. *)
Definition mul_exact (a b : Decimal) : Decimal :=
  mkDecimal (xorb (d_sign a) (d_sign b)) (d_int a * d_int b)
            (d_exp a + d_exp b).

(** [a * b] *)
Definition dec_mul (a b : Decimal) : signal + Decimal :=
  fix_ (mul_exact a b).

(** [d.copy_abs()] *)
Definition copy_abs (d : Decimal) : Decimal :=
  mkDecimal false (d_int d) (d_exp d).

Definition signed (d : Decimal) : Z :=
  if d_sign d then (- Z.of_N (d_int d))%Z else Z.of_N (d_int d).

(** The coefficient of [d] at the exponent [m <= d_exp d]. *)
Definition scaled (d : Decimal) (m : Z) : Z :=
  (signed d * 10 ^ (d_exp d - m))%Z.

(** Comparison is by value, whatever the context. *)
Definition dec_compare (a b : Decimal) : comparison :=
  let m := Z.min (d_exp a) (d_exp b) in
  (scaled a m ?= scaled b m)%Z.

(** [a > b] *)
Definition dec_gt (a b : Decimal) : bool :=
  match dec_compare a b with Gt => true | _ => false end.

(** [a == b] *)
Definition dec_eqb (a b : Decimal) : bool :=
  match dec_compare a b with Eq => true | _ => false end.

(** [Decimal._rescale(e, ROUND_HALF_EVEN)] *)
Definition rescale (d : Decimal) (e : Z) : Decimal :=
  if (d_int d =? 0)%N then mkDecimal (d_sign d) 0 e
  else if (e <=? d_exp d)%Z
  then mkDecimal (d_sign d) (d_int d * 10 ^ Z.to_N (d_exp d - e))%N e
  else mkDecimal (d_sign d) (round_half_even (d_int d) (e - d_exp d)) e.

(** Groups of three from the right, on the reversed digits. *)
Fixpoint group3_rev (r : str) : str :=
  match r with
  | a :: b :: c :: ((_ :: _) as rest) =>
      a :: b :: c :: ","%ch :: group3_rev rest
  | _ => r
  end.

(** [_insert_thousands_sep] for the separator [,] *)
Definition insert_thousands_sep (ds : str) : str :=
  rev (group3_rev (rev ds)).

(** [format(v, ",.<places>f")] *)
Definition format_f (places : nat) (v : Decimal) : str :=
  let r := rescale v (- Z.of_nat places) in
  let ds := str_of_int (d_int r) in
  let dotplace := (d_exp r + Z.of_nat (List.length ds))%Z in
  let '(intpart, fracpart) :=
    if (dotplace <? 0)%Z
    then (chars "0", repeat "0"%ch (Z.to_nat (- dotplace)) ++ ds)
    else
      let ip := firstn (Z.to_nat dotplace) ds in
      ((if nonempty ip then ip else chars "0"), skipn (Z.to_nat dotplace) ds) in
  let sign := if d_sign r then chars "-" else [] in
  let fracpart := if nonempty fracpart then "."%ch :: fracpart else [] in
  sign ++ insert_thousands_sep intpart ++ fracpart.

(** ** The program *)

Definition POSITION_VALUE_THRESHOLD : Decimal := mkDecimal false 50000 0.
Definition TABLE_WAIT_SECONDS : Z := 45.
Definition ROW_POLL_INTERVAL_MS : Z := 1500.

Record Position := mkPosition {
  coin : str;
  leverage : str;
  size : Decimal;
  mark_price : Decimal
}.

Definition position_value (self : Position) : signal + Decimal :=
  dec_mul (size self) (mark_price self).

Definition absolute_position_value (self : Position) : signal + Decimal :=
  match position_value self with
  | inr v => inr (copy_abs v)
  | inl e => inl e
  end.

Definition sanitize (raw_text : str) : str :=
  strip (replace (chars "USD") []
           (replace (chars "$") [] (replace (chars ",") [] raw_text))).

(** [None] as argument is Python's [None]; [None] as result is the
    absent value. *)
Definition parse_decimal_from_text (raw_text : option str) : option Decimal :=
  match raw_text with
  | None => None
  | Some raw =>
      match search NUMERIC_PATTERN (sanitize raw) with
      | None => None
      | Some m =>
          match Decimal_of_str m with
          | Some d => Some d
          | None => None            (* except InvalidOperation *)
          end
      end
  end.

Definition format_decimal (value : Decimal) : str :=
  let formatted := format_f 6 value in
  if contains_char "."%ch formatted
  then rstrip_chars (chars ".") (rstrip_chars (chars "0") formatted)
  else formatted.

Definition format_currency (value : Decimal) : str :=
  chars "$" ++ format_f 2 value.

(** *** Row collection *)

(** The three row selectors, ["tbody tr"], ["tr"] and ["[role='row']"]. *)
Inductive selector := TbodyTr | Tr | RoleRow.

Definition search_order : list selector := [TbodyTr; Tr; RoleRow].

(** A row element as the collector sees it: the inner texts of its [td]
    cells and of its [[role='cell']] cells. *)
Record row_elem := mkRow { td_cells : list str; role_cells : list str }.

(** A table as the collector sees it: the rows each selector yields. *)
Definition table := selector -> list row_elem.

Definition row_cells (row : row_elem) : list str :=
  if (List.length (td_cells row) =? 0)%nat then role_cells row
  else td_cells row.

Fixpoint collect_rows (row_elems : list row_elem) (rows : list (list str))
  : list (list str) :=
  match row_elems with
  | [] => rows
  | row :: rest =>
      let cells := row_cells row in
      if (List.length cells =? 0)%nat then collect_rows rest rows
      else collect_rows rest (rows ++ [map strip cells])
  end.

Fixpoint collect_from (t : table) (order : list selector) : list (list str) :=
  match order with
  | [] => []
  | sel :: rest =>
      let row_locator := t sel in
      if (List.length row_locator =? 0)%nat then collect_from t rest
      else
        match collect_rows row_locator [] with
        | [] => collect_from t rest
        | rows => rows
        end
  end.

Definition collect_table_rows (t : table) : list (list str) :=
  collect_from t search_order.

(** *** Waiting for the table *)

Section Waiting.

(** Playwright's table handle and the errors its calls raise. *)
Variable Locator : Type.
Variable exn : Type.

(** One pass of the polling loop: what [locate_perp_table(page)] does,
    return a table or [None] or raise; what [table.locator(sel).count()]
    gives for each selector; and what [page.wait_for_timeout] raises, if
    it raises. *)
Record poll := mkPoll {
  located : exn + option Locator;
  row_count : selector -> exn + nat;
  wait_error : option exn
}.

(** The page over time: [clock k] is the [k]-th reading of
    [time.time()], in milliseconds ([clock 0] fixes the deadline,
    [clock k] opens pass [k]); [polls k] is what pass [k] observes. *)
Record page := mkPage {
  clock : nat -> Z;
  polls : nat -> poll
}.

(** [page.wait_for_timeout] suspends for the interval at least, and
    time does not run backwards. *)
Definition ticking (pg : page) : Prop :=
  (clock pg 0 <= clock pg 1)%Z /\
  forall k, (1 <= k)%nat ->
    (clock pg k + ROW_POLL_INTERVAL_MS <= clock pg (S k))%Z.

(** The loop over the three selectors: whether one gave rows, and the
    last error seen. *)
Fixpoint probe (count : selector -> exn + nat) (order : list selector)
         (last_error : option exn) : bool * option exn :=
  match order with
  | [] => (false, last_error)
  | sel :: rest =>
      let '(n, last_error) :=
        match count sel with
        | inl exc => (0%nat, Some exc)
        | inr n => (n, last_error)
        end in
      if (0 <? n)%nat then (true, last_error)
      else probe count rest last_error
  end.

Inductive wait_outcome :=
| Returned (table : Locator) (attempt : nat) (waits : nat)
| RuntimeError (cause : option exn)   (* raise ... from last_error *)
| Propagated (exc : exn) (attempt : nat)
    (* what [locate_perp_table] or [page.wait_for_timeout] raised: neither
       call is inside a [try] *)
| Unfinished.                         (* the passes allowed ran out *)

Fixpoint wait_loop (fuel : nat) (pg : page) (deadline : Z)
         (attempt waits : nat) (last_error : option exn) : wait_outcome :=
  match fuel with
  | O => Unfinished
  | S fuel' =>
      if (clock pg attempt <? deadline)%Z then
        let p := polls pg attempt in
        let retry last_error :=
          match wait_error p with
          | Some exc => Propagated exc attempt
          | None =>
              wait_loop fuel' pg deadline (S attempt) (S waits) last_error
          end in
        match located p with
        | inl exc => Propagated exc attempt
        | inr (Some table) =>
            let '(found, last_error) :=
              probe (row_count p) search_order last_error in
            if found then Returned table attempt waits
            else retry last_error
        | inr None => retry last_error
        end
      else RuntimeError last_error
  end.

(** On a ticking page the loop head is reached 31 times at most. *)
Definition max_passes : nat :=
  S (Z.to_nat (TABLE_WAIT_SECONDS * 1000 / ROW_POLL_INTERVAL_MS)).

Definition deadline_of (pg : page) : Z :=
  (clock pg 0 + TABLE_WAIT_SECONDS * 1000)%Z.

Definition wait_for_perp_table (pg : page) : wait_outcome :=
  wait_loop max_passes pg (deadline_of pg) 1 0 None.

End Waiting.

Arguments Returned {Locator exn} table attempt waits.
Arguments RuntimeError {Locator exn} cause.
Arguments Propagated {Locator exn} exc attempt.
Arguments Unfinished {Locator exn}.

(** *** Building the positions (the loop of [scrape_perp_positions]) *)

Definition pad4 (normalized : list str) : list str :=
  normalized ++ repeat [] (4 - List.length normalized).

(** One pass of the loop: the position appended, if any. *)
Definition build_row (row : list str) : option Position :=
  match row with
  | [] => None
  | _ :: _ =>
      let normalized := map strip row in
      if str_eqb (upper (nth 0 normalized [])) (chars "COIN") then None
      else
        match firstn 4 (pad4 normalized) with
        | [coin_; leverage_; size_text; mark_text] =>
            let size_value := parse_decimal_from_text (Some size_text) in
            let mark_value := parse_decimal_from_text (Some mark_text) in
            match size_value, mark_value with
            | Some sv, Some mv =>
                if nonempty coin_
                then Some (mkPosition coin_ leverage_ sv mv)
                else None
            | _, _ => None
            end
        | _ => None
        end
  end.

Fixpoint build_positions (raw_rows : list (list str))
         (positions : list Position) : list Position :=
  match raw_rows with
  | [] => positions
  | row :: rest =>
      match build_row row with
      | Some p => build_positions rest (positions ++ [p])
      | None => build_positions rest positions
      end
  end.

Inductive scrape_outcome :=
| Scraped (positions : list Position)
| ScrapeError           (* an exception leaves the function *)
| ScrapeUnfinished.

Definition scrape_perp_positions (Locator exn : Type) (pg : page Locator exn)
           (dom : Locator -> table) : scrape_outcome :=
  match wait_for_perp_table pg with
  | Returned t _ _ => Scraped (build_positions (collect_table_rows (dom t)) [])
  | RuntimeError _ => ScrapeError
  | Propagated _ _ => ScrapeError
  | Unfinished => ScrapeUnfinished
  end.

(** *** Evaluation and messages *)

Definition newline : char := 10%N.

Definition bind {E A B : Type} (m : E + A) (f : A -> E + B) : E + B :=
  match m with
  | inl e => inl e
  | inr a => f a
  end.

Notation "x <- m ;; k" := (bind m (fun x => k))
  (at level 61, m at next level, right associativity).

Definition build_no_alert_body : str :=
  chars "No coin exceeds the \$50,000 position value threshold.".

Section Evaluator.

(** The module constant [POSITION_VALUE_THRESHOLD]. *)
Variable threshold : Decimal.

(** [[pos for pos in positions if pos.absolute_position_value > threshold]] *)
Fixpoint select_exceeding (positions : list Position)
  : signal + list Position :=
  match positions with
  | [] => inr []
  | pos :: rest =>
      v <- absolute_position_value pos ;;
      tail <- select_exceeding rest ;;
      inr (if dec_gt v threshold then pos :: tail else tail)
  end.

Definition alert_block (pos : Position) : signal + list str :=
  value <- position_value pos ;;
  abs_value <- absolute_position_value pos ;;
  inr [ chars "- Coin: " ++ coin pos;
        chars "  Leverage: " ++
          (if nonempty (leverage pos) then leverage pos else chars "N/A");
        chars "  Size: " ++ format_decimal (size pos);
        chars "  Mark Price: " ++ format_currency (mark_price pos);
        chars "  Position Value (Size × Mark): " ++ format_currency value;
        chars "  Absolute Value: " ++ format_currency abs_value;
        [] ].

Fixpoint alert_blocks (exceeding_positions : list Position)
  : signal + list str :=
  match exceeding_positions with
  | [] => inr []
  | pos :: rest =>
      block <- alert_block pos ;;
      tail <- alert_blocks rest ;;
      inr (block ++ tail)
  end.

Definition build_alert_body (exceeding_positions : list Position)
  : signal + str :=
  blocks <- alert_blocks exceeding_positions ;;
  let lines :=
    [ chars "🚨 Hyperliquid PERP Position Threshold Triggered 🚨";
      [];
      chars "The following positions exceeded the " ++
        format_currency threshold ++ chars " threshold (absolute value):";
      [] ] ++ blocks ++ [chars "Monitoring agent: agentThreshold.py"] in
  inr (strip (join [newline] lines)).

Definition debug_line (pos : Position) : signal + str :=
  value <- position_value pos ;;
  abs_value <- absolute_position_value pos ;;
  inr (chars "[DEBUG] " ++ coin pos ++ chars " | leverage=" ++ leverage pos ++
       chars " | size=" ++ format_decimal (size pos) ++
       chars " | mark=" ++ format_currency (mark_price pos) ++
       chars " | value=" ++ format_currency value ++
       chars " | abs=" ++ format_currency abs_value).

Fixpoint debug_lines (positions : list Position) : signal + list str :=
  match positions with
  | [] => inr []
  | pos :: rest =>
      l <- debug_line pos ;;
      tail <- debug_lines rest ;;
      inr (l :: tail)
  end.

(** [main] from the scraped positions on: the subject and the body
    handed to [send_email]. *)
Definition compose (positions : list Position) : signal + (str * str) :=
  _ <- debug_lines positions ;;
  exceeding <- select_exceeding positions ;;
  match exceeding with
  | _ :: _ =>
      body <- build_alert_body exceeding ;;
      inr (chars "⚠️ Hyperliquid PERP Position Alert", body)
  | [] =>
      inr (chars "Hyperliquid PERP Position Status", build_no_alert_body)
  end.

End Evaluator.

Definition main_message (positions : list Position) : signal + (str * str) :=
  compose POSITION_VALUE_THRESHOLD positions.

(** *** Positions as objects

    A [@dataclass] instance is a mutable object and [main]'s lists hold
    references to it.  The store keeps the objects built so far; a
    reference is an index into it. *)

Definition store := list Position.
Definition ref := nat.

Definition St (A : Type) : Type := store -> (signal + A) * store.

Definition ret {A : Type} (a : A) : St A := fun h => (inr a, h).

Definition raise_ {A : Type} (e : signal) : St A := fun h => (inl e, h).

Definition bindS {A B : Type} (m : St A) (f : A -> St B) : St B :=
  fun h =>
    match m h with
    | (inl e, h') => (inl e, h')
    | (inr a, h') => f a h'
    end.

Notation "x <~ m ;; k" := (bindS m (fun x => k))
  (at level 61, m at next level, right associativity).

Definition lift {A : Type} (x : signal + A) : St A := fun h => (x, h).

Definition no_position : Position :=
  mkPosition [] [] (mkDecimal false 0 0) (mkDecimal false 0 0).

(** [Position(...)]: a new object *)
Definition new_position (p : Position) : St ref :=
  fun h => (inr (List.length h), h ++ [p]).

(** Reading the attributes of the object behind [r] *)
Definition load (r : ref) : St Position :=
  fun h => (inr (nth r h no_position), h).

Fixpoint set_nth (r : nat) (p : Position) (h : store) : store :=
  match h, r with
  | [], _ => []
  | _ :: h', O => p :: h'
  | q :: h', S r' => q :: set_nth r' p h'
  end.

(** Assigning to the attributes of the object behind [r]; a dataclass
    that is not frozen allows it. *)
Definition setattr (r : ref) (p : Position) : St unit :=
  fun h => (inr tt, set_nth r p h).

Section ByReference.

Variable threshold : Decimal.

Definition position_value_of (r : ref) : St Decimal :=
  self <~ load r ;; lift (position_value self).

Definition absolute_position_value_of (r : ref) : St Decimal :=
  v <~ position_value_of r ;; ret (copy_abs v).

Fixpoint select_exceeding_refs (positions : list ref) : St (list ref) :=
  match positions with
  | [] => ret []
  | pos :: rest =>
      v <~ absolute_position_value_of pos ;;
      tail <~ select_exceeding_refs rest ;;
      ret (if dec_gt v threshold then pos :: tail else tail)
  end.

Definition alert_block_of (r : ref) : St (list str) :=
  pos <~ load r ;; lift (alert_block pos).

Fixpoint alert_blocks_of (exceeding_positions : list ref) : St (list str) :=
  match exceeding_positions with
  | [] => ret []
  | pos :: rest =>
      block <~ alert_block_of pos ;;
      tail <~ alert_blocks_of rest ;;
      ret (block ++ tail)
  end.

Definition build_alert_body_of (exceeding_positions : list ref) : St str :=
  blocks <~ alert_blocks_of exceeding_positions ;;
  let lines :=
    [ chars "🚨 Hyperliquid PERP Position Threshold Triggered 🚨";
      [];
      chars "The following positions exceeded the " ++
        format_currency threshold ++ chars " threshold (absolute value):";
      [] ] ++ blocks ++ [chars "Monitoring agent: agentThreshold.py"] in
  ret (strip (join [newline] lines)).

Fixpoint debug_lines_of (positions : list ref) : St (list str) :=
  match positions with
  | [] => ret []
  | r :: rest =>
      pos <~ load r ;;
      l <~ lift (debug_line pos) ;;
      tail <~ debug_lines_of rest ;;
      ret (l :: tail)
  end.

Definition compose_of (positions : list ref) : St (str * str) :=
  _ <~ debug_lines_of positions ;;
  exceeding <~ select_exceeding_refs positions ;;
  match exceeding with
  | _ :: _ =>
      body <~ build_alert_body_of exceeding ;;
      ret (chars "⚠️ Hyperliquid PERP Position Alert", body)
  | [] =>
      ret (chars "Hyperliquid PERP Position Status", build_no_alert_body)
  end.

End ByReference.

(** The loop of [scrape_perp_positions] with the objects it builds. *)
Fixpoint build_positions_of (raw_rows : list (list str))
         (positions : list ref) : St (list ref) :=
  match raw_rows with
  | [] => ret positions
  | row :: rest =>
      match build_row row with
      | Some p =>
          r <~ new_position p ;;
          build_positions_of rest (positions ++ [r])
      | None => build_positions_of rest positions
      end
  end.

(** The cycle from the collected rows to the message, on the store. *)
Definition cycle_of (raw_rows : list (list str)) : St (str * str) :=
  positions <~ build_positions_of raw_rows [] ;;
  compose_of POSITION_VALUE_THRESHOLD positions.

(** ** Vocabulary of the statements *)

Definition all_digits (s : str) : Prop :=
  Forall (fun c => isdigit c = true) s.

Definition minus (neg : bool) : str := if neg then chars "-" else [].

(** The texts [NUMERIC_PATTERN] describes, an optional minus sign, digits
    and optionally a point and more digits, each with the decimal it
    denotes: the digits read as a number, the exponent counting the
    digits after the point. *)
Inductive literal_value : str -> Decimal -> Prop :=
| IntegerLiteral : forall neg ip,
    ip <> [] -> all_digits ip ->
    literal_value (minus neg ++ ip) (mkDecimal neg (int_of_digits ip) 0)
| FractionLiteral : forall neg ip fp,
    ip <> [] -> all_digits ip -> fp <> [] -> all_digits fp ->
    literal_value (minus neg ++ ip ++ "."%ch :: fp)
                  (mkDecimal neg (int_of_digits (ip ++ fp))
                             (- Z.of_nat (List.length fp))).

Definition numeric_literal (m : str) : Prop := exists d, literal_value m d.

(** [m] is the first match in [s]: no literal starts further left, and
    none that starts where [m] does is longer. *)
Definition first_match (s m : str) : Prop :=
  exists pre post,
    s = pre ++ m ++ post /\ numeric_literal m /\
    forall pre' m' post',
      s = pre' ++ m' ++ post' -> numeric_literal m' ->
      (List.length pre <= List.length pre')%nat /\
      (List.length pre' = List.length pre ->
       List.length m' <= List.length m)%nat.

Definition no_match (s : str) : Prop :=
  forall pre m post, s = pre ++ m ++ post -> ~ numeric_literal m.

(** The greedy reading of [NUMERIC_PATTERN] at the start of a text, in
    closed form: the fraction, the digits with their fraction, and the
    whole match. *)
Definition fraction_part (s : str) : str :=
  match s with
  | c :: r =>
      if N.eqb c "."%ch && nonempty (takewhile isdigit r)
      then c :: takewhile isdigit r else []
  | [] => []
  end.

Definition body_part (s : str) : option str :=
  let ip := takewhile isdigit s in
  if nonempty ip then Some (ip ++ fraction_part (dropwhile isdigit s))
  else None.

Definition numeric_prefix (s : str) : option str :=
  match s with
  | c :: r =>
      if N.eqb c "-"%ch then
        match body_part r with
        | Some b => Some (c :: b)
        | None => body_part s
        end
      else body_part s
  | [] => None
  end.

(** The two sub-patterns of [NUMERIC_PATTERN]. *)
Definition FRACTION : regex := Opt (Cat (One (CLit "."%ch)) (Many1 CDigit)).
Definition BODY : regex := Cat (Many1 CDigit) FRACTION.

Definition edge_not_space (s : str) : Prop :=
  match s with c :: _ => isspace c = false | [] => True end.

(** The positions a list of rows gives, row by row. *)
Definition emitted (row : list str) : list Position :=
  match build_row row with
  | Some p => [p]
  | None => []
  end.

(** Cell [i] of a row as the builder reads it: trimmed, and empty when the
    row is too short. *)
Definition cell (row : list str) (i : nat) : str := strip (nth i row []).

(** The rows one selector's row elements give: those with cells, each
    cell trimmed. *)
Definition row_texts (row_elems : list row_elem) : list (list str) :=
  map (map strip)
      (filter (fun cells => negb (List.length cells =? 0)%nat)
              (map row_cells row_elems)).

(** A pass finds rows when some selector counts at least one. *)
Definition has_rows {exn : Type} (count : selector -> exn + nat) : Prop :=
  exists sel n, In sel search_order /\ count sel = inr n /\ (0 < n)%nat.

(** A pass is not ready when [locate_perp_table] returns [None], or a
    table of which no selector counts a row (a count that raises counts
    none). *)
Definition not_ready {Locator exn : Type} (p : poll Locator exn) : Prop :=
  located p = inr None \/
  ((exists t, located p = inr (Some t)) /\ ~ has_rows (row_count p)).

(** [locate_perp_table] raises [e] in the pass. *)
Definition locate_raises {Locator exn : Type} (p : poll Locator exn)
           (e : exn) : Prop :=
  located p = inl e.

(** The pass is not ready and [page.wait_for_timeout] raises [e] at its
    end. *)
Definition wait_raises {Locator exn : Type} (p : poll Locator exn)
           (e : exn) : Prop :=
  not_ready p /\ wait_error p = Some e.

(** The pass is not ready and the wait at its end returns: the loop goes
    on to the next pass. *)
Definition retries {Locator exn : Type} (p : poll Locator exn) : Prop :=
  not_ready p /\ wait_error p = None.

Definition sel_rank (sel : selector) : nat :=
  match sel with TbodyTr => 0 | Tr => 1 | RoleRow => 2 end.

(** The count for [sel] raised [e] in pass [k], a pass that began before
    the deadline and had a table. *)
Definition raised_at {Locator exn : Type} (pg : page Locator exn)
           (k : nat) (sel : selector) (e : exn) : Prop :=
  (1 <= k)%nat /\ (clock pg k < deadline_of pg)%Z /\
  (exists t, located (polls pg k) = inr (Some t)) /\
  row_count (polls pg k) sel = inl e.

(** [cause] is the last error raised in the passes before pass [a], if
    any was. *)
Definition last_before {Locator exn : Type} (pg : page Locator exn)
           (a : nat) (cause : option exn) : Prop :=
  match cause with
  | Some e =>
      exists k sel,
        (k < a)%nat /\ raised_at pg k sel e /\
        forall k' sel' e',
          (k' < a)%nat -> raised_at pg k' sel' e' ->
          (k' < k)%nat \/ (k' = k /\ sel_rank sel' <= sel_rank sel)%nat
  | None => forall k sel e, (k < a)%nat -> ~ raised_at pg k sel e
  end.

(** [cause] is the last error the run observed, if it observed any. *)
Definition last_observed {Locator exn : Type} (pg : page Locator exn)
           (cause : option exn) : Prop :=
  match cause with
  | Some e =>
      exists k sel,
        raised_at pg k sel e /\
        forall k' sel' e',
          raised_at pg k' sel' e' ->
          (k' < k)%nat \/ (k' = k /\ sel_rank sel' <= sel_rank sel)%nat
  | None => forall k sel e, ~ raised_at pg k sel e
  end.

(** Two pages.  On [page_quick] a pass and its wait take 1.6 s and the
    rows are there from the third pass on; on [page_slow] they take
    1.7 s and the rows are there from pass 29 on. *)
Definition page_quick : page unit unit :=
  mkPage (fun k => (1600 * Z.of_nat k)%Z)
         (fun k => mkPoll (inr (Some tt))
                     (fun _ => inr (if (k <? 3)%nat then 0%nat else 4%nat))
                     None).

Definition page_slow : page unit unit :=
  mkPage (fun k => (1700 * Z.of_nat k)%Z)
         (fun k => mkPoll (inr (Some tt))
                     (fun _ => inr (if (k <? 29)%nat then 0%nat else 5%nat))
                     None).

(** [pos] has an absolute position value above the threshold. *)
Definition exceeds (threshold : Decimal) (pos : Position) : bool :=
  match absolute_position_value pos with
  | inr v => dec_gt v threshold
  | inl _ => false
  end.

(** The product of size and mark price fits the context: at most 28
    digits, and an exponent it need not bring into range. *)
Definition fits_context (pos : Position) : Prop :=
  let p := mul_exact (size pos) (mark_price pos) in
  (ndigits (d_int p) <= prec)%Z /\ (Etiny <= d_exp p <= 0)%Z.

(** Positions worth 60000, -40000, -70000 and 50000. *)
Definition pos_60000 : Position :=
  mkPosition (chars "BTC") (chars "5x")
             (mkDecimal false 2 0) (mkDecimal false 30000 0).
Definition pos_minus_40000 : Position :=
  mkPosition (chars "ETH") []
             (mkDecimal true 16 0) (mkDecimal false 25000 (-1)).
Definition pos_minus_70000 : Position :=
  mkPosition (chars "SOL") (chars "3x")
             (mkDecimal true 3500 (-1)) (mkDecimal false 200 0).
Definition pos_50000 : Position :=
  mkPosition (chars "HYPE") (chars "2x")
             (mkDecimal false 1000 0) (mkDecimal false 5000 (-2)).

(** A position worth 50000.0000000000000000000000000001. *)
Definition pos_just_above : Position :=
  mkPosition (chars "BTC") (chars "1x")
             (mkDecimal false 500000000000000000000000000000001 (-28))
             (mkDecimal false 1 0).

(** A computation that leaves every object as it was. *)
Definition read_only {A : Type} (m : St A) : Prop :=
  forall h, snd (m h) = h.

(** The objects behind the references. *)
Definition deref (h : store) (refs : list ref) : list Position :=
  map (fun r => nth r h no_position) refs.

(** Powers of ten, and the characters of a plain number. *)
Definition pow10 (k : nat) : N := (10 ^ N.of_nat k)%N.

(** The tail of a formatted number: the point and the digits kept. *)
Definition point_tail (fp : str) : str :=
  if nonempty fp then "."%ch :: fp else [].

(** The characters a formatted number is made of once the separators
    are gone. *)
Definition numeric_char (c : char) : bool :=
  isdigit c || N.eqb c "-"%ch || N.eqb c "."%ch.

Definition plain (s : str) : Prop := Forall (fun c => numeric_char c = true) s.

(** *** Locating the table *)

(** [needle in hay] *)
Fixpoint contains (needle hay : str) : bool :=
  starts_with needle hay ||
  match hay with
  | [] => false
  | _ :: hay' => contains needle hay'
  end.

Section Locating.

(** Playwright's handles and errors, as in the polling loop. *)
Variable Locator : Type.
Variable exn : Type.

(** One element whose text has "Perpetual Positions": the first table
    under its nearest ancestor that has one, and what [count()] says of
    it. *)
Record heading_hit := mkHeading {
  table_candidate : Locator;
  candidate_count : exn + nat
}.

(** One [table] element: its handle and the inner texts of its [th]
    cells. *)
Record table_hit := mkTable {
  table_handle : Locator;
  header_texts : exn + list str
}.

(** The document as [locate_perp_table] queries it; a query that raises
    is a left value. *)
Record document := mkDocument {
  heading_hits : exn + list heading_hit;
  table_hits : exn + list table_hit
}.

(** The loop over the headings, inside the [try]: [None] when it ends
    without a table, or is left by an exception. *)
Fixpoint scan_headings (hits : list heading_hit) : option Locator :=
  match hits with
  | [] => None
  | heading :: rest =>
      match candidate_count heading with
      | inl _ => None
      | inr n =>
          if (0 <? n)%nat then Some (table_candidate heading)
          else scan_headings rest
      end
  end.

Definition headers_upper (headers : list str) : str :=
  join (chars " ") (map (fun text => upper (strip text)) headers).

Definition KEYWORDS : list str := [chars "COIN"; chars "SIZE"; chars "MARK"].

Definition has_keywords (joined : str) : bool :=
  nonempty joined && forallb (fun keyword => contains keyword joined) KEYWORDS.

(** The loop over the tables, outside the [try]: an exception leaves the
    function. *)
Fixpoint scan_tables (hits : list table_hit) : exn + option Locator :=
  match hits with
  | [] => inr None
  | t :: rest =>
      match header_texts t with
      | inl exc => inl exc
      | inr headers =>
          if has_keywords (headers_upper headers)
          then inr (Some (table_handle t))
          else scan_tables rest
      end
  end.

Definition locate_perp_table (page : document) : exn + option Locator :=
  let by_heading :=
    match heading_hits page with
    | inl _ => None
    | inr hits => scan_headings hits
    end in
  match by_heading with
  | Some table_candidate => inr (Some table_candidate)
  | None =>
      match table_hits page with
      | inl exc => inl exc
      | inr hits => scan_tables hits
      end
  end.

End Locating.

(** [d.copy_negate()], used to state that the sign of a size does not
    matter. *)
Definition copy_negate (d : Decimal) : Decimal :=
  mkDecimal (negb (d_sign d)) (d_int d) (d_exp d).

(** The text has a digit. *)
Definition has_digit (s : str) : bool := existsb isdigit s.

(** The lines of the alert body around the blocks. *)
Definition alert_head (threshold : Decimal) : list str :=
  [ chars "🚨 Hyperliquid PERP Position Threshold Triggered 🚨";
    [];
    chars "The following positions exceeded the " ++
      format_currency threshold ++ chars " threshold (absolute value):";
    [] ].

Definition alert_foot : list str :=
  [chars "Monitoring agent: agentThreshold.py"].

(** [s.split(sep)] for a one-character [sep]: the lines of a text, for
    the newline. *)
Fixpoint split_on (sep : char) (s : str) : list str :=
  match s with
  | [] => [[]]
  | c :: s' =>
      if N.eqb c sep then [] :: split_on sep s'
      else
        match split_on sep s' with
        | piece :: pieces => (c :: piece) :: pieces
        | [] => [[c]]
        end
  end.

(** The text has no line break. *)
Definition one_line (s : str) : Prop := ~ In newline s.

(** The heading heuristic yields no table: the query for the headings
    raises, or no heading has a table, or a count raises before one
    has. *)
Definition headings_yield_nothing {Locator exn : Type}
           (page : document Locator exn) : Prop :=
  match heading_hits page with
  | inl _ => True
  | inr hits =>
      (forall h, In h hits -> candidate_count h = inr 0%nat) \/
      (exists before h after e,
         hits = before ++ h :: after /\
         (forall h', In h' before -> candidate_count h' = inr 0%nat) /\
         candidate_count h = inl e)
  end.

(** The table's headers are read and lack a keyword. *)
Definition lacks_keywords {Locator exn : Type}
           (t : table_hit Locator exn) : Prop :=
  exists headers,
    header_texts t = inr headers /\
    has_keywords (headers_upper headers) = false.

Unset Implicit Arguments.

(** * Proofs *)

(** ** Lists of characters *)

(** The literals of the source that are not ASCII, by code point. *)
Lemma chars_examples :
  chars "×" = [215%N] /\
  chars "🚨" = [128680%N] /\
  chars "⚠️" = [9888%N; 65039%N] /\
  chars "$5" = ["$"%ch; "5"%ch].
Proof. repeat split; vm_compute; reflexivity. Qed.

(** White space beyond ASCII: the no-break space and the em space are
    trimmed, the zero-width space is not. *)
Lemma strip_examples :
  strip (160%N :: chars " BTC" ++ [8195%N; 10%N]) = chars "BTC" /\
  strip (8203%N :: chars "BTC") = 8203%N :: chars "BTC".
Proof. split; vm_compute; reflexivity. Qed.

Lemma takewhile_dropwhile : forall p s, takewhile p s ++ dropwhile p s = s.
Proof.
  induction s as [|c s IH]; simpl; [reflexivity|].
  destruct (p c); simpl; [now rewrite IH | reflexivity].
Qed.

Lemma takewhile_all : forall p s, Forall (fun c => p c = true) (takewhile p s).
Proof.
  induction s as [|c s IH]; simpl; [constructor|].
  destruct (p c) eqn:E; constructor; assumption.
Qed.

Lemma takewhile_app_all : forall p a b,
  Forall (fun c => p c = true) a ->
  takewhile p (a ++ b) = a ++ takewhile p b.
Proof.
  induction a as [|c a IH]; simpl; intros b H; [reflexivity|].
  inversion H; subst. rewrite H2. now rewrite IH.
Qed.

Lemma dropwhile_app_all : forall p a b,
  Forall (fun c => p c = true) a ->
  dropwhile p (a ++ b) = dropwhile p b.
Proof.
  induction a as [|c a IH]; simpl; intros b H; [reflexivity|].
  inversion H; subst. rewrite H2. now apply IH.
Qed.

Lemma takewhile_stop : forall p c s, p c = false -> takewhile p (c :: s) = [].
Proof. intros p c s H; simpl; now rewrite H. Qed.

Lemma dropwhile_stop : forall p c s, p c = false -> dropwhile p (c :: s) = c :: s.
Proof. intros p c s H; simpl; now rewrite H. Qed.

Lemma nonempty_true : forall s, nonempty s = true <-> s <> [].
Proof. destruct s; simpl; split; congruence. Qed.

Lemma firstn_prefix : forall (m rest : str),
  firstn (List.length (m ++ rest) - List.length rest) (m ++ rest) = m.
Proof.
  intros m rest. rewrite length_app.
  replace (List.length m + List.length rest - List.length rest)%nat
    with (List.length m + 0)%nat by lia.
  rewrite firstn_app_2. simpl. apply app_nil_r.
Qed.

(** ** The matcher on [NUMERIC_PATTERN] *)

Lemma many_total : forall cs k s,
  (forall x, k x <> None) -> many cs s k = k (dropwhile (cset_mem cs) s).
Proof.
  intros cs k s Hk. induction s as [|c s IH]; simpl; [reflexivity|].
  destruct (cset_mem cs c); [|reflexivity].
  rewrite IH. destruct (k (dropwhile (cset_mem cs) s)) eqn:E; [reflexivity|].
  now apply Hk in E.
Qed.

Lemma rx_fraction : forall s,
  exists rest, rx_match FRACTION s (@Some str) = Some rest /\
               s = fraction_part s ++ rest.
Proof.
  intros [|c r]; simpl; [now exists []|].
  destruct (N.eqb c "."%ch) eqn:Ec; simpl; [|now exists (c :: r)].
  destruct r as [|c1 r1]; simpl; [now exists [c]|].
  destruct (isdigit c1) eqn:E1; simpl; [|now exists (c :: c1 :: r1)].
  rewrite many_total by congruence. simpl.
  exists (dropwhile isdigit r1). split; [reflexivity|].
  now rewrite takewhile_dropwhile.
Qed.

Lemma rx_fraction_total : forall s, rx_match FRACTION s (@Some str) <> None.
Proof. intros s. destruct (rx_fraction s) as [r [H _]]. congruence. Qed.

Lemma rx_body : forall s,
  match body_part s with
  | Some b => exists rest, rx_match BODY s (@Some str) = Some rest /\ s = b ++ rest
  | None => rx_match BODY s (@Some str) = None
  end.
Proof.
  intros [|c r]; unfold body_part; simpl; [reflexivity|].
  destruct (isdigit c) eqn:Ec; simpl; [|reflexivity].
  rewrite many_total by apply rx_fraction_total. simpl.
  destruct (rx_fraction (dropwhile isdigit r)) as [rest [H1 H2]].
  exists rest. split; [exact H1|].
  rewrite <- app_assoc, <- H2. now rewrite takewhile_dropwhile.
Qed.

Lemma body_part_minus : forall r, body_part ("-"%ch :: r) = None.
Proof. reflexivity. Qed.

Lemma rx_numeric : forall s,
  match numeric_prefix s with
  | Some m => exists rest,
      rx_match NUMERIC_PATTERN s (@Some str) = Some rest /\ s = m ++ rest
  | None => rx_match NUMERIC_PATTERN s (@Some str) = None
  end.
Proof.
  intros [|c r]; [reflexivity|].
  unfold numeric_prefix.
  change (rx_match NUMERIC_PATTERN (c :: r) (@Some str))
    with (match (if N.eqb c "-"%ch then rx_match BODY r (@Some str) else None) with
          | Some x => Some x
          | None => rx_match BODY (c :: r) (@Some str)
          end).
  destruct (N.eqb c "-"%ch) eqn:Ec.
  - apply N.eqb_eq in Ec. subst c.
    pose proof (rx_body r) as Hr. destruct (body_part r) as [b|].
    + destruct Hr as [rest [H1 H2]]. exists rest. rewrite H1. split; [reflexivity|].
      simpl. now rewrite <- H2.
    + rewrite Hr. rewrite body_part_minus. reflexivity.
  - apply (rx_body (c :: r)).
Qed.

Lemma match_at_numeric : forall s, match_at NUMERIC_PATTERN s = numeric_prefix s.
Proof.
  intros s. unfold match_at. pose proof (rx_numeric s) as H.
  destruct (numeric_prefix s) as [m|].
  - destruct H as [rest [H1 H2]]. rewrite H1. f_equal.
    clear H1. subst s. apply firstn_prefix.
  - now rewrite H.
Qed.

(** ** What the greedy prefix is *)

Lemma digit_not_minus : forall c, isdigit c = true -> N.eqb c "-"%ch = false.
Proof.
  intros c H. destruct (N.eqb c "-"%ch) eqn:E; [|reflexivity].
  apply N.eqb_eq in E. subst c. discriminate H.
Qed.

Lemma digit_not_plus : forall c, isdigit c = true -> N.eqb c "+"%ch = false.
Proof.
  intros c H. destruct (N.eqb c "+"%ch) eqn:E; [|reflexivity].
  apply N.eqb_eq in E. subst c. discriminate H.
Qed.

Lemma fraction_part_cases : forall s,
  fraction_part s = [] \/
  exists fp, fraction_part s = "."%ch :: fp /\ fp <> [] /\ all_digits fp.
Proof.
  intros [|c r]; simpl; [now left|].
  destruct (N.eqb c "."%ch) eqn:Ec; simpl; [|now left].
  destruct (nonempty (takewhile isdigit r)) eqn:En; [|now left].
  right. apply N.eqb_eq in Ec. subst c.
  exists (takewhile isdigit r). repeat split.
  - now apply nonempty_true.
  - apply takewhile_all.
Qed.

Lemma body_part_literal : forall neg s b,
  body_part s = Some b -> exists d, literal_value (minus neg ++ b) d.
Proof.
  intros neg s b. unfold body_part.
  destruct (nonempty (takewhile isdigit s)) eqn:En; [|discriminate].
  intros H. injection H as <-. apply nonempty_true in En.
  pose proof (takewhile_all isdigit s) as Hd.
  destruct (fraction_part_cases (dropwhile isdigit s)) as [E|[fp [E [Hn Hf]]]];
    rewrite E.
  - rewrite app_nil_r. eexists. now apply IntegerLiteral.
  - eexists. now apply FractionLiteral.
Qed.

Lemma body_part_prefix : forall s b, body_part s = Some b -> exists post, s = b ++ post.
Proof.
  intros s b H. pose proof (rx_body s) as R. rewrite H in R.
  destruct R as [rest [_ R]]. now exists rest.
Qed.

Lemma numeric_prefix_literal : forall s m,
  numeric_prefix s = Some m ->
  (exists post, s = m ++ post) /\ numeric_literal m.
Proof.
  intros s m H. split.
  - pose proof (rx_numeric s) as R. rewrite H in R.
    destruct R as [rest [_ R]]. now exists rest.
  - destruct s as [|c r]; [discriminate|]. unfold numeric_prefix in H.
    destruct (N.eqb c "-"%ch) eqn:Ec.
    + apply N.eqb_eq in Ec. subst c.
      destruct (body_part r) as [b|] eqn:Eb.
      * injection H as <-. apply (body_part_literal true r b Eb).
      * rewrite body_part_minus in H. discriminate.
    + apply (body_part_literal false _ _ H).
Qed.

Lemma body_part_digits : forall ip post,
  ip <> [] -> all_digits ip ->
  exists b, body_part (ip ++ post) = Some b /\
            (List.length ip <= List.length b)%nat.
Proof.
  intros ip post Hn Hd. unfold body_part.
  rewrite takewhile_app_all by exact Hd.
  destruct (nonempty (ip ++ takewhile isdigit post)) eqn:En.
  - eexists. split; [reflexivity|]. rewrite !length_app. lia.
  - destruct ip; [congruence|discriminate].
Qed.

Lemma body_part_fraction : forall ip fp post,
  ip <> [] -> all_digits ip -> fp <> [] -> all_digits fp ->
  exists b, body_part (ip ++ "."%ch :: fp ++ post) = Some b /\
            (List.length (ip ++ "."%ch :: fp) <= List.length b)%nat.
Proof.
  intros ip fp post Hn Hd Hfn Hfd. unfold body_part.
  rewrite takewhile_app_all, dropwhile_app_all by exact Hd.
  rewrite takewhile_stop, dropwhile_stop by reflexivity.
  rewrite app_nil_r.
  destruct (nonempty ip) eqn:En; [|destruct ip; [congruence|discriminate]].
  eexists. split; [reflexivity|].
  unfold fraction_part. rewrite takewhile_app_all by exact Hfd.
  replace (nonempty (fp ++ takewhile isdigit post)) with true
    by (destruct fp; [congruence|reflexivity]).
  simpl. rewrite !length_app. simpl. rewrite !length_app. lia.
Qed.

Lemma literal_body : forall m d,
  literal_value m d ->
  exists neg b, m = minus neg ++ b /\
    forall post, exists b', body_part (b ++ post) = Some b' /\
                            (List.length b <= List.length b')%nat.
Proof.
  intros m d H. destruct H as [neg ip Hn Hd | neg ip fp Hn Hd Hfn Hfd].
  - exists neg, ip. split; [reflexivity|]. intros post.
    now apply body_part_digits.
  - exists neg, (ip ++ "."%ch :: fp). split; [reflexivity|]. intros post.
    rewrite <- app_assoc. simpl. now apply body_part_fraction.
Qed.

Lemma body_part_head : forall s b,
  body_part s = Some b -> exists c r, s = c :: r /\ isdigit c = true.
Proof.
  intros [|c r] b; unfold body_part; simpl; [discriminate|].
  destruct (isdigit c) eqn:E; [|discriminate]. intros _. now exists c, r.
Qed.

Lemma numeric_prefix_longest : forall m post,
  numeric_literal m ->
  exists g, numeric_prefix (m ++ post) = Some g /\
            (List.length m <= List.length g)%nat.
Proof.
  intros m post [d H]. destruct (literal_body m d H) as [neg [b [-> Hb]]].
  destruct (Hb post) as [b' [Eb Hl]].
  destruct neg; simpl.
  - rewrite Eb. eexists. split; [reflexivity|]. simpl. lia.
  - destruct (body_part_head _ _ Eb) as [c [r [Ec Hc]]].
    unfold numeric_prefix. rewrite Ec.
    rewrite (digit_not_minus c Hc). rewrite <- Ec, Eb.
    eexists. split; [reflexivity|]. exact Hl.
Qed.

(** ** [search] finds the first match *)

Lemma search_eq : forall r s,
  search r s =
  match match_at r s with
  | Some m => Some m
  | None => match s with [] => None | _ :: s' => search r s' end
  end.
Proof. intros r [|c s]; reflexivity. Qed.

Lemma search_numeric_some : forall s m,
  search NUMERIC_PATTERN s = Some m -> first_match s m.
Proof.
  induction s as [|c s IH]; intros m H.
  - rewrite search_eq, match_at_numeric in H. discriminate.
  - rewrite search_eq, match_at_numeric in H.
    destruct (numeric_prefix (c :: s)) as [g|] eqn:Eg.
    + injection H as <-.
      destruct (numeric_prefix_literal _ _ Eg) as [[post Hs] Hl].
      exists [], post. split; [exact Hs|]. split; [exact Hl|].
      intros pre' m' post' E Hm'. split; [simpl; lia|].
      intros Hlen. destruct pre'; [|discriminate]. simpl in E.
      destruct (numeric_prefix_longest m' post' Hm') as [g' [Eg' Hle]].
      rewrite <- E, Eg in Eg'. injection Eg' as <-. exact Hle.
    + destruct (IH m H) as [pre [post [Hs [Hl Hmin]]]].
      exists (c :: pre), post. split; [now rewrite Hs|]. split; [exact Hl|].
      intros pre' m' post' E Hm'. destruct pre' as [|c' pre'].
      * simpl in E. destruct (numeric_prefix_longest m' post' Hm') as [g' [Eg' _]].
        rewrite <- E, Eg in Eg'. discriminate.
      * simpl in E. injection E as _ E.
        destruct (Hmin pre' m' post' E Hm') as [H1 H2]. simpl. split; [lia|].
        intros Hlen. apply H2. lia.
Qed.

Lemma search_numeric_none : forall s,
  search NUMERIC_PATTERN s = None -> no_match s.
Proof.
  induction s as [|c s IH]; intros H pre m post E Hm.
  - destruct pre; [|discriminate]. simpl in E.
    destruct (numeric_prefix_longest m post Hm) as [g [Eg _]].
    rewrite <- E in Eg. discriminate.
  - rewrite search_eq, match_at_numeric in H.
    destruct (numeric_prefix (c :: s)) as [g|] eqn:Eg; [discriminate|].
    destruct pre as [|c' pre].
    + simpl in E. destruct (numeric_prefix_longest m post Hm) as [g' [Eg' _]].
      rewrite <- E, Eg in Eg'. discriminate.
    + simpl in E. injection E as _ E. exact (IH H pre m post E Hm).
Qed.

(** ** [Decimal(m)] on a match *)

Lemma forallb_all_digits : forall s, all_digits s -> forallb isdigit s = true.
Proof.
  intros s H. apply forallb_forall. intros c Hc.
  unfold all_digits in H. rewrite Forall_forall in H. now apply H.
Qed.

Lemma Decimal_of_str_signed : forall neg c r,
  isdigit c = true ->
  Decimal_of_str (minus neg ++ c :: r) =
  let body := c :: r in
  let ip := takewhile isdigit body in
  match dropwhile isdigit body with
  | [] =>
      if nonempty ip then Some (mkDecimal neg (int_of_digits ip) 0) else None
  | c' :: fp =>
      if N.eqb c' "."%ch && forallb isdigit fp && (nonempty ip || nonempty fp)
      then Some (mkDecimal neg (int_of_digits (ip ++ fp))
                           (- Z.of_nat (List.length fp)))
      else None
  end.
Proof.
  intros neg c r Hc. destruct neg.
  - reflexivity.
  - unfold Decimal_of_str, minus. cbn [app].
    rewrite (digit_not_minus c Hc), (digit_not_plus c Hc). reflexivity.
Qed.

Lemma takewhile_id : forall p s,
  Forall (fun c => p c = true) s -> takewhile p s = s.
Proof.
  intros p s H. rewrite <- (app_nil_r s) at 1.
  rewrite takewhile_app_all by exact H. apply app_nil_r.
Qed.

Lemma dropwhile_nil : forall p s,
  Forall (fun c => p c = true) s -> dropwhile p s = [].
Proof.
  intros p s H. rewrite <- (app_nil_r s).
  now rewrite dropwhile_app_all by exact H.
Qed.

Lemma Decimal_of_literal : forall m d,
  literal_value m d -> Decimal_of_str m = Some d.
Proof.
  intros m d H. destruct H as [neg ip Hn Hd | neg ip fp Hn Hd Hfn Hfd].
  - destruct ip as [|c r]; [congruence|].
    rewrite Decimal_of_str_signed by (now inversion Hd).
    cbv zeta.
    rewrite takewhile_id, dropwhile_nil by exact Hd.
    reflexivity.
  - destruct ip as [|c r]; [congruence|].
    change ((c :: r) ++ "."%ch :: fp) with (c :: (r ++ "."%ch :: fp)).
    rewrite Decimal_of_str_signed by (now inversion Hd).
    cbv zeta.
    change (c :: (r ++ "."%ch :: fp)) with ((c :: r) ++ "."%ch :: fp).
    rewrite takewhile_app_all, dropwhile_app_all by exact Hd.
    rewrite takewhile_stop, dropwhile_stop by reflexivity.
    rewrite app_nil_r. rewrite forallb_all_digits by exact Hfd.
    simpl. reflexivity.
Qed.

Lemma literal_value_fun : forall m d d',
  literal_value m d -> literal_value m d' -> d = d'.
Proof.
  intros m d d' H H'. apply Decimal_of_literal in H, H'. congruence.
Qed.

Lemma prefix_same_length : forall (g m post post' : str),
  m ++ post = g ++ post' -> List.length m = List.length g -> m = g.
Proof.
  induction g as [|c g IH]; intros [|x m] post post' E L; simpl in *;
    try discriminate; [reflexivity|].
  injection E as -> E. f_equal. apply (IH m post post' E). lia.
Qed.

Lemma search_literal : forall m,
  numeric_literal m -> search NUMERIC_PATTERN m = Some m.
Proof.
  intros m Hm. rewrite search_eq, match_at_numeric.
  destruct (numeric_prefix_longest m [] Hm) as [g [Eg Hle]].
  rewrite app_nil_r in Eg. rewrite Eg.
  destruct (numeric_prefix_literal _ _ Eg) as [[post Hp] _].
  f_equal. symmetry. apply (prefix_same_length g m [] post).
  - now rewrite app_nil_r.
  - apply (f_equal (@List.length char)) in Hp. rewrite length_app in Hp. lia.
Qed.

Lemma parse_literal : forall raw m d,
  sanitize raw = m -> literal_value m d ->
  parse_decimal_from_text (Some raw) = Some d.
Proof.
  intros raw m d Hs Hl. unfold parse_decimal_from_text.
  rewrite Hs, search_literal by (now exists d).
  now rewrite (Decimal_of_literal m d Hl).
Qed.

(** ** Sanitization *)

Lemma replace_char : forall c s,
  replace [c] [] s = filter (fun x => negb (N.eqb c x)) s.
Proof.
  intros c s. unfold replace. induction s as [|x s IH]; simpl; [reflexivity|].
  destruct (N.eqb c x); simpl; now rewrite IH.
Qed.

Lemma replace_from_skip : forall old new k s,
  replace_from old new k s = replace_from old new 0 (skipn k s).
Proof.
  intros old new k. induction k as [|k IH]; intros [|c s]; simpl; try reflexivity.
  apply IH.
Qed.

Lemma replace_absent_head : forall c old new s,
  Forall (fun x => N.eqb c x = false) s ->
  replace (c :: old) new s = s.
Proof.
  intros c old new s H. unfold replace.
  induction H as [|x s Hx _ IH]; simpl; [reflexivity|].
  rewrite Hx. simpl. now rewrite IH.
Qed.

Lemma replace_app_absent_head : forall c old new a s,
  Forall (fun x => N.eqb c x = false) a ->
  replace (c :: old) new (a ++ s) = a ++ replace (c :: old) new s.
Proof.
  intros c old new a s H. unfold replace.
  induction H as [|x a Hx _ IH]; simpl; [reflexivity|].
  rewrite Hx. simpl. now rewrite IH.
Qed.

(** Comparisons of code points that the context settles. *)
Ltac settle_comparisons :=
  repeat match goal with
  | |- context [N.leb ?a ?b] =>
      first [ replace (N.leb a b) with true by (symmetry; apply N.leb_le; lia)
            | replace (N.leb a b) with false by (symmetry; apply N.leb_gt; lia) ]
  | |- context [N.eqb ?a ?b] =>
      first [ replace (N.eqb a b) with true by (symmetry; apply N.eqb_eq; lia)
            | replace (N.eqb a b) with false by (symmetry; apply N.eqb_neq; lia) ]
  | |- context [N.ltb ?a ?b] =>
      first [ replace (N.ltb a b) with true by (symmetry; apply N.ltb_lt; lia)
            | replace (N.ltb a b) with false by (symmetry; apply N.ltb_ge; lia) ]
  end.

Lemma decimal_value_ascii_digit : forall c,
  (48 <= c <= 57)%N -> decimal_value c = Some (c - 48)%N.
Proof.
  intros c H. unfold decimal_value. settle_comparisons. reflexivity.
Qed.

Lemma decimal_value_lt : forall c d, decimal_value c = Some d -> (d < 10)%N.
Proof.
  intros c d. unfold decimal_value.
  destruct (N.ltb_spec c 128).
  - destruct (N.leb_spec 48 c), (N.leb_spec c 57); simpl; try discriminate.
    intros E. injection E as <-. lia.
  - destruct (isspace c); [discriminate|].
    destruct (unicode_decimal c) as [d'|]; [|discriminate].
    destruct (N.ltb_spec d' 10); [|discriminate].
    intros E. injection E as <-. assumption.
Qed.

Lemma digit_not_space : forall c, isdigit c = true -> isspace c = false.
Proof.
  intros c. unfold isdigit, decimal_value.
  destruct (N.ltb_spec c 128).
  - destruct (N.leb_spec 48 c), (N.leb_spec c 57); simpl; try discriminate.
    intros _. unfold isspace. settle_comparisons. reflexivity.
  - destruct (isspace c); [discriminate|reflexivity].
Qed.

Lemma digit_not : forall c x, isdigit x = false -> forall y, isdigit y = true ->
  c = x -> N.eqb c y = false.
Proof.
  intros c x Hx y Hy ->. destruct (N.eqb x y) eqn:E; [|reflexivity].
  apply N.eqb_eq in E. congruence.
Qed.

Lemma all_digits_not : forall x s, isdigit x = false -> all_digits s ->
  Forall (fun y => N.eqb x y = false) s.
Proof.
  intros x s Hx H. induction H as [|y s Hy _ IH]; constructor; [|exact IH].
  now apply (digit_not x x Hx y Hy).
Qed.

Lemma all_digits_app : forall a b, all_digits a -> all_digits b -> all_digits (a ++ b).
Proof. intros a b Ha Hb. apply Forall_app. now split. Qed.

Lemma filter_keep_all : forall (f : char -> bool) s,
  Forall (fun x => f x = true) s -> filter f s = s.
Proof.
  intros f s H. induction H as [|x s Hx _ IH]; simpl; [reflexivity|].
  now rewrite Hx, IH.
Qed.

Lemma remove_char_digits : forall x s, isdigit x = false -> all_digits s ->
  replace [x] [] s = s.
Proof.
  intros x s Hx H. rewrite replace_char. apply filter_keep_all.
  pose proof (all_digits_not x s Hx H) as H'.
  induction H' as [|y s Hy _ IH]; constructor.
  - now rewrite Hy.
  - apply IH. now inversion H.
Qed.

Lemma dropwhile_head_stop : forall p s,
  match s with c :: _ => p c = false | [] => True end -> dropwhile p s = s.
Proof. intros p [|c s] H; simpl; [reflexivity | now rewrite H]. Qed.

Lemma strip_id : forall s,
  edge_not_space s -> edge_not_space (rev s) -> strip s = s.
Proof.
  intros s H1 H2. unfold strip, lstrip, rstrip.
  rewrite (dropwhile_head_stop isspace s H1).
  rewrite (dropwhile_head_stop isspace (rev s) H2). apply rev_involutive.
Qed.

Lemma all_digits_rev : forall s, all_digits s -> all_digits (rev s).
Proof. intros s H. now apply Forall_rev. Qed.

Lemma all_digits_edge : forall s, all_digits s -> edge_not_space s.
Proof.
  intros [|c s] H; simpl; [exact I|]. inversion H. now apply digit_not_space.
Qed.

Lemma strip_digits : forall s, all_digits s -> strip s = s.
Proof.
  intros s H. apply strip_id; apply all_digits_edge; [|apply all_digits_rev]; exact H.
Qed.

Lemma keep_digits : forall x s, isdigit x = false -> all_digits s ->
  Forall (fun y => negb (N.eqb x y) = true) s.
Proof.
  intros x s Hx H. pose proof (all_digits_not x s Hx H) as H'.
  induction H' as [|y s Hy _ IH]; constructor.
  - now rewrite Hy.
  - apply IH. now inversion H.
Qed.

Lemma remove_char_joined : forall x tok a b,
  isdigit x = false -> all_digits a -> all_digits b ->
  replace [x] [] (a ++ tok ++ b) = a ++ replace [x] [] tok ++ b.
Proof.
  intros x tok a b Hx Ha Hb. rewrite !replace_char, !filter_app.
  now rewrite !(filter_keep_all _ _ (keep_digits x _ Hx Ha)),
              !(filter_keep_all _ _ (keep_digits x _ Hx Hb)).
Qed.

Lemma remove_USD_joined : forall a b,
  all_digits a -> all_digits b ->
  replace (chars "USD") [] (a ++ chars "USD" ++ b) = a ++ b.
Proof.
  intros a b Ha Hb.
  change (chars "USD") with ("U"%ch :: chars "SD") at 1.
  rewrite replace_app_absent_head
    by (apply all_digits_not; [reflexivity | exact Ha]).
  f_equal. unfold replace. cbn.
  apply (replace_absent_head "U"%ch (chars "SD") [] b).
  apply all_digits_not; [reflexivity | exact Hb].
Qed.

Lemma sanitize_digits : forall s, all_digits s -> sanitize s = s.
Proof.
  intros s H. unfold sanitize.
  change (chars ",") with [","%ch]. change (chars "$") with ["$"%ch].
  rewrite (remove_char_digits ","%ch s), (remove_char_digits "$"%ch s)
    by (reflexivity || exact H).
  change (chars "USD") with ("U"%ch :: chars "SD").
  rewrite replace_absent_head by (apply all_digits_not; [reflexivity | exact H]).
  now apply strip_digits.
Qed.

Lemma sanitize_joined : forall tok a b,
  tok = chars "," \/ tok = chars "$" \/ tok = chars "USD" ->
  all_digits a -> all_digits b -> sanitize (a ++ tok ++ b) = a ++ b.
Proof.
  intros tok a b Ht Ha Hb.
  pose proof (all_digits_app a b Ha Hb) as Hab.
  unfold sanitize.
  change (chars ",") with [","%ch]. change (chars "$") with ["$"%ch].
  rewrite (remove_char_joined ","%ch tok a b) by (reflexivity || assumption).
  rewrite (remove_char_joined "$"%ch _ a b) by (reflexivity || assumption).
  destruct Ht as [-> | [-> | ->]]; cbn [replace replace_from chars
    list_ascii_of_string starts_with N.eqb Bool.eqb andb app List.length Nat.sub].
  - change (chars "USD") with ("U"%ch :: chars "SD").
    rewrite replace_absent_head
      by (apply all_digits_not; [reflexivity | exact Hab]).
    now apply strip_digits.
  - change (chars "USD") with ("U"%ch :: chars "SD").
    rewrite replace_absent_head
      by (apply all_digits_not; [reflexivity | exact Hab]).
    now apply strip_digits.
  - change ("U"%ch :: "S"%ch :: "D"%ch :: b) with (chars "USD" ++ b).
    change ["U"%ch; "S"%ch; "D"%ch] with (chars "USD").
    rewrite remove_USD_joined by assumption.
    now apply strip_digits.
Qed.

Lemma digits_literal : forall s, s <> [] -> all_digits s ->
  literal_value s (mkDecimal false (int_of_digits s) 0).
Proof. intros s Hn Hd. now apply (IntegerLiteral false). Qed.

Lemma In_dropwhile : forall p (x : char) s, In x (dropwhile p s) -> In x s.
Proof.
  induction s as [|c s IH]; simpl; [tauto|].
  destruct (p c); simpl; intros H; [right; now apply IH | exact H].
Qed.

Lemma In_strip : forall x s, In x (strip s) -> In x s.
Proof.
  intros x s H. unfold strip, rstrip, lstrip in H.
  rewrite <- in_rev in H. apply In_dropwhile in H.
  rewrite <- in_rev in H. now apply In_dropwhile in H.
Qed.

Lemma In_replace_del : forall old x s k,
  In x (replace_from old [] k s) -> In x s.
Proof.
  induction s as [|c s IH]; intros k; simpl; [tauto|].
  destruct k as [|k].
  - destruct (starts_with old (c :: s)); simpl.
    + intros H. right. now apply IH in H.
    + intros [H|H]; [now left | right; now apply IH in H].
  - intros H. right. now apply IH in H.
Qed.

Lemma sanitize_no_char : forall x raw,
  x = ","%ch \/ x = "$"%ch -> ~ In x (sanitize raw).
Proof.
  intros x raw Hx H. unfold sanitize in H.
  apply In_strip, In_replace_del in H.
  change (chars "$") with ["$"%ch] in H. change (chars ",") with [","%ch] in H.
  rewrite replace_char in H. apply filter_In in H. destruct H as [H H1].
  destruct Hx as [-> | ->]; [|discriminate H1].
  rewrite replace_char in H. apply filter_In in H. destruct H as [_ H]. discriminate H.
Qed.

Lemma starts_with_USD_app : forall c a b,
  starts_with (chars "USD") ((c :: a) ++ chars "USD" ++ b)
  = starts_with (chars "USD") (c :: a).
Proof.
  intros c [|y [|z r]] b; cbn.
  - destruct (N.eqb "U"%ch c); reflexivity.
  - destruct (N.eqb "U"%ch c), (N.eqb "S"%ch y); reflexivity.
  - reflexivity.
Qed.

Lemma starts_with_length : forall p s,
  starts_with p s = true -> (List.length p <= List.length s)%nat.
Proof.
  induction p as [|x p IH]; intros [|y s]; simpl; try lia; try discriminate.
  intros H. apply andb_true_iff in H. destruct H as [_ H]. apply IH in H. lia.
Qed.

Lemma remove_USD_split : forall a b k,
  (k <= List.length a)%nat ->
  replace_from (chars "USD") [] k (a ++ chars "USD" ++ b)
  = replace_from (chars "USD") [] k a ++ replace (chars "USD") [] b.
Proof.
  induction a as [|c a IH]; intros b k Hk.
  - simpl in Hk. replace k with 0%nat by lia. reflexivity.
  - destruct k as [|k].
    + cbn [replace_from app]. 
      change (c :: a ++ chars "USD" ++ b) with ((c :: a) ++ chars "USD" ++ b).
      rewrite starts_with_USD_app.
      destruct (starts_with (chars "USD") (c :: a)) eqn:E.
      * apply starts_with_length in E. cbn in E.
        cbn [app]. apply IH. cbn. lia.
      * cbn [app]. f_equal. apply IH. lia.
    + cbn [replace_from app]. apply IH. simpl in Hk. lia.
Qed.

(** C1. The Numeric Text Parser returns the decimal denoted by the first
    substring of the sanitized text that is a numeric literal (an optional
    minus sign, digits, optionally a point and more digits): the leftmost
    one, taken as long as it goes.  When no substring is one it returns
    the absent value, as it does on absent input; it is a total function,
    so it never raises, and a result is always read off an actual match.
    ["$12,345.50 USD"] gives 12345.50 and ["N/A"] gives nothing.  The
    digits are those of Unicode: where the database has the Arabic-Indic
    digit three (U+0663), the text of "1" and that digit gives 13. *)
Theorem parse_decimal_from_text_first_match :
  parse_decimal_from_text None = None /\
  (forall raw,
     match parse_decimal_from_text (Some raw) with
     | Some d => exists m, first_match (sanitize raw) m /\ literal_value m d
     | None => no_match (sanitize raw)
     end) /\
  parse_decimal_from_text (Some (chars "$12,345.50 USD"))
    = Some (mkDecimal false 1234550 (-2)) /\
  parse_decimal_from_text (Some (chars "-3,000"))
    = Some (mkDecimal true 3000 0) /\
  parse_decimal_from_text (Some (chars "N/A")) = None /\
  parse_decimal_from_text (Some []) = None /\
  (unicode_decimal 1635%N = Some 3%N ->
   parse_decimal_from_text (Some ["1"%ch; 1635%N])
     = Some (mkDecimal false 13 0)).
Proof.
  split; [reflexivity|].
  split; [|do 4 (split; [vm_compute; reflexivity|])].
  - intros raw. unfold parse_decimal_from_text.
    destruct (search NUMERIC_PATTERN (sanitize raw)) as [m|] eqn:Es.
    + pose proof (search_numeric_some _ _ Es) as Hf.
      destruct Hf as [pre [post [Hs [[d Hl] Hmin]]]].
      rewrite (Decimal_of_literal m d Hl).
      exists m. split; [|exact Hl].
      exists pre, post. split; [exact Hs|]. split; [now exists d | exact Hmin].
    + now apply search_numeric_none.
  - intros H.
    assert (Hd : decimal_value 1635%N = Some 3%N).
    { unfold decimal_value. change (1635 <? 128)%N with false.
      change (isspace 1635%N) with false. cbv iota. now rewrite H. }
    assert (Ha : all_digits ["1"%ch; 1635%N]).
    { constructor; [reflexivity|]. constructor; [|constructor].
      unfold isdigit. now rewrite Hd. }
    apply (parse_literal _ ["1"%ch; 1635%N]); [now apply sanitize_digits|].
    replace 13%N with (int_of_digits ["1"%ch; 1635%N]).
    + apply (IntegerLiteral false); [discriminate | exact Ha].
    + unfold int_of_digits. cbn [fold_left]. unfold digit_val.
      rewrite Hd. reflexivity.
Qed.

(** C9. Each of the three removals deletes every occurrence of its token,
    wherever it stands, and the sanitized text holds no comma and no
    dollar sign; so two digit groups joined only by one of the tokens are
    read as one number: ["3USD4"] parses to 34 and ["5$6"] to 56. *)
Theorem sanitization_merges_digit_groups :
  (forall a b,
     replace (chars ",") [] (a ++ chars "," ++ b)
       = replace (chars ",") [] a ++ replace (chars ",") [] b /\
     replace (chars "$") [] (a ++ chars "$" ++ b)
       = replace (chars "$") [] a ++ replace (chars "$") [] b /\
     replace (chars "USD") [] (a ++ chars "USD" ++ b)
       = replace (chars "USD") [] a ++ replace (chars "USD") [] b) /\
  (forall raw, ~ In ","%ch (sanitize raw) /\ ~ In "$"%ch (sanitize raw)) /\
  (forall tok a b,
     tok = chars "," \/ tok = chars "$" \/ tok = chars "USD" ->
     a <> [] -> all_digits a -> all_digits b ->
     parse_decimal_from_text (Some (a ++ tok ++ b))
       = Some (mkDecimal false (int_of_digits (a ++ b)) 0)) /\
  parse_decimal_from_text (Some (chars "3USD4")) = Some (mkDecimal false 34 0) /\
  parse_decimal_from_text (Some (chars "5$6")) = Some (mkDecimal false 56 0).
Proof.
  split; [|split; [|split; [|split; reflexivity]]].
  - intros a b. repeat split.
    + change (chars ",") with [","%ch]. rewrite !replace_char, !filter_app.
      reflexivity.
    + change (chars "$") with ["$"%ch]. rewrite !replace_char, !filter_app.
      reflexivity.
    + apply remove_USD_split. lia.
  - intros raw. split; apply sanitize_no_char; auto.
  - intros tok a b Ht Hn Ha Hb.
    apply (parse_literal _ (a ++ b)).
    + now apply sanitize_joined.
    + apply digits_literal; [|now apply all_digits_app].
      destruct a; [congruence|discriminate].
Qed.

(** ** The position builder *)

Lemma str_eqb_eq : forall a b, str_eqb a b = true <-> a = b.
Proof.
  induction a as [|x a IH]; intros [|y b]; simpl; split; try congruence;
    try discriminate.
  - intros H. apply andb_true_iff in H. destruct H as [H1 H2].
    apply N.eqb_eq in H1. apply IH in H2. congruence.
  - intros H. injection H as -> ->. rewrite N.eqb_refl. now apply IH.
Qed.

Lemma build_positions_emitted : forall raw_rows positions,
  build_positions raw_rows positions = positions ++ flat_map emitted raw_rows.
Proof.
  induction raw_rows as [|row rest IH]; intros positions; simpl.
  - now rewrite app_nil_r.
  - unfold emitted at 1. destruct (build_row row) as [p|]; rewrite IH.
    + now rewrite <- app_assoc.
    + reflexivity.
Qed.

Lemma firstn4_pad4 : forall l,
  firstn 4 (pad4 l) = [nth 0 l []; nth 1 l []; nth 2 l []; nth 3 l []].
Proof. intros [|a [|b [|c [|d l]]]]; reflexivity. Qed.

Lemma nth_map_strip : forall i row, nth i (map strip row) [] = cell row i.
Proof. intros i row. unfold cell. now rewrite <- (map_nth strip row [] i). Qed.

Lemma build_row_eq : forall row,
  build_row row =
  if str_eqb (upper (cell row 0)) (chars "COIN") then None
  else
    match parse_decimal_from_text (Some (cell row 2)),
          parse_decimal_from_text (Some (cell row 3)) with
    | Some sv, Some mv =>
        if nonempty (cell row 0)
        then Some (mkPosition (cell row 0) (cell row 1) sv mv) else None
    | _, _ => None
    end.
Proof.
  intros [|c rest].
  - reflexivity.
  - unfold build_row. rewrite firstn4_pad4, !nth_map_strip. reflexivity.
Qed.

Lemma build_row_iff : forall row p,
  build_row row = Some p <->
  upper (cell row 0) <> chars "COIN" /\
  cell row 0 <> [] /\
  coin p = cell row 0 /\
  leverage p = cell row 1 /\
  parse_decimal_from_text (Some (cell row 2)) = Some (size p) /\
  parse_decimal_from_text (Some (cell row 3)) = Some (mark_price p).
Proof.
  intros row p. rewrite build_row_eq.
  destruct (str_eqb (upper (cell row 0)) (chars "COIN")) eqn:Eh.
  - apply str_eqb_eq in Eh. split; [discriminate | tauto].
  - assert (Hh : upper (cell row 0) <> chars "COIN").
    { intros E. apply str_eqb_eq in E. congruence. }
    destruct (parse_decimal_from_text (Some (cell row 2))) as [sv|];
      [|split; [discriminate | intros (_ & _ & _ & _ & H & _); discriminate]].
    destruct (parse_decimal_from_text (Some (cell row 3))) as [mv|];
      [|split; [discriminate | intros (_ & _ & _ & _ & _ & H); discriminate]].
    destruct (nonempty (cell row 0)) eqn:En.
    + apply nonempty_true in En. split.
      * intros H. injection H as <-. simpl. tauto.
      * intros (_ & _ & H1 & H2 & H3 & H4). destruct p as [c l s m]. simpl in *.
        congruence.
    + split; [discriminate|]. intros (_ & H & _).
      destruct (cell row 0); [congruence | discriminate].
Qed.

(** C2, as amended.  The builder emits a position for a row exactly when
    the trimmed first cell is not empty and does not read COIN once
    upper-cased, and the third and fourth cells parse; a missing cell
    counts as the empty string and cells beyond the fourth are not read.
    The position carries the trimmed first and second cells and the two
    parsed decimals, nothing defaulted.  The output is the rows' positions
    in the order of the rows, the other rows dropped in place.  Trimming
    and upper-casing are those of Unicode: where the capital of the
    dotless i (U+0131) is I, a row whose first cell is "coin" written with
    it, between two no-break spaces, is dropped. *)
Theorem build_positions_in_order :
  (forall raw_rows, build_positions raw_rows [] = flat_map emitted raw_rows) /\
  (forall row, emitted row = [] \/ exists p, emitted row = [p]) /\
  (forall row p,
     emitted row = [p] <->
     upper (cell row 0) <> chars "COIN" /\
     cell row 0 <> [] /\
     coin p = cell row 0 /\
     leverage p = cell row 1 /\
     parse_decimal_from_text (Some (cell row 2)) = Some (size p) /\
     parse_decimal_from_text (Some (cell row 3)) = Some (mark_price p)) /\
  (forall row i, (List.length row <= i)%nat -> cell row i = []) /\
  (unicode_upper 305%N = ["I"%ch] ->
   emitted [160%N :: chars "co" ++ 305%N :: chars "n" ++ [160%N];
            chars "5x"; chars "2.5"; chars "60000"] = []).
Proof.
  split; [|split; [|split; [|split]]].
  - intros raw_rows. apply (build_positions_emitted raw_rows []).
  - intros row. unfold emitted. destruct (build_row row) as [p|]; eauto.
  - intros row p. rewrite <- build_row_iff. unfold emitted.
    destruct (build_row row) as [q|]; split; congruence.
  - intros row i H. unfold cell. now rewrite nth_overflow.
  - intros H. unfold emitted. rewrite build_row_eq.
    set (row := [160%N :: chars "co" ++ 305%N :: chars "n" ++ [160%N];
                 chars "5x"; chars "2.5"; chars "60000"]).
    assert (E : upper (cell row 0) = chars "COIN").
    { unfold cell, row. cbn [nth].
      replace (strip (160%N :: chars "co" ++ 305%N :: chars "n" ++ [160%N]))
        with ["c"%ch; "o"%ch; 305%N; "n"%ch] by (vm_compute; reflexivity).
      unfold upper. cbn [flat_map].
      replace (upper_char 305%N) with ["I"%ch]
        by (unfold upper_char; change (305 <? 128)%N with false; cbv iota;
            now rewrite H).
      vm_compute. reflexivity. }
    rewrite E. reflexivity.
Qed.

Lemma build_positions_example :
  build_positions [[chars "BTC"; chars "5x"; chars "2.5"; chars "60000"];
                   [chars "ETH"; chars "10x"]] []
  = [mkPosition (chars "BTC") (chars "5x")
                (mkDecimal false 25 (-1)) (mkDecimal false 60000 0)].
Proof. reflexivity. Qed.

(** C7. A row whose first cell, trimmed and upper-cased as [str.strip]
    and [str.upper] do, reads COIN contributes nothing to the output,
    whatever its other cells hold: the builder's result is the one for
    the rows around it. *)
Theorem header_row_excluded : forall before first others after,
  upper (strip first) = chars "COIN" ->
  build_positions (before ++ (first :: others) :: after) []
  = build_positions (before ++ after) [].
Proof.
  intros before first others after H.
  rewrite !build_positions_emitted, !flat_map_app. simpl.
  unfold emitted at 2. rewrite build_row_eq. unfold cell at 1. simpl nth.
  rewrite H. reflexivity.
Qed.

(** ** The row collector *)

Lemma collect_rows_texts : forall row_elems rows,
  collect_rows row_elems rows = rows ++ row_texts row_elems.
Proof.
  induction row_elems as [|row rest IH]; intros rows; simpl.
  - now rewrite app_nil_r.
  - unfold row_texts. simpl.
    destruct (List.length (row_cells row) =? 0)%nat; simpl; rewrite IH.
    + reflexivity.
    + now rewrite <- app_assoc.
Qed.

Lemma row_texts_nil : row_texts [] = [].
Proof. reflexivity. Qed.

Lemma collect_from_cons : forall t sel rest,
  collect_from t (sel :: rest) =
  match row_texts (t sel) with
  | [] => collect_from t rest
  | rows => rows
  end.
Proof.
  intros t sel rest. simpl. rewrite collect_rows_texts. simpl.
  destruct (t sel) as [|r l] eqn:E; simpl; reflexivity.
Qed.

(** C6, as amended.  The collector tries the three selectors in order
    and returns the rows of the first one that has a row with cells:
    all of that selector's rows with cells, each cell trimmed, and no row
    of another selector.  A selector whose rows all lack cells is passed
    over like one without rows.  When no selector has a row with cells
    the result is the empty sequence. *)
Theorem collect_table_rows_first_with_cells : forall t : table,
  collect_table_rows t =
  match row_texts (t TbodyTr), row_texts (t Tr) with
  | _ :: _, _ => row_texts (t TbodyTr)
  | [], _ :: _ => row_texts (t Tr)
  | [], [] => row_texts (t RoleRow)
  end.
Proof.
  intros t. unfold collect_table_rows, search_order.
  rewrite !collect_from_cons. simpl.
  destruct (row_texts (t TbodyTr)); [|reflexivity].
  destruct (row_texts (t Tr)); [|reflexivity].
  destruct (row_texts (t RoleRow)); reflexivity.
Qed.

(** C6 as stated fails when the first selector with rows has only rows
    without cells: its own row set is empty, and the collector returns
    the rows of the next selector instead. *)
Lemma collector_passes_over_cell_less_rows :
  let t := fun sel =>
    match sel with
    | TbodyTr => [mkRow [] []]
    | Tr => [mkRow [] []; mkRow [chars " BTC "; chars "5x"] []]
    | RoleRow => []
    end in
  List.length (t TbodyTr) = 1%nat /\
  row_texts (t TbodyTr) = [] /\
  collect_table_rows t = [[chars "BTC"; chars "5x"]].
Proof. cbv zeta. repeat split; reflexivity. Qed.

(** ** The status message *)

Lemma select_then_debug : forall threshold positions l,
  select_exceeding threshold positions = inr l ->
  exists lines, debug_lines positions = inr lines.
Proof.
  induction positions as [|pos rest IH]; intros l H; simpl in *.
  - now exists [].
  - unfold debug_line. unfold absolute_position_value in *.
    destruct (position_value pos) as [e|v]; simpl in *; [discriminate|].
    destruct (select_exceeding threshold rest) as [e|tail]; simpl in *;
      [discriminate|].
    destruct (IH tail eq_refl) as [lines ->]. simpl. eauto.
Qed.

(** C10. The status body is one fixed text, with a backslash before the
    dollar sign and the amount 50,000 written out; [main] delivers it,
    under the status subject, whenever no position is selected, whatever
    the threshold is. *)
Theorem no_alert_body_is_fixed :
  build_no_alert_body
    = chars "No coin exceeds the " ++ [92%N] ++
      chars "$50,000 position value threshold." /\
  (forall threshold positions,
     select_exceeding threshold positions = inr [] ->
     compose threshold positions
       = inr (chars "Hyperliquid PERP Position Status", build_no_alert_body)) /\
  main_message [pos_minus_40000; pos_50000] =
    inr (chars "Hyperliquid PERP Position Status",
         chars "No coin exceeds the \$50,000 position value threshold.") /\
  compose (mkDecimal false 100000 0) [pos_60000; pos_minus_70000] =
    inr (chars "Hyperliquid PERP Position Status",
         chars "No coin exceeds the \$50,000 position value threshold.").
Proof.
  split; [vm_compute; reflexivity|].
  split; [|split; vm_compute; reflexivity].
  intros threshold positions H. unfold compose.
  destruct (select_then_debug threshold positions [] H) as [lines ->].
  simpl. rewrite H. reflexivity.
Qed.

(** ** The polling loop *)

Section WaitingFacts.

Variables Locator exn : Type.
Implicit Types (pg : page Locator exn) (p : poll Locator exn).

Lemma probe_found : forall (count : selector -> exn + nat) order le,
  fst (probe count order le) = true <->
  exists sel n, In sel order /\ count sel = inr n /\ (0 < n)%nat.
Proof.
  intros count order. induction order as [|sel rest IH]; intros le; simpl.
  - split; [discriminate | intros (s & n & [] & _)].
  - destruct (count sel) as [exc|n] eqn:E; simpl.
    + rewrite IH. split.
      * intros (s & n & H & H'). exists s, n. tauto.
      * intros (s & n & [<-|H] & H1 & H2); [congruence|].
        exists s, n. tauto.
    + destruct (0 <? n)%nat eqn:En; simpl.
      * split; [intros _|reflexivity]. exists sel, n.
        apply Nat.ltb_lt in En. tauto.
      * rewrite IH. apply Nat.ltb_ge in En. split.
        -- intros (s & m & H & H'). exists s, m. tauto.
        -- intros (s & m & [<-|H] & H1 & H2).
           ++ assert (m = n) by congruence. lia.
           ++ exists s, m. tauto.
Qed.

(** What the loop over the three selectors leaves as the last error
    when none of them counts a row. *)
Lemma probe_all : forall (count : selector -> exn + nat) le,
  fst (probe count search_order le) = false ->
  snd (probe count search_order le) =
  match count RoleRow with
  | inl e => Some e
  | inr _ =>
      match count Tr with
      | inl e => Some e
      | inr _ =>
          match count TbodyTr with
          | inl e => Some e
          | inr _ => le
          end
      end
  end.
Proof.
  intros count le. unfold search_order. cbn [probe].
  destruct (count TbodyTr) as [e1|[|n1]]; cbn [Nat.ltb Nat.leb fst snd];
    try discriminate;
    (destruct (count Tr) as [e2|[|n2]]; cbn [Nat.ltb Nat.leb fst snd];
     try discriminate);
    (destruct (count RoleRow) as [e3|[|n3]]; cbn [Nat.ltb Nat.leb fst snd];
     try discriminate);
    reflexivity.
Qed.

Lemma clock_lower : forall pg k,
  ticking pg -> (1 <= k)%nat ->
  (clock pg 0 + Z.of_nat (k - 1) * ROW_POLL_INTERVAL_MS <= clock pg k)%Z.
Proof.
  intros pg k [H0 H] Hk. induction k as [|k IH]; [lia|].
  destruct k as [|k]; [simpl; lia|].
  specialize (IH ltac:(lia)). specialize (H (S k) ltac:(lia)).
  replace (S (S k) - 1)%nat with (S (S k - 1))%nat by lia.
  unfold ROW_POLL_INTERVAL_MS in *. lia.
Qed.

Lemma clock_mono : forall pg j k,
  ticking pg -> (1 <= j <= k)%nat -> (clock pg j <= clock pg k)%Z.
Proof.
  intros pg j k [_ H] [Hj Hk]. induction Hk as [|k Hk IH]; [lia|].
  specialize (H k ltac:(lia)). unfold ROW_POLL_INTERVAL_MS in H. lia.
Qed.

Lemma before_deadline_bound : forall pg k,
  ticking pg -> (1 <= k)%nat -> (clock pg k < deadline_of pg)%Z ->
  (k <= 30)%nat.
Proof.
  intros pg k Ht Hk H. pose proof (clock_lower pg k Ht Hk) as L.
  unfold deadline_of, TABLE_WAIT_SECONDS, ROW_POLL_INTERVAL_MS in *. lia.
Qed.

Lemma last_before_quiet : forall pg a le,
  last_before pg a le ->
  (forall sel e, ~ raised_at pg a sel e) ->
  last_before pg (S a) le.
Proof.
  intros pg a [e|] H Hq; simpl in *.
  - destruct H as (k & sel & Hk & Hr & Hmax). exists k, sel.
    split; [lia|]. split; [exact Hr|].
    intros k' sel' e' Hk' Hr'. destruct (Nat.eq_dec k' a) as [->|Hne].
    + exfalso. exact (Hq _ _ Hr').
    + apply (Hmax k' sel' e'); [lia | exact Hr'].
  - intros k sel e Hk Hr. destruct (Nat.eq_dec k a) as [->|Hne].
    + exfalso. exact (Hq _ _ Hr).
    + apply (H k sel e); [lia | exact Hr].
Qed.

Lemma last_before_raise : forall pg a sel e,
  raised_at pg a sel e ->
  (forall sel' e', raised_at pg a sel' e' ->
                   (sel_rank sel' <= sel_rank sel)%nat) ->
  last_before pg (S a) (Some e).
Proof.
  intros pg a sel e Hr Hmax. simpl. exists a, sel.
  split; [lia|]. split; [exact Hr|].
  intros k' sel' e' Hk' Hr'. destruct (Nat.eq_dec k' a) as [->|Hne].
  - right. split; [reflexivity | now apply (Hmax sel' e')].
  - left. lia.
Qed.

Lemma wait_loop_step_not_ready : forall fuel pg a w le,
  (1 <= a)%nat -> (clock pg a < deadline_of pg)%Z ->
  retries (polls pg a) -> last_before pg a le ->
  exists le',
    wait_loop (S fuel) pg (deadline_of pg) a w le
      = wait_loop fuel pg (deadline_of pg) (S a) (S w) le' /\
    last_before pg (S a) le'.
Proof.
  intros fuel pg a w le Ha Hc [Hn Hw] Hle. cbn [wait_loop].
  pose proof Hc as Hc'. apply Z.ltb_lt in Hc'. rewrite Hc', Hw.
  destruct Hn as [El | [[t El] Hn]]; rewrite El.
  - exists le. split; [reflexivity|].
    apply last_before_quiet; [exact Hle|].
    intros sel e (_ & _ & [t H] & _). congruence.
  - destruct (probe (row_count (polls pg a)) search_order le)
      as [found le'] eqn:Ep.
    assert (Hf : found = false).
    { destruct found; [|reflexivity]. exfalso. apply Hn.
      apply (proj1 (probe_found _ search_order le)). now rewrite Ep. }
    subst found. exists le'. split; [reflexivity|].
    pose proof (probe_all (row_count (polls pg a)) le) as Hp.
    rewrite Ep in Hp. simpl in Hp. specialize (Hp eq_refl). subst le'.
    assert (Hat : forall sel e, row_count (polls pg a) sel = inl e ->
                                raised_at pg a sel e).
    { intros sel e H. split; [exact Ha|]. split; [exact Hc|].
      split; [now exists t | exact H]. }
    destruct (row_count (polls pg a) RoleRow) as [e3|n3] eqn:E3.
    { apply (last_before_raise pg a RoleRow e3); [now apply Hat|].
      intros sel' e' _. destruct sel'; simpl; lia. }
    destruct (row_count (polls pg a) Tr) as [e2|n2] eqn:E2.
    { apply (last_before_raise pg a Tr e2); [now apply Hat|].
      intros sel' e' (_ & _ & _ & H). destruct sel'; simpl; try lia.
      congruence. }
    destruct (row_count (polls pg a) TbodyTr) as [e1|n1] eqn:E1.
    { apply (last_before_raise pg a TbodyTr e1); [now apply Hat|].
      intros sel' e' (_ & _ & _ & H). destruct sel'; simpl; try lia;
        congruence. }
    apply last_before_quiet; [exact Hle|].
    intros sel e (_ & _ & _ & H). destruct sel; congruence.
Qed.

(** A pass that is not ready probes without finding rows. *)
Lemma not_ready_probe : forall p le t,
  located p = inr (Some t) -> not_ready p ->
  fst (probe (row_count p) search_order le) = false.
Proof.
  intros p le t El [Hn | [_ Hn]]; [congruence|].
  destruct (fst (probe (row_count p) search_order le)) eqn:E; [|reflexivity].
  exfalso. apply Hn. now apply (proj1 (probe_found _ search_order le)).
Qed.

Lemma wait_loop_skip : forall fuel pg d a w le,
  (clock pg a < d)%Z -> retries (polls pg a) ->
  exists le',
    wait_loop (S fuel) pg d a w le = wait_loop fuel pg d (S a) (S w) le'.
Proof.
  intros fuel pg d a w le Hc [Hn Hw]. cbn [wait_loop].
  apply Z.ltb_lt in Hc. rewrite Hc, Hw.
  destruct (located (polls pg a)) as [exc|[t|]] eqn:El.
  - destruct Hn as [Hn | [[t Hn] _]]; congruence.
  - pose proof (not_ready_probe (polls pg a) le t El Hn) as Hp.
    destruct (probe (row_count (polls pg a)) search_order le)
      as [found le'] eqn:Ep.
    simpl in Hp. subst found. now exists le'.
  - now exists le.
Qed.

Lemma wait_loop_returns : forall n fuel pg d a w le t,
  (n < fuel)%nat ->
  (forall k, (a <= k <= a + n)%nat -> (clock pg k < d)%Z) ->
  (forall k, (a <= k < a + n)%nat -> retries (polls pg k)) ->
  located (polls pg (a + n)) = inr (Some t) ->
  has_rows (row_count (polls pg (a + n))) ->
  wait_loop fuel pg d a w le = Returned t (a + n) (w + n).
Proof.
  induction n as [|n IH]; intros fuel pg d a w le t Hf Hc Hn Hl Hr.
  - destruct fuel as [|fuel]; [lia|]. rewrite Nat.add_0_r in *.
    cbn [wait_loop].
    specialize (Hc a ltac:(lia)). apply Z.ltb_lt in Hc. rewrite Hc, Hl.
    destruct (probe (row_count (polls pg a)) search_order le) as [found le'] eqn:Ep.
    assert (found = true) as ->.
    { change found with (fst (found, le')). rewrite <- Ep.
      apply (proj2 (probe_found _ search_order le)). exact Hr. }
    now rewrite Nat.add_0_r.
  - destruct fuel as [|fuel]; [lia|].
    destruct (wait_loop_skip fuel pg d a w le) as [le' E].
    + apply Hc. lia.
    + apply Hn. lia.
    + rewrite E. replace (a + S n)%nat with (S a + n)%nat in * by lia.
      replace (w + S n)%nat with (S w + n)%nat by lia.
      apply IH; try assumption; try lia.
      * intros k Hk. apply Hc. lia.
      * intros k Hk. apply Hn. lia.
Qed.

(** An exception of [locate_perp_table] or of [page.wait_for_timeout]
    leaves the loop in the pass that raises it. *)
Lemma wait_loop_propagates : forall n fuel pg d a w le e,
  (n < fuel)%nat ->
  (forall k, (a <= k <= a + n)%nat -> (clock pg k < d)%Z) ->
  (forall k, (a <= k < a + n)%nat -> retries (polls pg k)) ->
  locate_raises (polls pg (a + n)) e \/ wait_raises (polls pg (a + n)) e ->
  wait_loop fuel pg d a w le = Propagated e (a + n).
Proof.
  induction n as [|n IH]; intros fuel pg d a w le e Hf Hc Hn He.
  - destruct fuel as [|fuel]; [lia|]. rewrite Nat.add_0_r in *.
    cbn [wait_loop].
    specialize (Hc a ltac:(lia)). apply Z.ltb_lt in Hc. rewrite Hc.
    destruct He as [He | [Hr Hw]].
    + unfold locate_raises in He. now rewrite He.
    + rewrite Hw.
      destruct (located (polls pg a)) as [exc|[t|]] eqn:El.
      * destruct Hr as [Hr | [[t Hr] _]]; congruence.
      * pose proof (not_ready_probe (polls pg a) le t El Hr) as Hp.
        destruct (probe (row_count (polls pg a)) search_order le)
          as [found le'] eqn:Ep.
        simpl in Hp. now subst found.
      * reflexivity.
  - destruct fuel as [|fuel]; [lia|].
    destruct (wait_loop_skip fuel pg d a w le) as [le' E].
    + apply Hc. lia.
    + apply Hn. lia.
    + rewrite E. replace (a + S n)%nat with (S a + n)%nat in * by lia.
      apply IH; try assumption; try lia.
      * intros k Hk. apply Hc. lia.
      * intros k Hk. apply Hn. lia.
Qed.

Lemma wait_loop_raises : forall fuel pg a w le,
  ticking pg -> (1 <= a <= 31)%nat -> (32 <= fuel + a)%nat ->
  (forall k, (a <= k)%nat -> (clock pg k < deadline_of pg)%Z ->
             retries (polls pg k)) ->
  last_before pg a le ->
  exists cause,
    wait_loop fuel pg (deadline_of pg) a w le = RuntimeError cause /\
    last_observed pg cause.
Proof.
  induction fuel as [|fuel IH]; intros pg a w le Ht Ha Hf Hn Hle; [lia|].
  destruct (Z.ltb_spec (clock pg a) (deadline_of pg)) as [Hc|Hc].
  - pose proof (before_deadline_bound pg a Ht ltac:(lia) Hc) as Hb.
    destruct (wait_loop_step_not_ready fuel pg a w le ltac:(lia) Hc
                (Hn a ltac:(lia) Hc) Hle) as [le' [E Hle']].
    rewrite E. apply IH; try assumption; try lia.
    intros k Hk. apply Hn. lia.
  - exists le. split.
    + cbn [wait_loop]. apply Z.ltb_ge in Hc. now rewrite Hc.
    + assert (Hlt : forall k sel e, raised_at pg k sel e -> (k < a)%nat).
      { intros k sel e (Hk & Hck & _).
        destruct (Nat.lt_ge_cases k a) as [H|H]; [exact H|].
        pose proof (clock_mono pg a k Ht ltac:(lia)). lia. }
      destruct le as [e|]; simpl in *.
      * destruct Hle as (k & sel & Hk & Hr & Hmax). exists k, sel.
        split; [exact Hr|]. intros k' sel' e' Hr'.
        apply (Hmax k' sel' e'); [now apply (Hlt k' sel' e') | exact Hr'].
      * intros k sel e Hr. apply (Hle k sel e); [now apply (Hlt k sel e) | exact Hr].
Qed.

End WaitingFacts.

(** C4, as amended.  On a page where every wait lasts the poll interval
    at least: if in the passes before pass N [locate_perp_table] returns
    without a table with rows and the wait returns, and pass N, begun
    before the deadline, finds a table [t] with rows under some
    selector, the controller returns [t] on pass N, after N-1 waits and
    without a further one; N poll intervals below the time budget
    ensure that pass N begins before the deadline when the passes take no
    more than one poll interval between them.  If every pass begun
    before the deadline goes that way, no table with rows and nothing
    raised by the locator or the wait, the controller fails with the
    table-not-found error, which carries the last error a row count
    raised, if one did; it never returns an empty result.  If instead
    [locate_perp_table] or [page.wait_for_timeout] raises in pass N,
    begun before the deadline, that exception leaves the controller, not
    the table-not-found error. *)
Theorem wait_for_perp_table_polls :
  forall (Locator exn : Type) (pg : page Locator exn),
  ticking pg ->
  (forall N t,
     (1 <= N)%nat ->
     (forall k, (1 <= k < N)%nat -> retries (polls pg k)) ->
     located (polls pg N) = inr (Some t) ->
     has_rows (row_count (polls pg N)) ->
     (clock pg N < deadline_of pg)%Z ->
     wait_for_perp_table pg = Returned t N (N - 1)) /\
  (forall N,
     (Z.of_nat N * ROW_POLL_INTERVAL_MS < TABLE_WAIT_SECONDS * 1000)%Z ->
     (clock pg N - clock pg 0 <= Z.of_nat N * ROW_POLL_INTERVAL_MS)%Z ->
     (clock pg N < deadline_of pg)%Z) /\
  ((forall k, (1 <= k)%nat -> (clock pg k < deadline_of pg)%Z ->
              retries (polls pg k)) ->
   exists cause,
     wait_for_perp_table pg = RuntimeError cause /\ last_observed pg cause) /\
  (forall N e,
     (1 <= N)%nat ->
     (forall k, (1 <= k < N)%nat -> retries (polls pg k)) ->
     (clock pg N < deadline_of pg)%Z ->
     locate_raises (polls pg N) e \/ wait_raises (polls pg N) e ->
     wait_for_perp_table pg = Propagated e N).
Proof.
  intros Locator exn pg Ht. split; [|split; [|split]].
  - intros N t HN Hn Hl Hr Hc. unfold wait_for_perp_table.
    pose proof (before_deadline_bound Locator exn pg N Ht HN Hc) as Hb.
    replace N with (1 + (N - 1))%nat at 1 by lia.
    replace (N - 1)%nat with (0 + (N - 1))%nat at 2 by lia.
    apply wait_loop_returns.
    + change max_passes with 31%nat. lia.
    + intros k Hk.
      pose proof (clock_mono Locator exn pg k N Ht ltac:(lia)). lia.
    + intros k Hk. apply Hn. lia.
    + now replace (1 + (N - 1))%nat with N by lia.
    + now replace (1 + (N - 1))%nat with N by lia.
  - intros N H1 H2. unfold deadline_of. lia.
  - intros Hn. unfold wait_for_perp_table. change max_passes with 31%nat.
    apply wait_loop_raises; try assumption; try lia.
    simpl. intros k sel e Hk (H1 & _). lia.
  - intros N e HN Hn Hc He. unfold wait_for_perp_table.
    pose proof (before_deadline_bound Locator exn pg N Ht HN Hc) as Hb.
    replace N with (1 + (N - 1))%nat at 1 by lia.
    apply wait_loop_propagates.
    + change max_passes with 31%nat. lia.
    + intros k Hk.
      pose proof (clock_mono Locator exn pg k N Ht ltac:(lia)). lia.
    + intros k Hk. apply Hn. lia.
    + now replace (1 + (N - 1))%nat with N by lia.
Qed.

Lemma wait_for_perp_table_polls_witness :
  ticking page_quick /\
  wait_for_perp_table page_quick = Returned tt 3 2.
Proof.
  assert (Ht : ticking page_quick).
  { split; [simpl; lia|]. intros k Hk.
    unfold ROW_POLL_INTERVAL_MS, page_quick. cbn [clock]. lia. }
  split; [exact Ht|].
  apply (proj1 (wait_for_perp_table_polls unit unit page_quick Ht) 3%nat tt).
  - lia.
  - intros k Hk. split; [|reflexivity].
    right. split; [now exists tt|]. intros (sel & n & _ & H & Hn).
    assert (Hk' : k = 1%nat \/ k = 2%nat) by lia.
    destruct Hk' as [-> | ->]; simpl in H; injection H as H; lia.
  - reflexivity.
  - exists TbodyTr, 4%nat. simpl. repeat split; auto.
  - reflexivity.
Defined.

(** C4 as stated fails when the passes take time of their own: with
    passes of 200 ms, rows from pass 29 on, nothing raised and 29 poll
    intervals within the budget, the deadline passes after pass 27 and
    the controller raises. *)
Lemma slow_passes_miss_the_deadline :
  (29 * ROW_POLL_INTERVAL_MS < TABLE_WAIT_SECONDS * 1000)%Z /\
  ticking page_slow /\
  (forall k, (1 <= k < 29)%nat ->
     located (polls page_slow k) = inr (Some tt) /\
     wait_error (polls page_slow k) = None /\
     forall sel, row_count (polls page_slow k) sel = inr 0%nat) /\
  located (polls page_slow 29) = inr (Some tt) /\
  row_count (polls page_slow 29) TbodyTr = inr 5%nat /\
  wait_for_perp_table page_slow = RuntimeError None.
Proof.
  split; [reflexivity|]. split; [|split; [|repeat split]].
  - split; [simpl; lia|]. intros k Hk.
    unfold ROW_POLL_INTERVAL_MS, page_slow. cbn [clock]. lia.
  - intros k Hk. split; [reflexivity|]. split; [reflexivity|].
    intros sel. simpl.
    destruct (Nat.ltb_spec k 29); [reflexivity | lia].
Qed.

(** ** The threshold evaluator *)

Lemma select_exceeding_filter : forall threshold positions,
  (forall pos, In pos positions -> absolute_position_value pos <> inl Overflow) ->
  select_exceeding threshold positions = inr (filter (exceeds threshold) positions).
Proof.
  intros threshold. induction positions as [|pos rest IH]; intros H; simpl.
  - reflexivity.
  - unfold exceeds at 1.
    destruct (absolute_position_value pos) as [[]|v] eqn:E.
    + exfalso. apply (H pos); [now left | exact E].
    + simpl. rewrite IH by (intros q Hq; apply H; now right). simpl.
      destruct (dec_gt v threshold); reflexivity.
Qed.

Lemma select_exceeding_overflow : forall threshold positions pos,
  In pos positions -> absolute_position_value pos = inl Overflow ->
  select_exceeding threshold positions = inl Overflow.
Proof.
  intros threshold. induction positions as [|q rest IH]; intros pos Hin Ho;
    simpl in *; [tauto|].
  destruct (absolute_position_value q) as [[]|v] eqn:E; [reflexivity|].
  destruct Hin as [->|Hin]; [congruence|].
  simpl. now rewrite (IH pos Hin Ho).
Qed.

Lemma fix_exact : forall d,
  (ndigits (d_int d) <= prec)%Z -> (Etiny <= d_exp d <= 0)%Z -> fix_ d = inr d.
Proof.
  intros [s c e] Hn He. unfold fix_. simpl in *.
  destruct (c =? 0)%N eqn:Ec.
  - apply N.eqb_eq in Ec. subst c. f_equal. f_equal.
    unfold Etiny, Emin, Emax, prec in *. lia.
  - unfold Etop, Etiny, Emax, Emin, prec in *.
    destruct (Z.ltb_spec (999999 - 28 + 1) (ndigits c + e - 28)); [lia|].
    destruct (Z.ltb_spec e (Z.max (ndigits c + e - 28) (-999999 - 28 + 1)));
      [lia | reflexivity].
Qed.

Lemma value_exact : forall pos,
  fits_context pos ->
  absolute_position_value pos
  = inr (copy_abs (mul_exact (size pos) (mark_price pos))).
Proof.
  intros pos [Hn He]. unfold absolute_position_value, position_value, dec_mul.
  now rewrite fix_exact.
Qed.

(** C3, as amended.  When no product leaves the context's exponent range
    (the multiplication raises then, and so does the evaluation), the
    evaluator selects, in their order, exactly the positions whose
    absolute position value is strictly above the threshold, the position
    value being the product of size and mark price as the decimal context
    gives it: rounded half-even to 28 significant digits, and exact when
    the product has no more than 28.  With the threshold 50000 and values
    60000, -40000 and -70000 it selects the first and the third; a value
    of exactly 50000 is not selected. *)
Theorem select_exceeding_by_context_value : forall threshold positions,
  ((forall pos, In pos positions ->
                absolute_position_value pos <> inl Overflow) ->
   select_exceeding threshold positions
     = inr (filter (exceeds threshold) positions)) /\
  (forall pos, In pos positions ->
               absolute_position_value pos = inl Overflow ->
               select_exceeding threshold positions = inl Overflow) /\
  (forall pos, absolute_position_value pos
     = match fix_ (mul_exact (size pos) (mark_price pos)) with
       | inr v => inr (copy_abs v)
       | inl e => inl e
       end) /\
  (forall pos, fits_context pos ->
     absolute_position_value pos
       = inr (copy_abs (mul_exact (size pos) (mark_price pos)))) /\
  select_exceeding POSITION_VALUE_THRESHOLD
    [pos_60000; pos_minus_40000; pos_minus_70000; pos_50000]
    = inr [pos_60000; pos_minus_70000].
Proof.
  intros threshold positions. split; [|split; [|split; [|split]]].
  - apply select_exceeding_filter.
  - apply select_exceeding_overflow.
  - reflexivity.
  - apply value_exact.
  - reflexivity.
Qed.

(** C3 as stated fails on a product of more than 28 digits: size times
    mark price is above the threshold, the rounded position value is
    equal to it, and the position is not selected. *)
Lemma rounding_hides_an_excess :
  dec_gt (copy_abs (mul_exact (size pos_just_above) (mark_price pos_just_above)))
         POSITION_VALUE_THRESHOLD = true /\
  absolute_position_value pos_just_above
    = inr (mkDecimal false 5000000000000000000000000000 (-23)) /\
  select_exceeding POSITION_VALUE_THRESHOLD [pos_just_above] = inr [].
Proof. repeat split; vm_compute; reflexivity. Qed.

Lemma value_examples :
  absolute_position_value pos_60000 = inr (mkDecimal false 60000 0) /\
  position_value pos_minus_40000 = inr (mkDecimal true 400000 (-1)) /\
  position_value pos_minus_70000 = inr (mkDecimal true 700000 (-1)) /\
  fits_context pos_60000.
Proof. repeat split; vm_compute; congruence. Qed.

(** ** Positions as objects: nothing is assigned to *)

Lemma read_only_ret : forall (A : Type) (a : A), read_only (ret a).
Proof. intros A a h. reflexivity. Qed.

Lemma read_only_lift : forall (A : Type) (x : signal + A), read_only (lift x).
Proof. intros A x h. reflexivity. Qed.

Lemma read_only_load : forall r, read_only (load r).
Proof. intros r h. reflexivity. Qed.

Lemma read_only_bind : forall (A B : Type) (m : St A) (f : A -> St B),
  read_only m -> (forall a, read_only (f a)) -> read_only (bindS m f).
Proof.
  intros A B m f Hm Hf h. unfold bindS. specialize (Hm h).
  destruct (m h) as [[e|a] h']; simpl in *; subst h'; [reflexivity | apply Hf].
Qed.

Create HintDb frame.
#[local] Hint Resolve read_only_ret read_only_lift read_only_load : frame.

Ltac frame := repeat (apply read_only_bind; [|intros ?]); auto with frame.

Lemma read_only_position_value : forall r, read_only (position_value_of r).
Proof. intros r. unfold position_value_of. frame. Qed.

Lemma read_only_absolute : forall r, read_only (absolute_position_value_of r).
Proof.
  intros r. unfold absolute_position_value_of.
  apply read_only_bind; [apply read_only_position_value | intros v; frame].
Qed.

Lemma read_only_select : forall threshold positions,
  read_only (select_exceeding_refs threshold positions).
Proof.
  intros threshold. induction positions as [|r rest IH]; simpl; [frame|].
  apply read_only_bind; [apply read_only_absolute | intros v].
  apply read_only_bind; [exact IH | intros tail; frame].
Qed.

Lemma read_only_alert_blocks : forall exceeding,
  read_only (alert_blocks_of exceeding).
Proof.
  induction exceeding as [|r rest IH]; simpl; [frame|].
  apply read_only_bind; [unfold alert_block_of; frame | intros b].
  apply read_only_bind; [exact IH | intros tail; frame].
Qed.

Lemma read_only_alert_body : forall threshold exceeding,
  read_only (build_alert_body_of threshold exceeding).
Proof.
  intros threshold exceeding. unfold build_alert_body_of.
  apply read_only_bind; [apply read_only_alert_blocks | intros b; frame].
Qed.

Lemma read_only_debug : forall positions, read_only (debug_lines_of positions).
Proof.
  induction positions as [|r rest IH]; simpl; [frame|].
  apply read_only_bind; [frame | intros pos].
  apply read_only_bind; [frame | intros l].
  apply read_only_bind; [exact IH | intros tail; frame].
Qed.

Lemma read_only_compose : forall threshold positions,
  read_only (compose_of threshold positions).
Proof.
  intros threshold positions. unfold compose_of.
  apply read_only_bind; [apply read_only_debug | intros _].
  apply read_only_bind; [apply read_only_select | intros [|r rs]]; [frame|].
  apply read_only_bind; [apply read_only_alert_body | intros b; frame].
Qed.

(** The by-reference pipeline computes what the pipeline on values does. *)

Lemma run_absolute : forall r h,
  absolute_position_value_of r h
  = (absolute_position_value (nth r h no_position), h).
Proof.
  intros r h.
  unfold absolute_position_value_of, position_value_of, bindS, load, lift,
    absolute_position_value, ret.
  destruct (position_value (nth r h no_position)); reflexivity.
Qed.

Lemma run_select_cons : forall threshold r rest h,
  select_exceeding_refs threshold (r :: rest) h =
  match absolute_position_value (nth r h no_position) with
  | inl e => (inl e, h)
  | inr v =>
      match select_exceeding_refs threshold rest h with
      | (inl e, h') => (inl e, h')
      | (inr tail, h') =>
          (inr (if dec_gt v threshold then r :: tail else tail), h')
      end
  end.
Proof.
  intros threshold r rest h. cbn [select_exceeding_refs]. unfold bindS at 1.
  rewrite run_absolute.
  destruct (absolute_position_value (nth r h no_position)); [reflexivity|].
  unfold bindS, ret.
  destruct (select_exceeding_refs threshold rest h) as [[e|tail] h'];
    reflexivity.
Qed.

Lemma select_refs_values : forall threshold refs h,
  match select_exceeding threshold (deref h refs) with
  | inl e => fst (select_exceeding_refs threshold refs h) = inl e
  | inr l => exists rs,
      fst (select_exceeding_refs threshold refs h) = inr rs /\ deref h rs = l
  end.
Proof.
  intros threshold refs h. induction refs as [|r rest IH].
  - now exists [].
  - rewrite run_select_cons. cbn [deref map select_exceeding].
    fold (deref h rest).
    destruct (absolute_position_value (nth r h no_position)) as [e|v];
      cbn [bind]; [reflexivity|].
    destruct (select_exceeding_refs threshold rest h) as [[e|rs] h'];
      destruct (select_exceeding threshold (deref h rest)) as [e'|l];
      cbn [bind fst] in *.
    + exact IH.
    + destruct IH as [rs [H _]]. discriminate.
    + discriminate.
    + destruct IH as [rs' [H1 H2]]. injection H1 as H1. subst rs'.
      destruct (dec_gt v threshold).
      * exists (r :: rs). split; [reflexivity|].
        unfold deref in *. simpl. now rewrite H2.
      * exists rs. split; [reflexivity | exact H2].
Qed.

Lemma run_build_positions : forall raw_rows positions h,
  build_positions_of raw_rows positions h
  = (inr (positions ++
          seq (List.length h) (List.length (build_positions raw_rows []))),
     h ++ build_positions raw_rows []).
Proof.
  induction raw_rows as [|row rest IH]; intros positions h.
  - simpl. now rewrite !app_nil_r.
  - cbn [build_positions_of build_positions].
    destruct (build_row row) as [p|].
    + unfold bindS, new_position. rewrite IH.
      rewrite (build_positions_emitted rest ([] ++ [p])).
      rewrite (build_positions_emitted rest []).
      rewrite !length_app. simpl. rewrite <- !app_assoc. simpl.
      replace (List.length h + 1)%nat with (S (List.length h)) by lia.
      reflexivity.
    + apply IH.
Qed.

Lemma deref_built : forall h new,
  deref (h ++ new) (seq (List.length h) (List.length new)) = new.
Proof.
  intros h new. unfold deref. revert h.
  induction new as [|p new IH]; intros h; simpl; [reflexivity|].
  f_equal.
  - rewrite app_nth2 by lia. now rewrite Nat.sub_diag.
  - specialize (IH (h ++ [p])). rewrite <- app_assoc in IH. simpl in IH.
    rewrite length_app in IH. simpl in IH.
    now replace (List.length h + 1)%nat with (S (List.length h)) in IH by lia.
Qed.

(** C8. No operation of the evaluation changes a Position once it is
    built: computing the position value and its absolute value, selecting
    against the threshold and composing the message, all by reference to
    the objects, leave every attribute of every object as it was, and the
    references selected are those of the positions the evaluator selects.
    Building the positions only adds the new objects behind the existing
    ones. *)
Theorem positions_are_left_unchanged :
  (forall r, read_only (position_value_of r)) /\
  (forall r, read_only (absolute_position_value_of r)) /\
  (forall threshold positions,
     read_only (select_exceeding_refs threshold positions)) /\
  (forall threshold exceeding,
     read_only (build_alert_body_of threshold exceeding)) /\
  (forall threshold positions, read_only (compose_of threshold positions)) /\
  (forall threshold refs h,
     match select_exceeding threshold (deref h refs) with
     | inl e => fst (select_exceeding_refs threshold refs h) = inl e
     | inr l => exists rs,
         fst (select_exceeding_refs threshold refs h) = inr rs /\
         deref h rs = l
     end) /\
  (forall raw_rows h,
     let built := build_positions raw_rows [] in
     let refs := seq (List.length h) (List.length built) in
     build_positions_of raw_rows [] h = (inr refs, h ++ built) /\
     deref (h ++ built) refs = built /\
     snd (cycle_of raw_rows h) = h ++ built).
Proof.
  split; [apply read_only_position_value|].
  split; [apply read_only_absolute|].
  split; [apply read_only_select|].
  split; [apply read_only_alert_body|].
  split; [apply read_only_compose|].
  split; [apply select_refs_values|].
  intros raw_rows h built refs. split; [apply run_build_positions|].
  split; [apply deref_built|].
  unfold cycle_of, bindS. rewrite run_build_positions.
  apply read_only_compose.
Qed.

(** ** Digits and numbers *)

Lemma pow10_S : forall k, pow10 (S k) = (10 * pow10 k)%N.
Proof.
  intros k. unfold pow10. rewrite Nat2N.inj_succ, N.pow_succ_r by lia. reflexivity.
Qed.

Lemma pow10_pos : forall k, (0 < pow10 k)%N.
Proof. intros k. unfold pow10. apply N.neq_0_lt_0, N.pow_nonzero. lia. Qed.

Lemma fold_digits_acc : forall ds acc,
  fold_left (fun a c => (a * 10 + digit_val c)%N) ds acc
  = (acc * pow10 (List.length ds) + int_of_digits ds)%N.
Proof.
  unfold int_of_digits.
  induction ds as [|c ds IH]; intros acc; simpl.
  - unfold pow10. simpl. lia.
  - rewrite IH. rewrite (IH (digit_val c)). rewrite pow10_S. lia.
Qed.

Lemma int_of_digits_app : forall a b,
  int_of_digits (a ++ b)
  = (int_of_digits a * pow10 (List.length b) + int_of_digits b)%N.
Proof.
  intros a b. unfold int_of_digits at 1. rewrite fold_left_app.
  rewrite fold_digits_acc. reflexivity.
Qed.

Lemma int_of_digits_cons : forall c ds,
  int_of_digits (c :: ds)
  = (digit_val c * pow10 (List.length ds) + int_of_digits ds)%N.
Proof.
  intros c ds. change (c :: ds) with ([c] ++ ds). rewrite int_of_digits_app.
  reflexivity.
Qed.

Lemma int_of_zeros : forall k, int_of_digits (repeat "0"%ch k) = 0%N.
Proof.
  induction k as [|k IH]; [reflexivity|]. simpl repeat.
  rewrite int_of_digits_cons, IH. reflexivity.
Qed.

Lemma decimal_value_digit_char : forall d,
  (d < 10)%N -> decimal_value (digit_char d) = Some d.
Proof.
  intros d H. unfold digit_char.
  rewrite decimal_value_ascii_digit by lia. f_equal. lia.
Qed.

Lemma isdigit_digit_char : forall d, (d < 10)%N -> isdigit (digit_char d) = true.
Proof.
  intros d H. unfold isdigit. now rewrite decimal_value_digit_char.
Qed.

Lemma digit_val_digit_char : forall d, (d < 10)%N -> digit_val (digit_char d) = d.
Proof.
  intros d H. unfold digit_val. now rewrite decimal_value_digit_char.
Qed.

Lemma mod10_lt : forall n, (n mod 10 < 10)%N.
Proof. intros n. apply N.mod_lt. lia. Qed.

Lemma digits_from_all : forall fuel n acc,
  all_digits acc -> all_digits (digits_from fuel n acc).
Proof.
  induction fuel as [|fuel IH]; intros n acc H; simpl; [exact H|].
  assert (H' : all_digits (digit_char (n mod 10) :: acc)).
  { constructor; [apply isdigit_digit_char, mod10_lt | exact H]. }
  destruct (n / 10 =? 0)%N; [exact H' | now apply IH].
Qed.

Lemma log2_div10 : forall n, (n / 10 <> 0)%N -> (N.log2 (n / 10) < N.log2 n)%N.
Proof.
  intros n H.
  assert (Hq : (0 < n / 10)%N) by (apply N.neq_0_lt_0; exact H).
  assert (Hle : (2 * (n / 10) <= n)%N).
  { pose proof (N.Div0.mul_div_le n 10). lia. }
  apply N.log2_le_mono in Hle. rewrite N.log2_double in Hle by exact Hq. lia.
Qed.

Lemma digits_from_value : forall fuel n acc,
  (N.to_nat (N.log2 n) < fuel)%nat ->
  int_of_digits (digits_from fuel n acc)
  = (n * pow10 (List.length acc) + int_of_digits acc)%N.
Proof.
  induction fuel as [|fuel IH]; intros n acc Hf; [lia|]. simpl.
  pose proof (N.Div0.div_mod n 10) as Hdm.
  destruct (n / 10 =? 0)%N eqn:E.
  - apply N.eqb_eq in E. rewrite int_of_digits_cons.
    rewrite digit_val_digit_char by apply mod10_lt. 
    rewrite E in Hdm. lia.
  - apply N.eqb_neq in E. rewrite IH.
    + simpl List.length. rewrite pow10_S, int_of_digits_cons.
      rewrite digit_val_digit_char by apply mod10_lt.
      set (q := (n / 10)%N) in *. set (r := (n mod 10)%N) in *.
      set (p := pow10 (List.length acc)). nia.
    + pose proof (log2_div10 n E). lia.
Qed.

Lemma digits_from_keeps : forall fuel n (acc : str),
  acc <> [] -> digits_from fuel n acc <> [].
Proof.
  induction fuel as [|fuel IH]; intros n acc H; simpl; [exact H|].
  destruct (n / 10 =? 0)%N; [discriminate | apply IH; discriminate].
Qed.

Lemma str_of_int_nonempty : forall n, str_of_int n <> [].
Proof.
  intros n. unfold str_of_int. simpl.
  destruct (n / 10 =? 0)%N; [discriminate | apply digits_from_keeps; discriminate].
Qed.

Lemma str_of_int_digits : forall n, all_digits (str_of_int n).
Proof. intros n. apply digits_from_all. constructor. Qed.

Lemma int_of_str_of_int : forall n, int_of_digits (str_of_int n) = n.
Proof.
  intros n. unfold str_of_int. rewrite digits_from_value by lia.
  simpl. unfold pow10. simpl. unfold int_of_digits. simpl. lia.
Qed.

(** ** The shape of a formatted decimal *)

Lemma rescale_sign : forall v e, d_sign (rescale v e) = d_sign v.
Proof.
  intros v e. unfold rescale.
  destruct (d_int v =? 0)%N; [reflexivity|]. destruct (e <=? d_exp v)%Z; reflexivity.
Qed.

Lemma rescale_exp : forall v e, d_exp (rescale v e) = e.
Proof.
  intros v e. unfold rescale.
  destruct (d_int v =? 0)%N; [reflexivity|]. destruct (e <=? d_exp v)%Z; reflexivity.
Qed.

Lemma all_digits_split : forall n ds,
  all_digits ds -> all_digits (firstn n ds) /\ all_digits (skipn n ds).
Proof.
  intros n ds H. rewrite <- (firstn_skipn n ds) in H.
  now apply Forall_app in H.
Qed.

Lemma all_digits_zeros : forall k, all_digits (repeat "0"%ch k).
Proof. induction k; simpl; constructor; [reflexivity | assumption]. Qed.

Lemma int_of_zeros_app : forall k ds,
  int_of_digits (repeat "0"%ch k ++ ds) = int_of_digits ds.
Proof. intros k ds. rewrite int_of_digits_app, int_of_zeros. lia. Qed.

Lemma format_f_shape : forall places v,
  (0 < places)%nat ->
  exists ip fp,
    format_f places v
      = minus (d_sign v) ++ insert_thousands_sep ip ++ "."%ch :: fp /\
    ip <> [] /\ all_digits ip /\ all_digits fp /\
    List.length fp = places /\
    int_of_digits (ip ++ fp) = d_int (rescale v (- Z.of_nat places)).
Proof.
  intros places v Hp. unfold format_f.
  rewrite rescale_sign, rescale_exp.
  set (c := d_int (rescale v (- Z.of_nat places))).
  pose proof (str_of_int_nonempty c) as Hne.
  pose proof (str_of_int_digits c) as Hd.
  pose proof (int_of_str_of_int c) as Hv.
  set (ds := str_of_int c) in *.
  assert (HL : (0 < List.length ds)%nat) by (destruct ds; [congruence | simpl; lia]).
  destruct (Z.ltb_spec (- Z.of_nat places + Z.of_nat (List.length ds)) 0) as [Hlt|Hge].
  - exists (chars "0"), (repeat "0"%ch (Z.to_nat (- (- Z.of_nat places + Z.of_nat (List.length ds)))) ++ ds).
    split.
    + replace (nonempty (repeat "0"%ch (Z.to_nat (- (- Z.of_nat places + Z.of_nat (List.length ds)))) ++ ds)) with true.
      * reflexivity.
      * symmetry. apply nonempty_true. intros E. apply app_eq_nil in E.
        destruct E as [_ E]. congruence.
    + split; [discriminate|]. split; [repeat constructor|].
      split; [apply all_digits_app; [apply all_digits_zeros | exact Hd]|].
      split.
      * rewrite length_app, repeat_length. lia.
      * change (chars "0") with (repeat "0"%ch 1).
        now rewrite !int_of_zeros_app.
  - set (n := Z.to_nat (- Z.of_nat places + Z.of_nat (List.length ds))).
    assert (Hn : (n = List.length ds - places)%nat) by lia.
    destruct (all_digits_split n ds Hd) as [Hd1 Hd2].
    assert (Hlen : List.length (skipn n ds) = places)
      by (rewrite length_skipn; lia).
    assert (Hfp : nonempty (skipn n ds) = true).
    { apply nonempty_true. intros E. rewrite E in Hlen. simpl in Hlen. lia. }
    rewrite Hfp.
    destruct (nonempty (firstn n ds)) eqn:Eip.
    + exists (firstn n ds), (skipn n ds). split; [reflexivity|].
      split; [now apply nonempty_true|]. split; [exact Hd1|].
      split; [exact Hd2|]. split; [exact Hlen|].
      now rewrite firstn_skipn.
    + exists (chars "0"), (skipn n ds). split; [reflexivity|].
      split; [discriminate|]. split; [repeat constructor|].
      split; [exact Hd2|]. split; [exact Hlen|].
      assert (E : firstn n ds = []) by (destruct (firstn n ds); [reflexivity | discriminate]).
      change (chars "0") with (repeat "0"%ch 1). rewrite int_of_zeros_app.
      rewrite <- (firstn_skipn n ds) in Hv. rewrite E in Hv. exact Hv.
Qed.

(** ** Trailing characters *)

Lemma dropwhile_app_stop : forall p x c y,
  p c = false -> dropwhile p (x ++ c :: y) = dropwhile p x ++ c :: y.
Proof.
  intros p x c y H. induction x as [|a x IH]; simpl.
  - now rewrite H.
  - destruct (p a); [exact IH | reflexivity].
Qed.

Lemma rstrip_chars_stop : forall set a c b,
  mem_char c set = false ->
  rstrip_chars set (a ++ c :: b) = a ++ c :: rstrip_chars set b.
Proof.
  intros set a c b H. unfold rstrip_chars.
  rewrite rev_app_distr. simpl rev. rewrite <- app_assoc. simpl.
  rewrite dropwhile_app_stop by exact H.
  rewrite rev_app_distr. simpl rev. rewrite rev_involutive, <- app_assoc.
  reflexivity.
Qed.

Lemma rstrip_chars_id : forall set s,
  match rev s with c :: _ => mem_char c set = false | [] => True end ->
  rstrip_chars set s = s.
Proof.
  intros set s H. unfold rstrip_chars.
  rewrite dropwhile_head_stop by exact H. apply rev_involutive.
Qed.

Lemma takewhile_repeat : forall c s,
  takewhile (fun x => mem_char x [c]) s
  = repeat c (List.length (takewhile (fun x => mem_char x [c]) s)).
Proof.
  intros c. induction s as [|x s IH]; simpl; [reflexivity|].
  destruct (N.eqb x c) eqn:E; simpl; [|reflexivity].
  apply N.eqb_eq in E. subst x. f_equal. exact IH.
Qed.

Lemma rev_repeat : forall (c : char) k, rev (repeat c k) = repeat c k.
Proof.
  intros c. induction k as [|k IH]; [reflexivity|]. simpl. rewrite IH.
  clear IH. induction k as [|k IH]; [reflexivity|]. simpl. now rewrite IH.
Qed.

Lemma rstrip_zeros_split : forall s,
  exists k, s = rstrip_chars (chars "0") s ++ repeat "0"%ch k.
Proof.
  intros s. unfold rstrip_chars. change (chars "0") with ["0"%ch].
  exists (List.length (takewhile (fun x => mem_char x ["0"%ch]) (rev s))).
  rewrite <- rev_repeat, <- takewhile_repeat, <- rev_app_distr.
  now rewrite takewhile_dropwhile, rev_involutive.
Qed.

Lemma rstrip_chars_sub : forall set s,
  all_digits s -> all_digits (rstrip_chars set s).
Proof.
  intros set s H. unfold rstrip_chars. apply Forall_rev.
  apply Forall_rev in H. revert H. generalize (rev s). clear s.
  induction l as [|c l IH]; simpl; intros H; [constructor|].
  destruct (mem_char c set); [apply IH; now inversion H | exact H].
Qed.

(** ** Thousands separators *)

Lemma group3_rev_filter : forall (f : char -> bool) n r,
  (List.length r <= n)%nat ->
  f ","%ch = false -> Forall (fun x => f x = true) r ->
  filter f (group3_rev r) = r.
Proof.
  intros f. induction n as [|n IH]; intros r Hn Hc Hr.
  - destruct r; [reflexivity | simpl in Hn; lia].
  - destruct r as [|a [|b [|c [|d r]]]]; try (now apply filter_keep_all).
    change (group3_rev (a :: b :: c :: d :: r))
      with (a :: b :: c :: ","%ch :: group3_rev (d :: r)).
    inversion Hr as [|? ? Ha Hr1]; subst.
    inversion Hr1 as [|? ? Hb Hr2]; subst.
    inversion Hr2 as [|? ? Hc' Hr3]; subst.
    cbn [filter]. rewrite Ha, Hb, Hc', Hc.
    rewrite IH; [reflexivity | simpl in *; lia | exact Hc | exact Hr3].
Qed.

Lemma group3_rev_head : forall r, hd_error (group3_rev r) = hd_error r.
Proof. intros [|a [|b [|c [|d r]]]]; reflexivity. Qed.

Lemma remove_separators : forall (f : char -> bool) ds,
  f ","%ch = false -> Forall (fun x => f x = true) ds ->
  filter f (insert_thousands_sep ds) = ds.
Proof.
  intros f ds Hc Hd. unfold insert_thousands_sep. rewrite filter_rev.
  rewrite (group3_rev_filter f (List.length (rev ds))); auto.
  - apply rev_involutive.
  - now apply Forall_rev.
Qed.

Lemma hd_error_app : forall (a b : str),
  a <> [] -> hd_error (a ++ b) = hd_error a.
Proof. intros [|x a] b H; [congruence | reflexivity]. Qed.

Lemma last_digit : forall ds,
  ds <> [] -> all_digits ds ->
  exists c, hd_error (rev ds) = Some c /\ isdigit c = true.
Proof.
  intros ds Hn Hd. apply Forall_rev in Hd.
  destruct (rev ds) as [|c r] eqn:E.
  - apply (f_equal (@rev char)) in E. rewrite rev_involutive in E. simpl in E.
    congruence.
  - exists c. split; [reflexivity | now inversion Hd].
Qed.

Lemma separated_last_digit : forall ip a,
  ip <> [] -> all_digits ip ->
  exists c, hd_error (rev (a ++ insert_thousands_sep ip)) = Some c /\
            isdigit c = true.
Proof.
  intros ip a Hn Hd. destruct (last_digit ip Hn Hd) as [c [Hc1 Hc2]].
  exists c. split; [|exact Hc2].
  rewrite rev_app_distr. unfold insert_thousands_sep. rewrite rev_involutive.
  rewrite hd_error_app.
  - now rewrite group3_rev_head.
  - intros E. apply (f_equal (@hd_error char)) in E.
    rewrite group3_rev_head, Hc1 in E. discriminate.
Qed.

Lemma digit_not_in : forall c set,
  isdigit c = true -> forallb (fun x => negb (isdigit x)) set = true ->
  mem_char c set = false.
Proof.
  intros c set Hc Hs. unfold mem_char.
  destruct (existsb (N.eqb c) set) eqn:E; [|reflexivity].
  apply existsb_exists in E. destruct E as [x [Hx Ex]].
  apply N.eqb_eq in Ex. subst x.
  rewrite forallb_forall in Hs. specialize (Hs c Hx). now rewrite Hc in Hs.
Qed.

Lemma format_decimal_shape : forall v,
  exists ip fp k,
    format_decimal v
      = minus (d_sign v) ++ insert_thousands_sep ip ++ point_tail fp /\
    ip <> [] /\ all_digits ip /\ all_digits fp /\
    (List.length fp + k = 6)%nat /\
    (int_of_digits (ip ++ fp) * pow10 k)%N = d_int (rescale v (-6)).
Proof.
  intros v.
  destruct (format_f_shape 6 v ltac:(lia)) as (ip & fp0 & Hf & Hn & Hd & Hd0 & Hl & Hv).
  destruct (rstrip_zeros_split fp0) as [k Hk].
  assert (Hdf : all_digits (rstrip_chars (chars "0") fp0))
    by (now apply rstrip_chars_sub).
  remember (rstrip_chars (chars "0") fp0) as fp eqn:Efp.
  exists ip, fp, k. split; [|split; [exact Hn|split; [exact Hd|split; [exact Hdf|split]]]].
  - unfold format_decimal. rewrite Hf.
    replace (contains_char "."%ch (minus (d_sign v) ++ insert_thousands_sep ip ++ "."%ch :: fp0)) with true.
    2:{ symmetry. apply existsb_exists. exists "."%ch. split; [|reflexivity].
        apply in_or_app. right. apply in_or_app. right. now left. }
    rewrite (app_assoc (minus (d_sign v))).
    rewrite rstrip_chars_stop by reflexivity. rewrite <- Efp.
    unfold point_tail. destruct (nonempty fp) eqn:En.
    + rewrite <- app_assoc. apply rstrip_chars_id.
      apply nonempty_true in En.
      destruct (last_digit fp En Hdf) as [c [Hc1 Hc2]].
      rewrite !rev_app_distr. cbn [rev]. rewrite <- !app_assoc.
      destruct (rev fp) as [|x r]; [discriminate|]. simpl in Hc1.
      injection Hc1 as ->. change (mem_char c (chars ".") = false).
      now apply digit_not_in.
    + assert (E : fp = []) by (destruct fp; [reflexivity | discriminate]).
      rewrite E, app_nil_r. unfold rstrip_chars.
      rewrite rev_app_distr. simpl rev. simpl app. cbn [dropwhile].
      change (mem_char "."%ch (chars ".")) with true. cbv iota.
      destruct (separated_last_digit ip (minus (d_sign v)) Hn Hd) as [c [Hc1 Hc2]].
      rewrite dropwhile_head_stop; [apply rev_involutive|].
      destruct (rev (minus (d_sign v) ++ insert_thousands_sep ip)) as [|x r];
        [exact I|]. simpl in Hc1. injection Hc1 as ->.
      change (mem_char c (chars ".") = false). now apply digit_not_in.
  - rewrite <- Hl. rewrite Hk. rewrite length_app, repeat_length. reflexivity.
  - transitivity (int_of_digits (ip ++ fp0)); [|exact Hv].
    rewrite Hk. rewrite app_assoc.
    rewrite (int_of_digits_app (ip ++ fp)), int_of_zeros, repeat_length. lia.
Qed.

(** ** Reading a formatted number back *)

Lemma plain_digits : forall s, all_digits s -> plain s.
Proof.
  intros s H. induction H as [|c s Hc _ IH]; constructor; [|exact IH].
  unfold numeric_char. now rewrite Hc.
Qed.

Lemma plain_minus : forall neg, plain (minus neg).
Proof. intros [|]; repeat constructor. Qed.

Lemma plain_point_tail : forall fp, all_digits fp -> plain (point_tail fp).
Proof.
  intros fp H. unfold point_tail. destruct (nonempty fp); [|constructor].
  constructor; [reflexivity | now apply plain_digits].
Qed.

Lemma plain_app : forall a b, plain a -> plain b -> plain (a ++ b).
Proof. intros a b Ha Hb. apply Forall_app. now split. Qed.

Lemma plain_keeps : forall x s,
  numeric_char x = false -> plain s ->
  Forall (fun y => negb (N.eqb x y) = true) s.
Proof.
  intros x s Hx H. induction H as [|c s Hc _ IH]; constructor; [|exact IH].
  destruct (N.eqb x c) eqn:E; [|reflexivity].
  apply N.eqb_eq in E. subst c. congruence.
Qed.

Lemma plain_lacks : forall x s,
  numeric_char x = false -> plain s ->
  Forall (fun y => N.eqb x y = false) s.
Proof.
  intros x s Hx H. pose proof (plain_keeps x s Hx H) as K.
  induction K as [|c s Hc _ IH]; constructor.
  - now apply negb_true_iff in Hc.
  - apply IH. now inversion H.
Qed.

Lemma digits_keep : forall (f : char -> bool) s,
  (forall c, isdigit c = true -> f c = true) -> all_digits s ->
  Forall (fun x => f x = true) s.
Proof.
  intros f s Hf H. induction H as [|c s Hc _ IH]; constructor; auto.
Qed.

Lemma not_comma_digit : forall c,
  isdigit c = true -> negb (N.eqb ","%ch c) = true.
Proof.
  intros c H. destruct (N.eqb ","%ch c) eqn:E; [|reflexivity].
  apply N.eqb_eq in E. subst c. discriminate.
Qed.

Lemma sanitize_formatted : forall neg ip fp,
  ip <> [] -> all_digits ip -> all_digits fp ->
  sanitize (minus neg ++ insert_thousands_sep ip ++ point_tail fp)
  = minus neg ++ ip ++ point_tail fp.
Proof.
  intros neg ip fp Hn Hd Hf. unfold sanitize.
  change (chars ",") with [","%ch]. change (chars "$") with ["$"%ch].
  rewrite (replace_char ","%ch), !filter_app.
  rewrite (filter_keep_all _ (minus neg))
    by (apply plain_keeps; [reflexivity | apply plain_minus]).
  rewrite remove_separators
    by (reflexivity || (apply digits_keep; [apply not_comma_digit | exact Hd])).
  rewrite (filter_keep_all _ (point_tail fp))
    by (apply plain_keeps; [reflexivity | now apply plain_point_tail]).
  assert (Hp : plain (minus neg ++ ip ++ point_tail fp)).
  { apply plain_app; [apply plain_minus|].
    apply plain_app; [now apply plain_digits | now apply plain_point_tail]. }
  rewrite replace_char, filter_keep_all
    by (apply plain_keeps; [reflexivity | exact Hp]).
  change (chars "USD") with ("U"%ch :: chars "SD").
  rewrite replace_absent_head by (apply plain_lacks; [reflexivity | exact Hp]).
  apply strip_id.
  - destruct neg; simpl; [reflexivity|].
    destruct ip as [|c r]; [congruence|]. simpl. inversion Hd.
    now apply digit_not_space.
  - rewrite app_assoc, rev_app_distr. unfold point_tail.
    destruct (nonempty fp) eqn:En.
    + apply nonempty_true in En.
      destruct (last_digit fp En Hf) as [c [Hc1 Hc2]].
      simpl rev. destruct (rev fp) as [|x r]; [discriminate|].
      simpl in Hc1. injection Hc1 as ->. simpl. now apply digit_not_space.
    + simpl. rewrite rev_app_distr.
      destruct (last_digit ip Hn Hd) as [c [Hc1 Hc2]].
      destruct (rev ip) as [|x r]; [discriminate|].
      simpl in Hc1. injection Hc1 as ->. simpl. now apply digit_not_space.
Qed.

Lemma formatted_literal : forall neg ip fp,
  ip <> [] -> all_digits ip -> all_digits fp ->
  literal_value (minus neg ++ ip ++ point_tail fp)
    (mkDecimal neg (int_of_digits (ip ++ fp)) (- Z.of_nat (List.length fp))).
Proof.
  intros neg ip fp Hn Hd Hf. unfold point_tail.
  destruct (nonempty fp) eqn:En.
  - apply nonempty_true in En. now apply FractionLiteral.
  - assert (E : fp = []) by (destruct fp; [reflexivity | discriminate]).
    subst fp. rewrite !app_nil_r. now apply IntegerLiteral.
Qed.

(** ** Equality of decimals by value *)

Lemma scaled_lower : forall d m m',
  (m' <= m)%Z -> (m <= d_exp d)%Z ->
  scaled d m' = (scaled d m * 10 ^ (m - m'))%Z.
Proof.
  intros d m m' H1 H2. unfold scaled. rewrite <- Z.mul_assoc. f_equal.
  rewrite <- Z.pow_add_r by lia. f_equal. lia.
Qed.

Lemma dec_eqb_scaled : forall a b m,
  (m <= d_exp a)%Z -> (m <= d_exp b)%Z ->
  (dec_eqb a b = true <-> scaled a m = scaled b m).
Proof.
  intros a b m Ha Hb. unfold dec_eqb, dec_compare.
  set (m0 := Z.min (d_exp a) (d_exp b)).
  rewrite (scaled_lower a m0 m), (scaled_lower b m0 m) by lia.
  assert (Hpos : (10 ^ (m0 - m) <> 0)%Z) by (apply Z.pow_nonzero; lia).
  destruct (Z.compare_spec (scaled a m0) (scaled b m0)) as [E|E|E].
  - split; [intros _; now rewrite E | reflexivity].
  - split; [discriminate|]. intros H. apply (Z.mul_reg_r _ _ _ Hpos) in H. lia.
  - split; [discriminate|]. intros H. apply (Z.mul_reg_r _ _ _ Hpos) in H. lia.
Qed.

Lemma dec_eqb_trans : forall a b c,
  dec_eqb a b = true -> dec_eqb b c = true -> dec_eqb a c = true.
Proof.
  intros a b c Hab Hbc.
  set (m := Z.min (d_exp a) (Z.min (d_exp b) (d_exp c))).
  apply (dec_eqb_scaled a b m) in Hab; try lia.
  apply (dec_eqb_scaled b c m) in Hbc; try lia.
  apply (dec_eqb_scaled a c m); lia || congruence.
Qed.

Lemma dec_eqb_sym : forall a b, dec_eqb a b = true -> dec_eqb b a = true.
Proof.
  intros a b H. set (m := Z.min (d_exp a) (d_exp b)).
  apply (dec_eqb_scaled a b m) in H; try lia.
  apply (dec_eqb_scaled b a m); lia || congruence.
Qed.

Lemma dec_eqb_compat : forall a b c,
  dec_eqb a b = true -> dec_eqb a c = dec_eqb b c.
Proof.
  intros a b c H.
  destruct (dec_eqb a c) eqn:E1, (dec_eqb b c) eqn:E2; try reflexivity.
  - rewrite <- E2. symmetry. apply (dec_eqb_trans b a c); [now apply dec_eqb_sym | exact E1].
  - rewrite <- E1. apply (dec_eqb_trans a b c); assumption.
Qed.

Lemma Z_of_pow10 : forall k, Z.of_N (pow10 k) = (10 ^ Z.of_nat k)%Z.
Proof.
  intros k. unfold pow10. rewrite N2Z.inj_pow. f_equal. lia.
Qed.

Lemma read_back_equal : forall neg a c fplen k,
  (fplen + k = 6)%nat -> (a * pow10 k)%N = c ->
  dec_eqb (mkDecimal neg a (- Z.of_nat fplen)) (mkDecimal neg c (-6)) = true.
Proof.
  intros neg a c fplen k Hl Hc.
  apply (dec_eqb_scaled _ _ (-6)%Z); simpl; try lia.
  unfold scaled, signed. simpl. subst c.
  rewrite N2Z.inj_mul, Z_of_pow10.
  replace (- Z.of_nat fplen - -6)%Z with (Z.of_nat k) by lia.
  replace (-6 - -6)%Z with 0%Z by lia.
  destruct neg; simpl; lia.
Qed.

Lemma rescale_exact : forall v e,
  (e <= d_exp v)%Z -> dec_eqb (rescale v e) v = true.
Proof.
  intros [s c x] e H. simpl in H.
  apply (dec_eqb_scaled _ _ e); rewrite ?rescale_exp; simpl; try lia.
  unfold rescale. simpl.
  destruct (c =? 0)%N eqn:E.
  - apply N.eqb_eq in E. subst c. unfold scaled, signed. simpl.
    destruct s; simpl; lia.
  - apply Z.leb_le in H. rewrite H. unfold scaled, signed. simpl.
    rewrite N2Z.inj_mul, N2Z.inj_pow. rewrite Z2N.id by lia.
    replace (e - e)%Z with 0%Z by lia. simpl Z.of_N.
    destruct s; simpl; lia.
Qed.

(** C5, as amended.  Formatting a decimal with the display formatter and
    parsing the text back always succeeds and gives the value rounded
    half-even to six fractional digits, whatever zeros were trimmed; it is
    equal to the original value exactly when that rounding leaves the
    value as it is, which is so for every value with at most six
    fractional digits. *)
Theorem format_then_parse_rounds_to_six_places : forall v,
  exists d,
    parse_decimal_from_text (Some (format_decimal v)) = Some d /\
    dec_eqb d (rescale v (-6)) = true /\
    dec_eqb d v = dec_eqb (rescale v (-6)) v /\
    ((-6 <= d_exp v)%Z -> dec_eqb d v = true).
Proof.
  intros v.
  destruct (format_decimal_shape v) as (ip & fp & k & Hf & Hn & Hd & Hdf & Hl & Hv).
  exists (mkDecimal (d_sign v) (int_of_digits (ip ++ fp))
                    (- Z.of_nat (List.length fp))).
  assert (Heq : dec_eqb (mkDecimal (d_sign v) (int_of_digits (ip ++ fp))
                                   (- Z.of_nat (List.length fp)))
                        (rescale v (-6)) = true).
  { pose proof (rescale_sign v (-6)) as Hs. pose proof (rescale_exp v (-6)) as He.
    destruct (rescale v (-6)) as [s c e]. simpl in *. subst s e c.
    now apply (read_back_equal _ _ _ _ k). }
  split; [|split; [exact Heq | split]].
  - apply (parse_literal _ (minus (d_sign v) ++ ip ++ point_tail fp)).
    + rewrite Hf. now apply sanitize_formatted.
    + now apply formatted_literal.
  - now apply dec_eqb_compat.
  - intros He. rewrite (dec_eqb_compat _ _ v Heq). now apply rescale_exact.
Qed.

Lemma format_then_parse_examples :
  format_decimal (mkDecimal false 1234550 (-2)) = chars "12,345.5" /\
  parse_decimal_from_text (Some (chars "12,345.5"))
    = Some (mkDecimal false 123455 (-1)) /\
  dec_eqb (mkDecimal false 123455 (-1)) (mkDecimal false 1234550 (-2)) = true /\
  format_decimal (mkDecimal true 3000 0) = chars "-3,000" /\
  format_decimal (mkDecimal true 1 (-7)) = chars "-0" /\
  format_decimal (mkDecimal false 12 5) = chars "1,200,000".
Proof. repeat split; vm_compute; reflexivity. Qed.

(** The store allows assignment: the frame statements say something. *)
Lemma setattr_changes_the_store :
  snd (setattr 0 pos_50000 [pos_60000]) = [pos_50000].
Proof. reflexivity. Qed.

(** * Further properties of the code *)

(** ** The parser and the digits of its text *)

Lemma has_digit_In : forall s,
  has_digit s = true <-> exists c, In c s /\ isdigit c = true.
Proof. intros s. apply existsb_exists. Qed.

Lemma single_digit_literal : forall c, isdigit c = true -> numeric_literal [c].
Proof.
  intros c H. exists (mkDecimal false (int_of_digits [c]) 0).
  apply (IntegerLiteral false); [discriminate | now constructor].
Qed.

Lemma literal_has_digit : forall m, numeric_literal m -> has_digit m = true.
Proof.
  intros m [d H]. apply has_digit_In.
  destruct H as [neg ip Hn Hd | neg ip fp Hn Hd _ _];
    (destruct ip as [|c r]; [congruence|]; exists c; split;
     [apply in_or_app; right; now left | now inversion Hd]).
Qed.

Lemma search_none_iff_no_digit : forall s,
  search NUMERIC_PATTERN s = None <-> has_digit s = false.
Proof.
  intros s. split.
  - intros H. destruct (has_digit s) eqn:E; [|reflexivity]. exfalso.
    apply has_digit_In in E. destruct E as [c [Hc Hd]].
    apply in_split in Hc. destruct Hc as [pre [post ->]].
    apply (search_numeric_none _ H pre [c] post); [reflexivity|].
    now apply single_digit_literal.
  - intros H. destruct (search NUMERIC_PATTERN s) as [m|] eqn:E; [|reflexivity].
    exfalso. apply search_numeric_some in E.
    destruct E as [pre [post [-> [Hl _]]]].
    apply literal_has_digit, has_digit_In in Hl. destruct Hl as [c [Hc Hd]].
    assert (Hs : has_digit (pre ++ m ++ post) = true).
    { apply has_digit_In. exists c. split; [|exact Hd].
      apply in_or_app. right. apply in_or_app. now left. }
    congruence.
Qed.

Lemma parse_none_iff_search : forall raw,
  parse_decimal_from_text (Some raw) = None <->
  search NUMERIC_PATTERN (sanitize raw) = None.
Proof.
  intros raw. unfold parse_decimal_from_text.
  destruct (search NUMERIC_PATTERN (sanitize raw)) as [m|] eqn:E;
    [|split; reflexivity].
  apply search_numeric_some in E. destruct E as [pre [post [_ [[d Hl] _]]]].
  rewrite (Decimal_of_literal m d Hl). split; discriminate.
Qed.

Lemma In_dropwhile_keep : forall (p : char -> bool) c s,
  In c s -> p c = false -> In c (dropwhile p s).
Proof.
  intros p c. induction s as [|x s IH]; simpl; [tauto|].
  intros [->|H] Hc.
  - rewrite Hc. now left.
  - destruct (p x); [now apply IH | now right].
Qed.

Lemma In_strip_keep : forall c s, In c s -> isspace c = false -> In c (strip s).
Proof.
  intros c s H Hc. unfold strip, rstrip, lstrip.
  rewrite <- in_rev. apply In_dropwhile_keep; [|exact Hc].
  rewrite <- in_rev. now apply In_dropwhile_keep.
Qed.

Lemma starts_with_firstn : forall p s,
  starts_with p s = true -> firstn (List.length p) s = p.
Proof.
  induction p as [|x p IH]; intros [|y s]; simpl; try discriminate;
    [reflexivity | reflexivity |].
  intros H. apply andb_true_iff in H. destruct H as [H1 H2].
  apply N.eqb_eq in H1. subst y. f_equal. now apply IH.
Qed.

(** A character that is not part of [old] survives [replace]. *)
Lemma In_replace_keep : forall old new c s k,
  old <> [] -> ~ In c old ->
  (forall x, In x (firstn k s) -> In x old) ->
  In c s -> In c (replace_from old new k s).
Proof.
  intros old new c. induction s as [|x s IH]; intros k Ho Hc Hk Hin;
    [destruct Hin|].
  destruct k as [|k]; cbn [replace_from].
  - destruct (starts_with old (x :: s)) eqn:E.
    + destruct old as [|x0 old']; [congruence|].
      pose proof (starts_with_firstn _ _ E) as F. simpl in F.
      injection F as F0 F. subst x0.
      apply in_or_app. right. apply (IH _ Ho Hc).
      * simpl. rewrite Nat.sub_0_r, F. intros y Hy. now right.
      * destruct Hin as [->|Hin]; [|exact Hin]. exfalso. apply Hc. now left.
    + destruct Hin as [->|Hin]; [now left|]. right.
      apply (IH _ Ho Hc); [simpl; tauto | exact Hin].
  - assert (Hx : In x old) by (apply Hk; simpl; now left).
    destruct Hin as [->|Hin]; [contradiction|].
    apply (IH _ Ho Hc); [|exact Hin]. intros y Hy. apply Hk. simpl. now right.
Qed.

Lemma digit_survives : forall c raw,
  In c raw -> isdigit c = true -> In c (sanitize raw).
Proof.
  intros c raw H Hd. unfold sanitize.
  apply In_strip_keep; [|now apply digit_not_space].
  assert (K : forall old s, old <> [] -> forallb (fun x => negb (isdigit x)) old = true ->
              In c s -> In c (replace old [] s)).
  { intros old s Ho Hn Hs. unfold replace. apply In_replace_keep; try assumption.
    - intros Hc. rewrite forallb_forall in Hn. specialize (Hn c Hc).
      now rewrite Hd in Hn.
    - simpl. tauto. }
  apply K; [discriminate | reflexivity|].
  apply K; [discriminate | reflexivity|].
  apply K; [discriminate | reflexivity | exact H].
Qed.

Lemma sanitize_sub : forall c raw, In c (sanitize raw) -> In c raw.
Proof.
  intros c raw H. unfold sanitize in H.
  apply In_strip in H. unfold replace in H.
  now apply In_replace_del, In_replace_del, In_replace_del in H.
Qed.

Lemma has_digit_sanitize : forall raw, has_digit (sanitize raw) = has_digit raw.
Proof.
  intros raw. destruct (has_digit raw) eqn:E.
  - apply has_digit_In in E. destruct E as [c [Hc Hd]].
    apply has_digit_In. exists c. split; [now apply digit_survives | exact Hd].
  - destruct (has_digit (sanitize raw)) eqn:E'; [|reflexivity].
    apply has_digit_In in E'. destruct E' as [c [Hc Hd]].
    apply sanitize_sub in Hc.
    assert (has_digit raw = true) by (apply has_digit_In; now exists c).
    congruence.
Qed.

(** X1. The parser gives the absent value exactly when its text has no
    decimal digit, of ASCII or of any other script; any text with a
    digit, whatever surrounds it, parses to a number. *)
Theorem parse_absent_iff_no_digit : forall raw,
  parse_decimal_from_text (Some raw) = None <-> has_digit raw = false.
Proof.
  intros raw. rewrite parse_none_iff_search, search_none_iff_no_digit.
  now rewrite has_digit_sanitize.
Qed.

Lemma sanitize_skip_comma : forall a b,
  sanitize (a ++ chars "," ++ b) = sanitize (a ++ b).
Proof.
  intros a b. unfold sanitize. do 3 f_equal.
  change (chars ",") with [","%ch]. rewrite !replace_char, !filter_app.
  reflexivity.
Qed.

Lemma sanitize_skip_dollar : forall a b,
  sanitize (a ++ chars "$" ++ b) = sanitize (a ++ b).
Proof.
  intros a b. unfold sanitize. do 2 f_equal.
  change (chars ",") with [","%ch]. change (chars "$") with ["$"%ch].
  rewrite !replace_char, !filter_app. reflexivity.
Qed.

(** X2. A comma or a dollar sign changes nothing wherever it stands:
    the text with it and the text without it parse alike. *)
Theorem separators_do_not_count : forall a b,
  parse_decimal_from_text (Some (a ++ chars "," ++ b))
    = parse_decimal_from_text (Some (a ++ b)) /\
  parse_decimal_from_text (Some (a ++ chars "$" ++ b))
    = parse_decimal_from_text (Some (a ++ b)).
Proof.
  intros a b. unfold parse_decimal_from_text.
  now rewrite sanitize_skip_comma, sanitize_skip_dollar.
Qed.

(** ** Amounts formatted as currency *)

Lemma sanitize_skip_leading_dollar : forall s,
  sanitize (chars "$" ++ s) = sanitize s.
Proof. intros s. apply (sanitize_skip_dollar [] s). Qed.

(** X3. An amount formatted as currency parses back to the amount
    rounded half-even to two fractional digits, whatever its size and
    sign: the dollar sign and the thousands separators of the formatter
    are the ones the parser removes. *)
Theorem format_currency_parses_back : forall v,
  parse_decimal_from_text (Some (format_currency v)) = Some (rescale v (-2)).
Proof.
  intros v. unfold format_currency.
  destruct (format_f_shape 2 v ltac:(lia)) as (ip & fp & Hf & Hn & Hd & Hdf & Hl & Hv).
  assert (Hp : point_tail fp = "."%ch :: fp).
  { unfold point_tail. destruct fp; [discriminate | reflexivity]. }
  apply (parse_literal _ (minus (d_sign v) ++ ip ++ point_tail fp)).
  - rewrite sanitize_skip_leading_dollar, Hf, <- Hp.
    now apply sanitize_formatted.
  - pose proof (formatted_literal (d_sign v) ip fp Hn Hd Hdf) as L.
    rewrite Hl, Hv in L.
    pose proof (rescale_sign v (-2)) as Hs. pose proof (rescale_exp v (-2)) as He.
    change (- Z.of_nat 2)%Z with (-2)%Z in L.
    destruct (rescale v (-2)) as [s c e]. simpl in *. subst s e. exact L.
Qed.

(** ** How large a parsed number can be *)

Lemma digit_val_le : forall c, isdigit c = true -> (digit_val c <= 9)%N.
Proof.
  intros c H. unfold isdigit in H. unfold digit_val.
  destruct (decimal_value c) as [d|] eqn:E; [|discriminate].
  apply decimal_value_lt in E. lia.
Qed.

Lemma int_of_digits_lt : forall ds,
  all_digits ds -> (int_of_digits ds < pow10 (List.length ds))%N.
Proof.
  induction ds as [|c ds IH]; intros H.
  - unfold int_of_digits, pow10. simpl. lia.
  - inversion H as [|? ? Hc Hd]; subst. specialize (IH Hd).
    rewrite int_of_digits_cons. simpl List.length. rewrite pow10_S.
    pose proof (digit_val_le c Hc). nia.
Qed.

Lemma pow10_mono : forall j k, (j <= k)%nat -> (pow10 j <= pow10 k)%N.
Proof.
  intros j k H. unfold pow10. apply N.pow_le_mono_r; lia.
Qed.

Lemma length_dropwhile : forall p s,
  (List.length (dropwhile p s) <= List.length s)%nat.
Proof.
  induction s as [|c s IH]; simpl; [lia|]. destruct (p c); simpl; lia.
Qed.

Lemma length_strip : forall s, (List.length (strip s) <= List.length s)%nat.
Proof.
  intros s. unfold strip, rstrip, lstrip. rewrite length_rev.
  pose proof (length_dropwhile isspace (rev (dropwhile isspace s))).
  rewrite length_rev in H. pose proof (length_dropwhile isspace s). lia.
Qed.

Lemma length_replace_del : forall old s k,
  (List.length (replace_from old [] k s) <= List.length s)%nat.
Proof.
  induction s as [|c s IH]; intros k; simpl; [lia|].
  destruct k as [|k].
  - destruct (starts_with old (c :: s)); simpl;
      [specialize (IH (List.length old - 1)%nat) | specialize (IH 0%nat)]; lia.
  - specialize (IH k). lia.
Qed.

Lemma length_sanitize : forall raw,
  (List.length (sanitize raw) <= List.length raw)%nat.
Proof.
  intros raw. unfold sanitize, replace.
  pose proof (length_strip (replace_from (chars "USD") [] 0
    (replace_from (chars "$") [] 0 (replace_from (chars ",") [] 0 raw)))).
  pose proof (length_replace_del (chars "USD") 
    (replace_from (chars "$") [] 0 (replace_from (chars ",") [] 0 raw)) 0).
  pose proof (length_replace_del (chars "$") (replace_from (chars ",") [] 0 raw) 0).
  pose proof (length_replace_del (chars ",") raw 0). lia.
Qed.

Lemma literal_bounds : forall m d,
  literal_value m d ->
  (d_exp d <= 0)%Z /\ (- Z.of_nat (List.length m) <= d_exp d)%Z /\
  (d_int d < pow10 (List.length m))%N.
Proof.
  intros m d H. destruct H as [neg ip Hn Hd | neg ip fp Hn Hd Hfn Hfd];
    cbn [d_exp d_int].
  - split; [lia|]. split; [lia|].
    eapply N.lt_le_trans; [apply int_of_digits_lt, Hd|].
    apply pow10_mono. rewrite length_app. lia.
  - assert (Hlen : (List.length (ip ++ fp)
                    <= List.length (minus neg ++ ip ++ "."%ch :: fp))%nat).
    { rewrite !length_app. cbn [List.length]. lia. }
    assert (Hfp : (List.length fp <= List.length (ip ++ fp))%nat)
      by (rewrite length_app; lia).
    split; [lia|]. split; [lia|].
    eapply N.lt_le_trans;
      [apply int_of_digits_lt, all_digits_app; assumption|].
    now apply pow10_mono.
Qed.

Lemma parse_bounds : forall raw d,
  parse_decimal_from_text (Some raw) = Some d ->
  (d_exp d <= 0)%Z /\ (- Z.of_nat (List.length raw) <= d_exp d)%Z /\
  (d_int d < pow10 (List.length raw))%N.
Proof.
  intros raw d H. unfold parse_decimal_from_text in H.
  destruct (search NUMERIC_PATTERN (sanitize raw)) as [m|] eqn:E; [|discriminate].
  apply search_numeric_some in E. destruct E as [pre [post [Hs [[d' Hl] _]]]].
  rewrite (Decimal_of_literal m d' Hl) in H. injection H as <-.
  destruct (literal_bounds m d' Hl) as (B1 & B2 & B3).
  assert (Hlen : (List.length m <= List.length raw)%nat).
  { pose proof (length_sanitize raw) as L. rewrite Hs, !length_app in L. lia. }
  split; [exact B1|]. split; [lia|].
  eapply N.lt_le_trans; [exact B3 | now apply pow10_mono].
Qed.

Lemma length_digits_from : forall fuel n acc k,
  (n < pow10 (S k))%N ->
  (List.length (digits_from fuel n acc) <= S k + List.length acc)%nat.
Proof.
  induction fuel as [|fuel IH]; intros n acc k H; simpl; [lia|].
  destruct (n / 10 =? 0)%N eqn:E; [simpl; lia|].
  apply N.eqb_neq in E. destruct k as [|k].
  - exfalso. apply E. apply N.div_small. change (pow10 1) with 10%N in H. lia.
  - assert (Hq : (n / 10 < pow10 (S k))%N).
    { apply N.Div0.div_lt_upper_bound. now rewrite <- pow10_S. }
    specialize (IH (n / 10)%N (digit_char (n mod 10) :: acc) k Hq).
    simpl in IH. lia.
Qed.

Lemma ndigits_le : forall n k,
  (n < pow10 (S k))%N -> (ndigits n <= Z.of_nat (S k))%Z.
Proof.
  intros n k H. unfold ndigits, str_of_int.
  pose proof (length_digits_from (S (N.to_nat (N.log2 n))) n [] k H) as L.
  change (List.length (@nil char)) with 0%nat in L. lia.
Qed.

Lemma pow10_add : forall j k, pow10 (j + k) = (pow10 j * pow10 k)%N.
Proof.
  intros j k. unfold pow10. rewrite Nat2N.inj_add. apply N.pow_add_r.
Qed.

(** X4. When the size cell and the mark-price cell of a row have at most
    14 characters each, the position built from the row has an exact
    position value: the product of the two numbers, not rounded and not
    out of range. *)
Theorem short_cells_give_exact_values : forall row p,
  build_row row = Some p ->
  (List.length (cell row 2) <= 14)%nat ->
  (List.length (cell row 3) <= 14)%nat ->
  position_value p = inr (mul_exact (size p) (mark_price p)) /\
  absolute_position_value p
    = inr (copy_abs (mul_exact (size p) (mark_price p))).
Proof.
  intros row p H L2 L3.
  apply build_row_iff in H. destruct H as (_ & _ & _ & _ & Hs & Hm).
  destruct (parse_bounds _ _ Hs) as (S1 & S2 & S3).
  destruct (parse_bounds _ _ Hm) as (M1 & M2 & M3).
  assert (Hfit : fits_context p).
  { unfold fits_context, mul_exact. simpl. split.
    - change prec with (Z.of_nat (S 27)). apply ndigits_le.
      change (S 27) with (14 + 14)%nat. rewrite pow10_add.
      pose proof (pow10_mono _ _ L2). pose proof (pow10_mono _ _ L3).
      pose proof (pow10_pos 14).
      apply N.mul_lt_mono; lia.
    - unfold Etiny, Emin, prec. lia. }
  split; [|now apply value_exact].
  unfold position_value, dec_mul. destruct Hfit as [F1 F2].
  now apply fix_exact.
Qed.

(** ** The evaluator and the sign of a position *)

Lemma fix_sign : forall s s' c e,
  fix_ (mkDecimal s c e) =
  match fix_ (mkDecimal s' c e) with
  | inr d => inr (mkDecimal s (d_int d) (d_exp d))
  | inl x => inl x
  end.
Proof.
  intros s s' c e. unfold fix_. cbn [d_sign d_int d_exp].
  destruct (c =? 0)%N; [reflexivity|].
  destruct (Etop <? ndigits c + e - prec)%Z; [reflexivity|].
  destruct (e <? Z.max (ndigits c + e - prec) Etiny)%Z; [|reflexivity].
  destruct (prec <? ndigits (round_half_even c (Z.max (ndigits c + e - prec) Etiny - e)))%Z;
    (destruct (Etop <? _)%Z; reflexivity).
Qed.

Lemma absolute_value_sign : forall s s' c e,
  match fix_ (mkDecimal s c e) with
  | inr v => inr (copy_abs v)
  | inl x => inl x
  end
  = match fix_ (mkDecimal s' c e) with
    | inr v => @inr signal Decimal (copy_abs v)
    | inl x => inl x
    end.
Proof.
  intros s s' c e. rewrite (fix_sign s s' c e).
  destruct (fix_ (mkDecimal s' c e)); reflexivity.
Qed.

(** X5. The side of a position does not matter to the evaluator: a
    position and the one with the opposite size, or the opposite mark
    price, have the same absolute position value, so either both are
    selected or neither is. *)
Theorem opposite_positions_are_treated_alike : forall threshold c l s m,
  absolute_position_value (mkPosition c l (copy_negate s) m)
    = absolute_position_value (mkPosition c l s m) /\
  absolute_position_value (mkPosition c l s (copy_negate m))
    = absolute_position_value (mkPosition c l s m) /\
  exceeds threshold (mkPosition c l (copy_negate s) m)
    = exceeds threshold (mkPosition c l s m) /\
  exceeds threshold (mkPosition c l s (copy_negate m))
    = exceeds threshold (mkPosition c l s m).
Proof.
  intros threshold c l s m.
  assert (H1 : absolute_position_value (mkPosition c l (copy_negate s) m)
               = absolute_position_value (mkPosition c l s m)).
  { unfold absolute_position_value, position_value, dec_mul, mul_exact.
    cbn [size mark_price copy_negate d_sign d_int d_exp].
    apply absolute_value_sign. }
  assert (H2 : absolute_position_value (mkPosition c l s (copy_negate m))
               = absolute_position_value (mkPosition c l s m)).
  { unfold absolute_position_value, position_value, dec_mul, mul_exact.
    cbn [size mark_price copy_negate d_sign d_int d_exp].
    apply absolute_value_sign. }
  unfold exceeds. rewrite H1, H2. repeat split; reflexivity.
Qed.

(** ** The message *)

Lemma value_defined : forall p,
  absolute_position_value p <> inl Overflow ->
  exists v, position_value p = inr v /\ absolute_position_value p = inr (copy_abs v).
Proof.
  intros p H. unfold absolute_position_value in *.
  destruct (position_value p) as [[]|v]; [congruence | now exists v].
Qed.

Lemma alert_block_defined : forall p,
  absolute_position_value p <> inl Overflow ->
  exists c v a,
    alert_block p =
    inr [ chars "- Coin: " ++ coin p; c;
          chars "  Size: " ++ format_decimal (size p);
          chars "  Mark Price: " ++ format_currency (mark_price p);
          chars "  Position Value (Size × Mark): " ++ v;
          chars "  Absolute Value: " ++ a; [] ] /\
    starts_with (chars "- Coin: ") c = false.
Proof.
  intros p H. destruct (value_defined p H) as [v [Hv Ha]].
  unfold alert_block. rewrite Ha, Hv. cbn [bind].
  eexists _, _, _. split; [reflexivity|].
  destruct (nonempty (leverage p)); reflexivity.
Qed.

Lemma starts_with_app : forall p s, starts_with p (p ++ s) = true.
Proof.
  induction p as [|c p IH]; intros s; simpl; [reflexivity|].
  now rewrite N.eqb_refl, IH.
Qed.

Lemma alert_blocks_defined : forall l,
  (forall p, In p l -> absolute_position_value p <> inl Overflow) ->
  exists blocks,
    alert_blocks l = inr blocks /\
    List.length blocks = (7 * List.length l)%nat /\
    filter (starts_with (chars "- Coin: ")) blocks
      = map (fun p => chars "- Coin: " ++ coin p) l.
Proof.
  induction l as [|p l IH]; intros H.
  - exists []. repeat split.
  - destruct IH as (blocks & Hb & Hlen & Hf); [intros q Hq; apply H; now right|].
    destruct (alert_block_defined p) as (c & v & a & Hp & Hc);
      [apply H; now left|].
    cbn [alert_blocks]. rewrite Hp, Hb. cbn [bind].
    eexists. split; [reflexivity|]. split.
    + rewrite length_app, Hlen. simpl. lia.
    + rewrite filter_app, Hf. cbn [filter map].
      rewrite starts_with_app, Hc. reflexivity.
Qed.

Lemma join_cons2 : forall sep a b r,
  join sep (a :: b :: r) = a ++ sep ++ join sep (b :: r).
Proof. reflexivity. Qed.

Lemma join_snoc : forall sep xs f,
  xs <> [] -> join sep (xs ++ [f]) = join sep xs ++ sep ++ f.
Proof.
  intros sep. induction xs as [|a xs IH]; intros f H; [congruence|].
  destruct xs as [|b xs]; [reflexivity|].
  change ((a :: b :: xs) ++ [f]) with (a :: (b :: xs) ++ [f]).
  change ((b :: xs) ++ [f]) with (b :: (xs ++ [f])) at 1.
  rewrite join_cons2.
  change (b :: (xs ++ [f])) with ((b :: xs) ++ [f]).
  rewrite IH by discriminate. rewrite join_cons2, <- !app_assoc. reflexivity.
Qed.

Lemma alert_body_untrimmed : forall threshold blocks,
  strip (join [newline] (alert_head threshold ++ blocks ++ alert_foot))
  = join [newline] (alert_head threshold ++ blocks ++ alert_foot).
Proof.
  intros threshold blocks. apply strip_id.
  - unfold alert_head. cbn [app]. rewrite join_cons2. reflexivity.
  - rewrite app_assoc. unfold alert_foot. rewrite join_snoc.
    + rewrite !rev_app_distr. reflexivity.
    + unfold alert_head. discriminate.
Qed.

Lemma build_alert_body_eq : forall threshold l blocks,
  alert_blocks l = inr blocks ->
  build_alert_body threshold l
  = inr (join [newline] (alert_head threshold ++ blocks ++ alert_foot)).
Proof.
  intros threshold l blocks H. unfold build_alert_body. rewrite H. cbn [bind].
  f_equal. apply (alert_body_untrimmed threshold blocks).
Qed.

(** *** The lines of the body *)

Lemma split_on_one_line : forall sep s, ~ In sep s -> split_on sep s = [s].
Proof.
  intros sep. induction s as [|c s IH]; intros H; [reflexivity|].
  cbn [split_on]. destruct (N.eqb_spec c sep) as [->|Hne].
  - exfalso. apply H. now left.
  - rewrite IH; [reflexivity|]. intros Hin. apply H. now right.
Qed.

Lemma split_on_app : forall sep a rest,
  ~ In sep a -> split_on sep (a ++ sep :: rest) = a :: split_on sep rest.
Proof.
  intros sep. induction a as [|c a IH]; intros rest H.
  - cbn [app split_on]. now rewrite N.eqb_refl.
  - change ((c :: a) ++ sep :: rest) with (c :: (a ++ sep :: rest)).
    cbn [split_on]. destruct (N.eqb_spec c sep) as [->|Hne].
    + exfalso. apply H. now left.
    + rewrite IH; [reflexivity|]. intros Hin. apply H. now right.
Qed.

Lemma split_on_join : forall sep lines,
  lines <> [] -> (forall l, In l lines -> ~ In sep l) ->
  split_on sep (join [sep] lines) = lines.
Proof.
  intros sep. induction lines as [|l rest IH]; intros Hn H; [congruence|].
  destruct rest as [|l2 rest].
  - cbn [join]. apply split_on_one_line. apply H. now left.
  - rewrite join_cons2. change ([sep] ++ join [sep] (l2 :: rest))
      with (sep :: join [sep] (l2 :: rest)).
    rewrite split_on_app by (apply H; now left).
    rewrite IH; [reflexivity | discriminate |].
    intros l' Hl'. apply H. now right.
Qed.

Lemma one_line_mem : forall s, mem_char newline s = false -> one_line s.
Proof.
  intros s H Hin. unfold mem_char in H.
  assert (E : existsb (N.eqb newline) s = true).
  { apply existsb_exists. exists newline. split; [exact Hin | apply N.eqb_refl]. }
  congruence.
Qed.

Lemma one_line_app : forall a b, one_line a -> one_line b -> one_line (a ++ b).
Proof.
  intros a b Ha Hb Hin. apply in_app_or in Hin.
  destruct Hin as [Hin|Hin]; [now apply Ha | now apply Hb].
Qed.

Lemma one_line_digits : forall s, all_digits s -> one_line s.
Proof.
  intros s H Hin. unfold all_digits in H. rewrite Forall_forall in H.
  specialize (H _ Hin). discriminate.
Qed.

Lemma group3_rev_In : forall n r c,
  (List.length r <= n)%nat -> In c (group3_rev r) -> c = ","%ch \/ In c r.
Proof.
  induction n as [|n IH]; intros r c Hn H.
  - destruct r; [now right | simpl in Hn; lia].
  - destruct r as [|x [|y [|z [|u r]]]]; try (now right).
    change (group3_rev (x :: y :: z :: u :: r))
      with (x :: y :: z :: ","%ch :: group3_rev (u :: r)) in H.
    destruct H as [<-|[<-|[<-|[<-|H]]]].
    + right. now left.
    + right. right. now left.
    + right. right. right. now left.
    + now left.
    + apply IH in H; [|simpl in *; lia].
      destruct H as [H|H]; [now left|]. right. right. right. now right.
Qed.

Lemma one_line_separated : forall ds,
  one_line ds -> one_line (insert_thousands_sep ds).
Proof.
  intros ds H Hin. unfold insert_thousands_sep in Hin.
  apply in_rev in Hin.
  apply (group3_rev_In (List.length (rev ds))) in Hin; [|lia].
  destruct Hin as [Hin|Hin]; [discriminate|].
  apply H. now apply in_rev.
Qed.

Lemma format_f_one_line : forall places v,
  (0 < places)%nat -> one_line (format_f places v).
Proof.
  intros places v Hp.
  destruct (format_f_shape places v Hp) as (ip & fp & -> & _ & Hi & Hf & _).
  apply one_line_app; [destruct (d_sign v); now apply one_line_mem|].
  apply one_line_app; [now apply one_line_separated, one_line_digits|].
  change ("."%ch :: fp) with (["."%ch] ++ fp).
  apply one_line_app; [now apply one_line_mem | now apply one_line_digits].
Qed.

Lemma format_currency_one_line : forall v, one_line (format_currency v).
Proof.
  intros v. unfold format_currency.
  apply one_line_app; [now apply one_line_mem|].
  apply format_f_one_line. lia.
Qed.

Lemma rstrip_chars_In : forall set c s, In c (rstrip_chars set s) -> In c s.
Proof.
  intros set c s H. unfold rstrip_chars in H. apply in_rev in H.
  apply In_dropwhile in H. now apply in_rev.
Qed.

Lemma format_decimal_one_line : forall v, one_line (format_decimal v).
Proof.
  intros v. assert (H : one_line (format_f 6 v)) by (apply format_f_one_line; lia).
  unfold format_decimal.
  destruct (contains_char "."%ch (format_f 6 v)); [|exact H].
  intros Hin. apply H. now apply rstrip_chars_In, rstrip_chars_In in Hin.
Qed.

Lemma alert_block_shape : forall p block,
  alert_block p = inr block ->
  exists v a,
    block =
    [ chars "- Coin: " ++ coin p;
      chars "  Leverage: " ++
        (if nonempty (leverage p) then leverage p else chars "N/A");
      chars "  Size: " ++ format_decimal (size p);
      chars "  Mark Price: " ++ format_currency (mark_price p);
      chars "  Position Value (Size × Mark): " ++ format_currency v;
      chars "  Absolute Value: " ++ format_currency a;
      [] ].
Proof.
  intros p block H. unfold alert_block in H.
  destruct (position_value p) as [e|v]; [discriminate|].
  destruct (absolute_position_value p) as [e|a]; [discriminate|].
  cbn [bind] in H. exists v, a. injection H as H. symmetry. exact H.
Qed.

Lemma alert_block_lines : forall p block,
  alert_block p = inr block ->
  one_line (coin p) -> one_line (leverage p) ->
  List.length block = 7%nat /\
  (forall line, In line block -> one_line line) /\
  filter (starts_with (chars "- Coin: ")) block = [chars "- Coin: " ++ coin p].
Proof.
  intros p block H Hc Hl.
  destruct (alert_block_shape p block H) as (v & a & ->).
  split; [reflexivity|]. split.
  - intros line [<-|[<-|[<-|[<-|[<-|[<-|[<-|[]]]]]]]].
    + apply (one_line_app (chars "- Coin: ") (coin p));
        [now apply one_line_mem | exact Hc].
    + apply (one_line_app (chars "  Leverage: ")
               (if nonempty (leverage p) then leverage p else chars "N/A"));
        [now apply one_line_mem|].
      destruct (nonempty (leverage p)); [exact Hl | now apply one_line_mem].
    + apply (one_line_app (chars "  Size: ") (format_decimal (size p)));
        [now apply one_line_mem | apply format_decimal_one_line].
    + apply (one_line_app (chars "  Mark Price: ")
               (format_currency (mark_price p)));
        [now apply one_line_mem | apply format_currency_one_line].
    + apply (one_line_app (chars "  Position Value (Size × Mark): ")
               (format_currency v));
        [now apply one_line_mem | apply format_currency_one_line].
    + apply (one_line_app (chars "  Absolute Value: ") (format_currency a));
        [now apply one_line_mem | apply format_currency_one_line].
    + intros [].
  - cbn [filter]. rewrite starts_with_app.
    destruct (nonempty (leverage p)); reflexivity.
Qed.

Lemma alert_blocks_lines : forall l,
  (forall p, In p l -> absolute_position_value p <> inl Overflow) ->
  (forall p, In p l -> one_line (coin p) /\ one_line (leverage p)) ->
  exists blocks,
    alert_blocks l = inr blocks /\
    List.length blocks = (7 * List.length l)%nat /\
    (forall line, In line blocks -> one_line line) /\
    filter (starts_with (chars "- Coin: ")) blocks
      = map (fun p => chars "- Coin: " ++ coin p) l.
Proof.
  induction l as [|p l IH]; intros H Hone.
  - exists []. repeat split. intros line [].
  - destruct IH as (blocks & Hb & Hlen & Hlines & Hf);
      [intros q Hq; apply H; now right | intros q Hq; apply Hone; now right|].
    destruct (alert_block_defined p) as (c & v & a & Hp & _);
      [apply H; now left|].
    destruct (Hone p ltac:(now left)) as [Hc Hl].
    destruct (alert_block_lines p _ Hp Hc Hl) as (L7 & Hl7 & Hf7).
    cbn [alert_blocks]. rewrite Hp, Hb. cbn [bind].
    eexists. split; [reflexivity|]. split; [|split].
    + rewrite length_app, Hlen, L7. cbn [List.length]. lia.
    + intros line Hin. apply in_app_or in Hin.
      destruct Hin as [Hin|Hin]; [now apply Hl7 | now apply Hlines].
    + rewrite filter_app, Hf, Hf7. reflexivity.
Qed.

Lemma alert_body_lines : forall threshold l,
  (forall p, In p l -> absolute_position_value p <> inl Overflow) ->
  (forall p, In p l -> one_line (coin p) /\ one_line (leverage p)) ->
  exists blocks body,
    alert_blocks l = inr blocks /\
    build_alert_body threshold l = inr body /\
    split_on newline body = alert_head threshold ++ blocks ++ alert_foot /\
    List.length blocks = (7 * List.length l)%nat /\
    filter (starts_with (chars "- Coin: ")) (split_on newline body)
      = map (fun p => chars "- Coin: " ++ coin p) l.
Proof.
  intros threshold l H Hone.
  destruct (alert_blocks_lines l H Hone) as (blocks & Hb & Hlen & Hlines & Hf).
  exists blocks, (join [newline] (alert_head threshold ++ blocks ++ alert_foot)).
  split; [exact Hb|]. split; [now apply build_alert_body_eq|].
  assert (Hs : split_on newline
                 (join [newline] (alert_head threshold ++ blocks ++ alert_foot))
               = alert_head threshold ++ blocks ++ alert_foot).
  { apply split_on_join; [discriminate|].
    intros line Hin. apply in_app_or in Hin. destruct Hin as [Hin|Hin].
    - destruct Hin as [<-|[<-|[<-|[<-|[]]]]].
      + now apply one_line_mem.
      + intros [].
      + apply one_line_app; [now apply one_line_mem|].
        apply one_line_app; [apply format_currency_one_line|].
        now apply one_line_mem.
      + intros [].
    - apply in_app_or in Hin. destruct Hin as [Hin|Hin]; [now apply Hlines|].
      destruct Hin as [<-|[]]. now apply one_line_mem. }
  split; [exact Hs|]. split; [exact Hlen|].
  rewrite Hs, !filter_app, Hf.
  replace (filter (starts_with (chars "- Coin: ")) (alert_head threshold))
    with (@nil str) by reflexivity.
  replace (filter (starts_with (chars "- Coin: ")) alert_foot)
    with (@nil str) by reflexivity.
  now rewrite app_nil_r.
Qed.

Lemma in_range_examples : forall p,
  In p [pos_60000; pos_minus_70000] ->
  absolute_position_value p <> inl Overflow.
Proof.
  intros p [<-|[<-|[]]]; discriminate.
Qed.

Lemma one_line_examples : forall p,
  In p [pos_60000; pos_minus_70000] ->
  one_line (coin p) /\ one_line (leverage p).
Proof.
  intros p [<-|[<-|[]]]; split; now apply one_line_mem.
Qed.

Lemma debug_lines_defined : forall l,
  (forall p, In p l -> absolute_position_value p <> inl Overflow) ->
  exists lines, debug_lines l = inr lines.
Proof.
  induction l as [|p l IH]; intros H; [now exists []|].
  destruct IH as [lines Hl]; [intros q Hq; apply H; now right|].
  destruct (value_defined p) as [v [Hv Ha]]; [apply H; now left|].
  cbn [debug_lines]. unfold debug_line. rewrite Hv, Ha, Hl. cbn [bind].
  eexists. reflexivity.
Qed.

Lemma debug_lines_overflow : forall l p,
  In p l -> absolute_position_value p = inl Overflow ->
  debug_lines l = inl Overflow.
Proof.
  induction l as [|q l IH]; intros p Hin Ho; [destruct Hin|].
  cbn [debug_lines]. unfold debug_line.
  destruct (position_value q) as [[]|v] eqn:Ev; [reflexivity|].
  assert (Ha : absolute_position_value q = inr (copy_abs v))
    by (unfold absolute_position_value; now rewrite Ev).
  rewrite Ha. cbn [bind].
  destruct Hin as [->|Hin]; [congruence|].
  now rewrite (IH p Hin Ho).
Qed.

(** X7. The message [main] hands to the mailer: when every position
    value is in range, it is the alert, with the body built from the
    selected positions, if at least one position exceeds the threshold,
    and the status message otherwise; when some position value is out of
    range, no message is composed and the overflow is raised. *)
Theorem message_follows_the_selection : forall threshold positions,
  ((forall p, In p positions -> absolute_position_value p <> inl Overflow) ->
   match filter (exceeds threshold) positions with
   | [] =>
       compose threshold positions
         = inr (chars "Hyperliquid PERP Position Status", build_no_alert_body)
   | selected =>
       exists body,
         build_alert_body threshold selected = inr body /\
         compose threshold positions
           = inr (chars "⚠️ Hyperliquid PERP Position Alert", body)
   end) /\
  (forall p, In p positions -> absolute_position_value p = inl Overflow ->
             compose threshold positions = inl Overflow).
Proof.
  intros threshold positions. split.
  - intros H. unfold compose.
    destruct (debug_lines_defined positions H) as [lines ->]. cbn [bind].
    rewrite (select_exceeding_filter threshold positions H). cbn [bind].
    destruct (filter (exceeds threshold) positions) as [|q sel] eqn:E;
      [reflexivity|].
    assert (Hsel : forall p, In p (q :: sel) ->
                             absolute_position_value p <> inl Overflow).
    { intros p Hp. apply H. rewrite <- E in Hp. now apply filter_In in Hp. }
    destruct (alert_blocks_defined (q :: sel) Hsel) as (blocks & Hb & _).
    rewrite (build_alert_body_eq threshold (q :: sel) blocks Hb). cbn [bind].
    eexists. split; reflexivity.
  - intros p Hin Ho. unfold compose.
    now rewrite (debug_lines_overflow positions p Hin Ho).
Qed.

(** ** Locating the table *)

Lemma starts_with_app_l : forall p a b,
  starts_with p a = true -> starts_with p (a ++ b) = true.
Proof.
  induction p as [|x p IH]; intros [|y a] b; simpl; try discriminate;
    try reflexivity.
  intros H. apply andb_true_iff in H. destruct H as [H1 H2].
  rewrite H1. simpl. now apply IH.
Qed.

Lemma contains_app_l : forall kw a b,
  contains kw a = true -> contains kw (a ++ b) = true.
Proof.
  intros kw. induction a as [|c a IH]; intros b H.
  - simpl in H. rewrite orb_false_r in H.
    destruct kw; [|discriminate]. destruct b; reflexivity.
  - cbn [contains] in H. apply orb_true_iff in H.
    change ((c :: a) ++ b) with (c :: (a ++ b)). cbn [contains].
    apply orb_true_iff. destruct H as [H|H].
    + left. now apply (starts_with_app_l kw (c :: a) b).
    + right. now apply IH.
Qed.

Lemma contains_app_r : forall kw a b,
  contains kw b = true -> contains kw (a ++ b) = true.
Proof.
  intros kw. induction a as [|c a IH]; intros b H; [exact H|].
  change ((c :: a) ++ b) with (c :: (a ++ b)). cbn [contains].
  apply orb_true_iff. right. now apply IH.
Qed.

Lemma starts_with_before : forall c kw a b,
  ~ In c kw -> starts_with kw (a ++ c :: b) = true -> starts_with kw a = true.
Proof.
  intros c. induction kw as [|x kw IH]; intros a b Hc H.
  - destruct a; reflexivity.
  - destruct a as [|y a].
    + simpl in H. apply andb_true_iff in H. destruct H as [H _].
      apply N.eqb_eq in H. subst x. exfalso. apply Hc. now left.
    + simpl in H. apply andb_true_iff in H. destruct H as [H1 H2].
      simpl. rewrite H1. simpl. apply (IH a b); [|exact H2].
      intros Hin. apply Hc. now right.
Qed.

Lemma contains_split : forall c kw a b,
  ~ In c kw -> contains kw (a ++ c :: b) = true ->
  contains kw a = true \/ contains kw b = true.
Proof.
  intros c kw. induction a as [|y a IH]; intros b Hc H.
  - cbn [app contains] in H. apply orb_true_iff in H. destruct H as [H|H].
    + left. apply (starts_with_before c kw [] b Hc) in H.
      simpl. now rewrite H.
    + now right.
  - change ((y :: a) ++ c :: b) with (y :: (a ++ c :: b)) in H.
    cbn [contains] in H. apply orb_true_iff in H. destruct H as [H|H].
    + left. cbn [contains]. apply orb_true_iff. left.
      apply (starts_with_before c kw (y :: a) b Hc H).
    + destruct (IH b Hc H) as [H'|H']; [|now right].
      left. cbn [contains]. apply orb_true_iff. now right.
Qed.

Lemma contains_join : forall kw cells,
  kw <> [] -> ~ In " "%ch kw ->
  (contains kw (join (chars " ") cells) = true <->
   exists cell, In cell cells /\ contains kw cell = true).
Proof.
  intros kw cells Hn Hs. induction cells as [|l rest IH].
  - simpl. split.
    + rewrite orb_false_r. destruct kw; [congruence | discriminate].
    + intros (cell & [] & _).
  - destruct rest as [|l2 rest].
    + simpl. split.
      * intros H. exists l. split; [now left | exact H].
      * intros (cell & [<-|[]] & H). exact H.
    + rewrite join_cons2. change (chars " ") with [" "%ch]. split.
      * intros H. change ([" "%ch] ++ join [" "%ch] (l2 :: rest))
          with (" "%ch :: join [" "%ch] (l2 :: rest)) in H.
        apply contains_split in H; [|exact Hs]. destruct H as [H|H].
        -- exists l. split; [now left | exact H].
        -- apply IH in H. destruct H as (cell & Hc & H).
           exists cell. split; [now right | exact H].
      * intros (cell & [<-|Hc] & H).
        -- now apply contains_app_l.
        -- apply contains_app_r, contains_app_r. apply IH. now exists cell.
Qed.

Lemma contains_nonempty : forall kw s,
  kw <> [] -> contains kw s = true -> nonempty s = true.
Proof.
  intros kw [|c s] Hn H; [|reflexivity].
  simpl in H. destruct kw; [congruence | discriminate].
Qed.

(** X8. A table's headers are accepted exactly when each of the words
    COIN, SIZE and MARK occurs inside one header cell, the cell trimmed
    and upper-cased: a word is found whatever the case and whatever else
    the cell holds, and never across two cells. *)
Theorem header_keywords_cell_by_cell : forall headers,
  has_keywords (headers_upper headers) = true <->
  forall keyword, In keyword KEYWORDS ->
    exists h, In h headers /\ contains keyword (upper (strip h)) = true.
Proof.
  intros headers. unfold has_keywords, headers_upper.
  assert (K : forall kw, In kw KEYWORDS -> kw <> [] /\ ~ In " "%ch kw).
  { intros kw [<-|[<-|[<-|[]]]]; (split; [discriminate|]);
      simpl; intros H; repeat (destruct H as [H|H]; [discriminate|]); exact H. }
  split.
  - intros H kw Hkw. apply andb_true_iff in H. destruct H as [_ H].
    rewrite forallb_forall in H. specialize (H kw Hkw).
    destruct (K kw Hkw) as [Hn Hs].
    apply (contains_join kw _ Hn Hs) in H. destruct H as (cell & Hc & H).
    apply in_map_iff in Hc. destruct Hc as (h & <- & Hh). now exists h.
  - intros H. assert (F : forallb
        (fun keyword => contains keyword
           (join (chars " ") (map (fun text => upper (strip text)) headers)))
        KEYWORDS = true).
    { apply forallb_forall. intros kw Hkw. destruct (K kw Hkw) as [Hn Hs].
      apply (contains_join kw _ Hn Hs). destruct (H kw Hkw) as (h & Hh & Hc).
      exists (upper (strip h)). split; [|exact Hc].
      apply in_map_iff. now exists h. }
    rewrite F, andb_true_r.
    pose proof F as F'. rewrite forallb_forall in F'.
    apply (contains_nonempty (chars "COIN")); [discriminate|].
    apply F'. now left.
Qed.

Section LocatingFacts.

Variables Locator exn : Type.
Implicit Types (page : document Locator exn).

Lemma scan_headings_first : forall (before : list (heading_hit Locator exn)) h after n,
  (forall h', In h' before -> candidate_count h' = inr 0%nat) ->
  candidate_count h = inr (S n) ->
  scan_headings (before ++ h :: after) = Some (table_candidate h).
Proof.
  induction before as [|b before IH]; intros h after n Hb Hh; simpl.
  - now rewrite Hh.
  - rewrite (Hb b) by now left. simpl. apply (IH h after n); [|exact Hh].
    intros h' H'. apply Hb. now right.
Qed.

Lemma scan_headings_sound : forall (hits : list (heading_hit Locator exn)) t,
  scan_headings hits = Some t ->
  exists h n, In h hits /\ table_candidate h = t /\ candidate_count h = inr (S n).
Proof.
  induction hits as [|h hits IH]; intros t H; simpl in H; [discriminate|].
  destruct (candidate_count h) as [e|n] eqn:E; [discriminate|].
  destruct n as [|n].
  - simpl in H. destruct (IH t H) as (h' & n' & Hin & Ht & Hc).
    exists h', n'. split; [now right | now split].
  - simpl in H. injection H as <-. exists h, n. split; [now left | now split].
Qed.

Lemma scan_headings_nothing : forall page,
  headings_yield_nothing page ->
  match heading_hits page with
  | inl _ => None
  | inr hits => scan_headings hits
  end = None.
Proof.
  intros page H. unfold headings_yield_nothing in H.
  destruct (heading_hits page) as [e|hits]; [reflexivity|].
  destruct H as [H | (before & h & after & e & -> & Hb & Hh)].
  - induction hits as [|h hits IH]; [reflexivity|]. simpl.
    rewrite (H h) by now left. simpl. apply IH. intros h' H'. apply H. now right.
  - induction before as [|b before IH]; simpl.
    + now rewrite Hh.
    + rewrite (Hb b) by now left. simpl. apply IH.
      intros h' H'. apply Hb. now right.
Qed.

Lemma scan_tables_first : forall (before : list (table_hit Locator exn)) t after headers,
  (forall t', In t' before -> lacks_keywords t') ->
  header_texts t = inr headers ->
  has_keywords (headers_upper headers) = true ->
  scan_tables (before ++ t :: after) = inr (Some (table_handle t)).
Proof.
  induction before as [|b before IH]; intros t after headers Hb Ht Hk; simpl.
  - now rewrite Ht, Hk.
  - destruct (Hb b) as (hb & Eb & Kb); [now left|]. rewrite Eb, Kb.
    apply (IH t after headers); try assumption.
    intros t' H'. apply Hb. now right.
Qed.

Lemma scan_tables_sound : forall (hits : list (table_hit Locator exn)),
  match scan_tables hits with
  | inr (Some t) =>
      exists before th after headers,
        hits = before ++ th :: after /\ table_handle th = t /\
        (forall t', In t' before -> lacks_keywords t') /\
        header_texts th = inr headers /\
        has_keywords (headers_upper headers) = true
  | inr None => forall t', In t' hits -> lacks_keywords t'
  | inl e =>
      exists before th after,
        hits = before ++ th :: after /\
        (forall t', In t' before -> lacks_keywords t') /\
        header_texts th = inl e
  end.
Proof.
  induction hits as [|th hits IH]; simpl; [intros t' []|].
  destruct (header_texts th) as [e|headers] eqn:E.
  - exists [], th, hits. repeat split; [intros t' []| exact E].
  - destruct (has_keywords (headers_upper headers)) eqn:K.
    + exists [], th, hits, headers. repeat split; try assumption. intros t' [].
    + assert (L : lacks_keywords th) by (now exists headers).
      destruct (scan_tables hits) as [e|[t|]].
      * destruct IH as (before & th' & after & -> & Hb & He).
        exists (th :: before), th', after. repeat split; [|exact He].
        intros t' [<-|H']; [exact L | now apply Hb].
      * destruct IH as (before & th' & after & headers' & -> & Ht & Hb & He & Hk).
        exists (th :: before), th', after, headers'.
        repeat split; try assumption.
        intros t' [<-|H']; [exact L | now apply Hb].
      * intros t' [<-|H']; [exact L | now apply IH].
Qed.

End LocatingFacts.

(** X9. What the locator returns.  A table it returns is either the
    candidate of a heading whose candidate count is positive, or the
    first table, in document order, whose headers have the three
    keywords.  It returns none only when every table's headers were read
    and lack a keyword.  An exception leaves it only from the scan of
    the tables (the query for the tables, or the reading of the headers
    of a table reached by the scan), never from the heading heuristic. *)
Theorem locate_perp_table_result :
  forall (Locator exn : Type) (page : document Locator exn),
  match locate_perp_table page with
  | inr (Some t) =>
      (exists hits h n,
         heading_hits page = inr hits /\ In h hits /\
         table_candidate h = t /\ candidate_count h = inr (S n)) \/
      (exists before th after headers,
         table_hits page = inr (before ++ th :: after) /\
         table_handle th = t /\
         (forall t', In t' before -> lacks_keywords t') /\
         header_texts th = inr headers /\
         has_keywords (headers_upper headers) = true)
  | inr None =>
      exists hits, table_hits page = inr hits /\
                   forall t', In t' hits -> lacks_keywords t'
  | inl e =>
      table_hits page = inl e \/
      exists before th after,
        table_hits page = inr (before ++ th :: after) /\
        (forall t', In t' before -> lacks_keywords t') /\
        header_texts th = inl e
  end.
Proof.
  intros Locator exn page. unfold locate_perp_table.
  destruct (match heading_hits page with
            | inl _ => None
            | inr hits => scan_headings hits
            end) as [t|] eqn:Eh.
  - left. destruct (heading_hits page) as [e|hits]; [discriminate|].
    destruct (scan_headings_sound Locator exn hits t Eh) as (h & n & Hin & Ht & Hc).
    now exists hits, h, n.
  - destruct (table_hits page) as [e|hits]; [now left|].
    pose proof (scan_tables_sound Locator exn hits) as S.
    destruct (scan_tables hits) as [e|[t|]].
    + right. destruct S as (before & th & after & -> & Hb & He).
      now exists before, th, after.
    + right. destruct S as (before & th & after & headers & -> & Ht & Hb & He & Hk).
      now exists before, th, after, headers.
    + now exists hits.
Qed.

(** X10. The order of the two heuristics.  The first heading with a
    positive candidate count decides, provided the counts before it are
    read as zero: its candidate is returned whatever the tables are, even
    when querying them would raise.  When the heading heuristic yields
    nothing, also by raising, the first table whose headers have the
    keywords is returned, provided the headers of the tables before it
    are read and lack one. *)
Theorem locate_perp_table_order :
  forall (Locator exn : Type) (page : document Locator exn),
  (forall before h after n,
     heading_hits page = inr (before ++ h :: after) ->
     (forall h', In h' before -> candidate_count h' = inr 0%nat) ->
     candidate_count h = inr (S n) ->
     locate_perp_table page = inr (Some (table_candidate h))) /\
  (forall before t after headers,
     headings_yield_nothing page ->
     table_hits page = inr (before ++ t :: after) ->
     (forall t', In t' before -> lacks_keywords t') ->
     header_texts t = inr headers ->
     has_keywords (headers_upper headers) = true ->
     locate_perp_table page = inr (Some (table_handle t))) /\
  (headings_yield_nothing page ->
   forall hits, table_hits page = inr hits ->
   (forall t', In t' hits -> lacks_keywords t') ->
   locate_perp_table page = inr None).
Proof.
  intros Locator exn page. split; [|split].
  - intros before h after n Hh Hb Hc. unfold locate_perp_table.
    rewrite Hh, (scan_headings_first Locator exn before h after n Hb Hc).
    reflexivity.
  - intros before t after headers Hn Ht Hb He Hk. unfold locate_perp_table.
    rewrite (scan_headings_nothing Locator exn page Hn), Ht.
    now apply (scan_tables_first Locator exn before t after headers).
  - intros Hn hits Ht Hl. unfold locate_perp_table.
    rewrite (scan_headings_nothing Locator exn page Hn), Ht.
    pose proof (scan_tables_sound Locator exn hits) as S.
    destruct (scan_tables hits) as [e|[t|]]; [| |reflexivity].
    + destruct S as (before & th & after & -> & _ & He).
      destruct (Hl th) as (headers & E & _); [apply in_or_app; right; now left|].
      congruence.
    + destruct S as (before & th & after & headers & -> & _ & _ & He & Hk).
      destruct (Hl th) as (headers' & E & K); [apply in_or_app; right; now left|].
      congruence.
Qed.

(** ** What the polling loop returns *)

Section WaitingOutcomes.

Variables Locator exn : Type.
Implicit Types (pg : page Locator exn).

(** One pass of the loop, case by case. *)
Lemma wait_loop_cases : forall fuel pg d a w le,
  ((d <= clock pg a)%Z /\
   wait_loop (S fuel) pg d a w le = RuntimeError le) \/
  ((clock pg a < d)%Z /\
   ((exists e, locate_raises (polls pg a) e /\
               wait_loop (S fuel) pg d a w le = Propagated e a) \/
    (exists t, located (polls pg a) = inr (Some t) /\
               has_rows (row_count (polls pg a)) /\
               wait_loop (S fuel) pg d a w le = Returned t a w) \/
    (exists e, wait_raises (polls pg a) e /\
               wait_loop (S fuel) pg d a w le = Propagated e a) \/
    (exists le', retries (polls pg a) /\
                 wait_loop (S fuel) pg d a w le
                   = wait_loop fuel pg d (S a) (S w) le'))).
Proof.
  intros fuel pg d a w le. cbn [wait_loop].
  destruct (Z.ltb_spec (clock pg a) d) as [Hc|Hc]; [right | left; now split].
  split; [exact Hc|].
  assert (Later : forall le1, not_ready (polls pg a) ->
    (exists e, wait_raises (polls pg a) e /\
       match wait_error (polls pg a) with
       | Some exc => Propagated exc a
       | None => wait_loop fuel pg d (S a) (S w) le1
       end = Propagated e a) \/
    (exists le', retries (polls pg a) /\
       match wait_error (polls pg a) with
       | Some exc => Propagated exc a
       | None => wait_loop fuel pg d (S a) (S w) le1
       end = wait_loop fuel pg d (S a) (S w) le')).
  { intros le1 Hn. destruct (wait_error (polls pg a)) as [exc|] eqn:Ew.
    - left. exists exc. split; [now split | reflexivity].
    - right. exists le1. split; [now split | reflexivity]. }
  destruct (located (polls pg a)) as [exc|[t|]] eqn:El.
  - left. exists exc. now split.
  - destruct (probe (row_count (polls pg a)) search_order le)
      as [found le1] eqn:Ep.
    destruct found.
    + right. left. exists t. split; [reflexivity|]. split; [|reflexivity].
      apply (proj1 (probe_found exn (row_count (polls pg a)) search_order le)).
      now rewrite Ep.
    + right. right. apply (Later le1). right. split; [now exists t|].
      intros Hr.
      apply (proj2 (probe_found exn (row_count (polls pg a)) search_order le))
        in Hr.
      rewrite Ep in Hr. discriminate.
  - right. right. apply (Later le). now left.
Qed.

Lemma wait_loop_sound : forall fuel pg d a w le t a' w',
  wait_loop fuel pg d a w le = Returned t a' w' ->
  (a <= a' < a + fuel)%nat /\ w' = (w + (a' - a))%nat /\
  located (polls pg a') = inr (Some t) /\
  has_rows (row_count (polls pg a')) /\
  (forall k, (a <= k <= a')%nat -> (clock pg k < d)%Z) /\
  (forall k, (a <= k < a')%nat -> retries (polls pg k)).
Proof.
  induction fuel as [|fuel IH]; intros pg d a w le t a' w' H;
    [discriminate|].
  destruct (wait_loop_cases fuel pg d a w le)
    as [[_ E] | [Hc [(e & _ & E) | [(t1 & El & Hr & E) | [(e & _ & E)
          | (le1 & Hn & E)]]]]];
    rewrite E in H; try discriminate.
  - injection H as <- <- <-.
    split; [lia|]. split; [lia|]. split; [exact El|]. split; [exact Hr|].
    split; [|intros k Hk; lia].
    intros k Hk. replace k with a by lia. exact Hc.
  - apply IH in H. destruct H as (B & Hw & Hl & Hr & Hck & Hnr).
    split; [lia|]. split; [lia|]. split; [exact Hl|]. split; [exact Hr|]. split.
    + intros k Hk. destruct (Nat.eq_dec k a) as [->|Hne]; [exact Hc|].
      apply Hck. lia.
    + intros k Hk. destruct (Nat.eq_dec k a) as [->|Hne]; [exact Hn|].
      apply Hnr. lia.
Qed.

Lemma wait_loop_error : forall fuel pg d a w le cause,
  wait_loop fuel pg d a w le = RuntimeError cause ->
  exists K, (a <= K < a + fuel)%nat /\ (d <= clock pg K)%Z /\
    forall k, (a <= k < K)%nat -> (clock pg k < d)%Z /\ retries (polls pg k).
Proof.
  induction fuel as [|fuel IH]; intros pg d a w le cause H;
    [discriminate|].
  destruct (wait_loop_cases fuel pg d a w le)
    as [[Hc E] | [Hc [(e & _ & E) | [(t1 & El & Hr & E) | [(e & _ & E)
          | (le1 & Hn & E)]]]]];
    rewrite E in H; try discriminate.
  - exists a. split; [lia|]. split; [exact Hc|]. intros k Hk. lia.
  - apply IH in H. destruct H as (K & B & HK & Hb).
    exists K. split; [lia|]. split; [exact HK|].
    intros k Hk. destruct (Nat.eq_dec k a) as [->|Hne]; [now split|].
    apply Hb. lia.
Qed.

Lemma wait_loop_propagated : forall fuel pg d a w le e a',
  wait_loop fuel pg d a w le = Propagated e a' ->
  (a <= a' < a + fuel)%nat /\
  (locate_raises (polls pg a') e \/ wait_raises (polls pg a') e) /\
  (forall k, (a <= k <= a')%nat -> (clock pg k < d)%Z) /\
  (forall k, (a <= k < a')%nat -> retries (polls pg k)).
Proof.
  induction fuel as [|fuel IH]; intros pg d a w le e a' H;
    [discriminate|].
  assert (Here : forall k, (a <= k <= a)%nat -> k = a) by (intros; lia).
  destruct (wait_loop_cases fuel pg d a w le)
    as [[_ E] | [Hc [(e1 & He & E) | [(t1 & El & Hr & E) | [(e1 & He & E)
          | (le1 & Hn & E)]]]]];
    rewrite E in H; try discriminate.
  - injection H as <- <-. split; [lia|]. split; [now left|].
    split; [|intros k Hk; lia]. intros k Hk. now rewrite (Here k Hk).
  - injection H as <- <-. split; [lia|]. split; [now right|].
    split; [|intros k Hk; lia]. intros k Hk. now rewrite (Here k Hk).
  - apply IH in H. destruct H as (B & He & Hck & Hnr).
    split; [lia|]. split; [exact He|]. split.
    + intros k Hk. destruct (Nat.eq_dec k a) as [->|Hne]; [exact Hc|].
      apply Hck. lia.
    + intros k Hk. destruct (Nat.eq_dec k a) as [->|Hne]; [exact Hn|].
      apply Hnr. lia.
Qed.

Lemma wait_loop_unfinished : forall fuel pg d a w le,
  wait_loop fuel pg d a w le = Unfinished ->
  forall k, (a <= k < a + fuel)%nat -> (clock pg k < d)%Z.
Proof.
  induction fuel as [|fuel IH]; intros pg d a w le H k Hk; [lia|].
  destruct (wait_loop_cases fuel pg d a w le)
    as [[_ E] | [Hc [(e1 & He & E) | [(t1 & El & Hr & E) | [(e1 & He & E)
          | (le1 & Hn & E)]]]]];
    rewrite E in H; try discriminate.
  destruct (Nat.eq_dec k a) as [->|Hne]; [exact Hc|].
  apply (IH _ _ _ _ _ H). lia.
Qed.

End WaitingOutcomes.

(** X11. What the controller's result means.  A table is returned only
    from a pass that began before the deadline, located that table and
    counted a row under some selector, after as many waits as there were
    passes before it, in each of which nothing was ready, nothing was
    raised by the locator and the wait returned.  The table-not-found
    error is raised only at a pass that begins at or after the deadline,
    all passes before it having begun before the deadline and gone that
    way.  Any other exception that leaves the controller was raised by
    [locate_perp_table], or by [page.wait_for_timeout] when nothing was
    ready, in a pass that began before the deadline, the passes before
    it as above.  On a page where every wait lasts the poll interval at
    least, the loop ends: there are 30 passes at most. *)
Theorem wait_for_perp_table_outcomes :
  forall (Locator exn : Type) (pg : page Locator exn),
  (forall t a w,
     wait_for_perp_table pg = Returned t a w ->
     (1 <= a)%nat /\ w = (a - 1)%nat /\
     located (polls pg a) = inr (Some t) /\
     has_rows (row_count (polls pg a)) /\
     (forall k, (1 <= k <= a)%nat -> (clock pg k < deadline_of pg)%Z) /\
     (forall k, (1 <= k < a)%nat -> retries (polls pg k))) /\
  (forall cause,
     wait_for_perp_table pg = RuntimeError cause ->
     exists K, (1 <= K)%nat /\ (deadline_of pg <= clock pg K)%Z /\
       forall k, (1 <= k < K)%nat ->
         (clock pg k < deadline_of pg)%Z /\ retries (polls pg k)) /\
  (forall e a,
     wait_for_perp_table pg = Propagated e a ->
     (1 <= a)%nat /\
     (locate_raises (polls pg a) e \/ wait_raises (polls pg a) e) /\
     (forall k, (1 <= k <= a)%nat -> (clock pg k < deadline_of pg)%Z) /\
     (forall k, (1 <= k < a)%nat -> retries (polls pg k))) /\
  (ticking pg ->
   wait_for_perp_table pg <> Unfinished /\
   (forall t a w, wait_for_perp_table pg = Returned t a w -> (a <= 30)%nat) /\
   (forall e a, wait_for_perp_table pg = Propagated e a -> (a <= 30)%nat)).
Proof.
  intros Locator exn pg. unfold wait_for_perp_table.
  split; [|split; [|split]].
  - intros t a w H. apply wait_loop_sound in H.
    destruct H as (B & Hw & Hl & Hr & Hc & Hn).
    split; [lia|]. split; [lia|]. split; [exact Hl|]. split; [exact Hr|].
    split; assumption.
  - intros cause H. apply wait_loop_error in H.
    destruct H as (K & B & HK & Hb). exists K. split; [lia|]. now split.
  - intros e a H. apply wait_loop_propagated in H.
    destruct H as (B & He & Hc & Hn). split; [lia|]. split; [exact He|].
    split; assumption.
  - intros Ht. split; [|split].
    + intros H.
      pose proof (wait_loop_unfinished Locator exn _ _ _ _ _ _ H 31%nat) as C.
      change max_passes with 31%nat in C. specialize (C ltac:(lia)).
      pose proof (clock_lower Locator exn pg 31 Ht ltac:(lia)) as L.
      unfold deadline_of, TABLE_WAIT_SECONDS, ROW_POLL_INTERVAL_MS in *.
      simpl in L. lia.
    + intros t a w H. apply wait_loop_sound in H.
      destruct H as (B & _ & _ & _ & Hc & _).
      apply (before_deadline_bound Locator exn pg a Ht); [lia|].
      apply Hc. lia.
    + intros e a H. apply wait_loop_propagated in H.
      destruct H as (B & _ & Hc & _).
      apply (before_deadline_bound Locator exn pg a Ht); [lia|].
      apply Hc. lia.
Qed.

(** ** Rows as the collector hands them over *)

Lemma dropwhile_head : forall p s,
  match dropwhile p s with c :: _ => p c = false | [] => True end.
Proof.
  induction s as [|c s IH]; simpl; [exact I|].
  destruct (p c) eqn:E; [exact IH | exact E].
Qed.

Lemma strip_edges : forall s,
  edge_not_space (strip s) /\ edge_not_space (rev (strip s)).
Proof.
  intros s. unfold strip, rstrip, lstrip. rewrite rev_involutive.
  split; [|apply dropwhile_head].
  pose proof (dropwhile_head isspace s) as Hu.
  set (u := dropwhile isspace s) in *.
  pose proof (takewhile_dropwhile isspace (rev u)) as E.
  apply (f_equal (@rev char)) in E. rewrite rev_app_distr, rev_involutive in E.
  destruct (rev (dropwhile isspace (rev u))) as [|c r]; [exact I|].
  simpl in E. rewrite <- E in Hu. exact Hu.
Qed.

Lemma strip_idempotent : forall s, strip (strip s) = strip s.
Proof. intros s. apply strip_id; apply strip_edges. Qed.

Lemma row_texts_normal : forall row_elems row,
  In row (row_texts row_elems) -> row <> [] /\ map strip row = row.
Proof.
  intros row_elems row H. unfold row_texts in H.
  apply in_map_iff in H. destruct H as (cells & <- & H).
  apply filter_In in H. destruct H as [_ H]. split.
  - destruct cells; [discriminate | discriminate].
  - rewrite map_map. apply map_ext. intros c. apply strip_idempotent.
Qed.

(** X12. Every row the collector returns has at least one cell, and its
    cells are already trimmed: trimming them again changes nothing, so
    the builder reads cell [i] of such a row as it stands. *)
Theorem collected_rows_are_trimmed : forall (t : table) row,
  In row (collect_table_rows t) ->
  row <> [] /\ map strip row = row /\
  forall i, cell row i = nth i row [].
Proof.
  intros t row H.
  assert (N : row <> [] /\ map strip row = row).
  { unfold collect_table_rows, search_order in H.
    rewrite !collect_from_cons in H. cbn [collect_from] in H.
    destruct (row_texts (t TbodyTr)) as [|r1 l1] eqn:E1;
      [|rewrite <- E1 in H; now apply row_texts_normal in H].
    destruct (row_texts (t Tr)) as [|r2 l2] eqn:E2;
      [|rewrite <- E2 in H; now apply row_texts_normal in H].
    destruct (row_texts (t RoleRow)) as [|r3 l3] eqn:E3; [destruct H|].
    rewrite <- E3 in H. now apply row_texts_normal in H. }
  destruct N as [N1 N2]. split; [exact N1|]. split; [exact N2|].
  intros i. rewrite <- nth_map_strip. now rewrite N2.
Qed.

Lemma collected_rows_are_trimmed_witness :
  let t := fun sel =>
    match sel with
    | TbodyTr => [mkRow [] []; mkRow [chars " BTC "; chars "5x "] []]
    | _ => []
    end in
  collect_table_rows t = [[chars "BTC"; chars "5x"]] /\
  map strip [chars "BTC"; chars "5x"] = [chars "BTC"; chars "5x"].
Proof.
  cbv zeta. split; [reflexivity|].
  apply (proj1 (proj2 (collected_rows_are_trimmed
    (fun sel => match sel with
                | TbodyTr => [mkRow [] []; mkRow [chars " BTC "; chars "5x "] []]
                | _ => []
                end)
    [chars "BTC"; chars "5x"] (or_introl eq_refl)))).
Defined.

(** ** The text of a formatted size *)

Lemma trim_formatted : forall neg ip fp,
  ip <> [] -> all_digits ip -> all_digits fp ->
  rstrip_chars (chars ".")
    (rstrip_chars (chars "0")
       (minus neg ++ insert_thousands_sep ip ++ "."%ch :: fp))
  = minus neg ++ insert_thousands_sep ip
      ++ point_tail (rstrip_chars (chars "0") fp).
Proof.
  intros neg ip fp Hn Hd Hf.
  rewrite (app_assoc (minus neg)).
  rewrite rstrip_chars_stop by reflexivity.
  assert (Hdf : all_digits (rstrip_chars (chars "0") fp))
    by (now apply rstrip_chars_sub).
  remember (rstrip_chars (chars "0") fp) as fp' eqn:Efp.
  unfold point_tail. destruct (nonempty fp') eqn:En.
  - rewrite <- app_assoc. apply rstrip_chars_id.
    apply nonempty_true in En.
    destruct (last_digit fp' En Hdf) as [c [Hc1 Hc2]].
    rewrite !rev_app_distr. cbn [rev]. rewrite <- !app_assoc.
    destruct (rev fp') as [|x r]; [discriminate|]. simpl in Hc1.
    injection Hc1 as ->. change (mem_char c (chars ".") = false).
    now apply digit_not_in.
  - assert (E : fp' = []) by (destruct fp'; [reflexivity | discriminate]).
    rewrite E, app_nil_r. unfold rstrip_chars.
    rewrite rev_app_distr. simpl rev. simpl app. cbn [dropwhile].
    change (mem_char "."%ch (chars ".")) with true. cbv iota.
    destruct (separated_last_digit ip (minus neg) Hn Hd) as [c [Hc1 Hc2]].
    rewrite dropwhile_head_stop; [apply rev_involutive|].
    destruct (rev (minus neg ++ insert_thousands_sep ip)) as [|x r];
      [exact I|]. simpl in Hc1. injection Hc1 as ->.
    change (mem_char c (chars ".") = false). now apply digit_not_in.
Qed.

Lemma format_decimal_of_shape : forall v ip fp,
  format_f 6 v = minus (d_sign v) ++ insert_thousands_sep ip ++ "."%ch :: fp ->
  ip <> [] -> all_digits ip -> all_digits fp ->
  format_decimal v
  = minus (d_sign v) ++ insert_thousands_sep ip
      ++ point_tail (rstrip_chars (chars "0") fp).
Proof.
  intros v ip fp Hf Hn Hd Hdf. unfold format_decimal. rewrite Hf.
  replace (contains_char "."%ch (minus (d_sign v) ++ insert_thousands_sep ip ++ "."%ch :: fp))
    with true.
  - now apply trim_formatted.
  - symmetry. apply existsb_exists. exists "."%ch. split; [|reflexivity].
    apply in_or_app. right. apply in_or_app. right. now left.
Qed.

Lemma rstrip_chars_last : forall set s,
  match rev (rstrip_chars set s) with
  | c :: _ => mem_char c set = false
  | [] => True
  end.
Proof.
  intros set s. unfold rstrip_chars. rewrite rev_involutive.
  apply (dropwhile_head (fun c => mem_char c set)).
Qed.

Lemma length_rstrip_chars : forall set s,
  (List.length (rstrip_chars set s) <= List.length s)%nat.
Proof.
  intros set s. unfold rstrip_chars. rewrite length_rev.
  pose proof (length_dropwhile (fun c => mem_char c set) (rev s)) as L.
  now rewrite length_rev in L.
Qed.

(** X13. The text of a formatted size: the minus sign if the value is
    negative, the digits of the integer part in groups of three, and,
    only when a fraction is left after the trailing zeros are removed, a
    point and at most six digits of which the last is not a zero.  The
    text never ends with a point, and no zero of the integer part is
    removed. *)
Theorem format_decimal_text : forall v,
  exists ip fp,
    format_decimal v
      = minus (d_sign v) ++ insert_thousands_sep ip ++ point_tail fp /\
    ip <> [] /\ all_digits ip /\ all_digits fp /\
    (List.length fp <= 6)%nat /\
    hd_error (rev fp) <> Some "0"%ch /\
    (int_of_digits ip = d_int (rescale v (-6)) / 10 ^ 6)%N.
Proof.
  intros v.
  destruct (format_f_shape 6 v ltac:(lia)) as (ip & fp0 & Hf & Hn & Hd & Hd0 & Hl & Hv).
  exists ip, (rstrip_chars (chars "0") fp0).
  split; [now apply format_decimal_of_shape|].
  split; [exact Hn|]. split; [exact Hd|].
  split; [now apply rstrip_chars_sub|].
  split; [pose proof (length_rstrip_chars (chars "0") fp0); lia|].
  split.
  - pose proof (rstrip_chars_last (chars "0") fp0) as L.
    destruct (rev (rstrip_chars (chars "0") fp0)) as [|c r]; [discriminate|].
    simpl. intros E. injection E as ->. discriminate L.
  - change (- Z.of_nat 6)%Z with (-6)%Z in Hv. rewrite <- Hv.
    rewrite int_of_digits_app, Hl.
    pose proof (int_of_digits_lt fp0 Hd0) as B. rewrite Hl in B.
    change (pow10 6) with (10 ^ 6)%N in *.
    apply N.div_unique with (r := int_of_digits fp0); [exact B | lia].
Qed.

Lemma digits_from_acc : forall fuel n acc,
  digits_from fuel n acc = digits_from fuel n [] ++ acc.
Proof.
  induction fuel as [|fuel IH]; intros n acc; simpl; [reflexivity|].
  destruct (n / 10 =? 0)%N; [reflexivity|].
  rewrite IH. rewrite (IH _ [digit_char (n mod 10)]).
  now rewrite <- app_assoc.
Qed.

Lemma digits_from_fuel : forall f1 f2 n acc,
  (N.to_nat (N.log2 n) < f1)%nat -> (N.to_nat (N.log2 n) < f2)%nat ->
  digits_from f1 n acc = digits_from f2 n acc.
Proof.
  induction f1 as [|f1 IH]; intros f2 n acc H1 H2; [lia|].
  destruct f2 as [|f2]; [lia|]. simpl.
  destruct (n / 10 =? 0)%N eqn:E; [reflexivity|].
  apply N.eqb_neq in E. pose proof (log2_div10 n E).
  apply IH; lia.
Qed.

Lemma str_of_int_times_10 : forall n,
  n <> 0%N -> str_of_int (10 * n) = str_of_int n ++ ["0"%ch].
Proof.
  intros n Hn. unfold str_of_int at 1. cbn [digits_from].
  replace (10 * n / 10)%N with n by (symmetry; rewrite N.mul_comm; apply N.div_mul; lia).
  replace ((10 * n) mod 10)%N with 0%N
    by (symmetry; rewrite N.mul_comm; apply N.Div0.mod_mul).
  apply N.eqb_neq in Hn. rewrite Hn. apply N.eqb_neq in Hn.
  rewrite digits_from_acc. f_equal.
  apply digits_from_fuel; [|lia].
  assert (H : (N.log2 (2 * n) <= N.log2 (10 * n))%N)
    by (apply N.log2_le_mono; lia).
  rewrite N.log2_double in H by lia. lia.
Qed.

Lemma str_of_int_times_pow10 : forall k n,
  n <> 0%N -> str_of_int (n * pow10 k) = str_of_int n ++ repeat "0"%ch k.
Proof.
  induction k as [|k IH]; intros n Hn.
  - change (pow10 0) with 1%N. rewrite N.mul_1_r. simpl. now rewrite app_nil_r.
  - rewrite pow10_S.
    replace (n * (10 * pow10 k))%N with (10 * (n * pow10 k))%N by lia.
    rewrite str_of_int_times_10.
    + rewrite IH by exact Hn. rewrite <- app_assoc. f_equal.
      symmetry. apply repeat_cons.
    + pose proof (pow10_pos k). nia.
Qed.

Lemma format_f_split : forall places v ip fp,
  str_of_int (d_int (rescale v (- Z.of_nat places))) = ip ++ fp ->
  List.length fp = places -> ip <> [] -> fp <> [] ->
  format_f places v
  = minus (d_sign v) ++ insert_thousands_sep ip ++ "."%ch :: fp.
Proof.
  intros places v ip fp Hs Hl Hn Hf. unfold format_f.
  rewrite rescale_sign, rescale_exp, Hs.
  assert (E : (- Z.of_nat places + Z.of_nat (List.length (ip ++ fp)))%Z
              = Z.of_nat (List.length ip)) by (rewrite length_app; lia).
  rewrite E.
  destruct (Z.ltb_spec (Z.of_nat (List.length ip)) 0); [lia|].
  rewrite Nat2Z.id, firstn_app, Nat.sub_diag, firstn_all, firstn_O, app_nil_r.
  rewrite skipn_app, Nat.sub_diag, skipn_all, skipn_O. cbn [app].
  apply nonempty_true in Hn, Hf. rewrite Hn, Hf. reflexivity.
Qed.

(** The text of a whole number: its digits in groups of three, with the
    minus sign if it is negative and with no point. *)
Lemma whole_number_text : forall v,
  (0 <= d_exp v)%Z ->
  format_decimal v
  = minus (d_sign v)
      ++ insert_thousands_sep (str_of_int (d_int v * 10 ^ Z.to_N (d_exp v))).
Proof.
  intros [s c e] He. cbn [d_sign d_int d_exp] in *.
  destruct (N.eq_dec c 0) as [->|Hc].
  - rewrite N.mul_0_l. destruct s; reflexivity.
  - set (n := (c * 10 ^ Z.to_N e)%N).
    assert (Hn : n <> 0%N).
    { unfold n. pose proof (N.pow_nonzero 10 (Z.to_N e) ltac:(lia)). nia. }
    assert (Hr : d_int (rescale (mkDecimal s c e) (- Z.of_nat 6)) = (n * pow10 6)%N).
    { unfold rescale. cbn [d_int d_exp d_sign].
      apply N.eqb_neq in Hc. rewrite Hc.
      destruct (Z.leb_spec (- Z.of_nat 6) e); [|lia]. cbn [d_int].
      unfold n, pow10. rewrite <- N.mul_assoc, <- N.pow_add_r. do 2 f_equal. lia. }
    rewrite (format_decimal_of_shape (mkDecimal s c e) (str_of_int n)
               (repeat "0"%ch 6)).
    + cbn [d_sign].
      change (point_tail (rstrip_chars (chars "0") (repeat "0"%ch 6)))
        with (@nil char).
      now rewrite app_nil_r.
    + apply format_f_split.
      * rewrite Hr. apply str_of_int_times_pow10. exact Hn.
      * reflexivity.
      * apply str_of_int_nonempty.
      * discriminate.
    + apply str_of_int_nonempty.
    + apply str_of_int_digits.
    + apply all_digits_zeros.
Qed.

(** ** White space around cells and numerals *)

Lemma cell_of_trimmed : forall row i, cell (map strip row) i = cell row i.
Proof.
  intros row i. unfold cell. rewrite nth_map_strip. unfold cell.
  apply strip_idempotent.
Qed.

Lemma build_row_of_trimmed : forall row, build_row (map strip row) = build_row row.
Proof.
  intros row. rewrite !build_row_eq, !cell_of_trimmed. reflexivity.
Qed.

(** X15. White space around the cells of a row does not matter to the
    builder: the rows as given and the rows with every cell trimmed
    beforehand give the same positions. *)
Theorem build_positions_ignores_padding : forall raw_rows,
  build_positions (map (map strip) raw_rows) [] = build_positions raw_rows [].
Proof.
  intros raw_rows. rewrite !build_positions_emitted. cbn [app].
  induction raw_rows as [|row rest IH]; [reflexivity|].
  cbn [map flat_map]. rewrite IH. f_equal.
  unfold emitted. now rewrite build_row_of_trimmed.
Qed.

Lemma literal_plain : forall m d, literal_value m d -> plain m.
Proof.
  intros m d H. destruct H as [neg ip Hn Hd | neg ip fp Hn Hd Hfn Hfd].
  - apply plain_app; [apply plain_minus | now apply plain_digits].
  - apply plain_app; [apply plain_minus|].
    apply plain_app; [now apply plain_digits|].
    constructor; [reflexivity | now apply plain_digits].
Qed.

Lemma literal_edges : forall m d,
  literal_value m d ->
  m <> [] /\ edge_not_space m /\
  exists c, hd_error (rev m) = Some c /\ isdigit c = true.
Proof.
  intros m d H. destruct H as [neg ip Hn Hd | neg ip fp Hn Hd Hfn Hfd].
  - split; [destruct neg, ip; simpl; congruence|]. split.
    + destruct neg; [reflexivity|]. destruct ip as [|c r]; [congruence|].
      simpl. inversion Hd. now apply digit_not_space.
    + destruct (last_digit ip Hn Hd) as [c [Hc1 Hc2]]. exists c.
      split; [|exact Hc2]. rewrite rev_app_distr.
      rewrite hd_error_app; [exact Hc1|].
      intros E. rewrite E in Hc1. discriminate.
  - split; [destruct neg, ip; simpl; congruence|]. split.
    + destruct neg; [reflexivity|]. destruct ip as [|c r]; [congruence|].
      simpl. inversion Hd. now apply digit_not_space.
    + destruct (last_digit fp Hfn Hfd) as [c [Hc1 Hc2]]. exists c.
      split; [|exact Hc2]. rewrite app_assoc, rev_app_distr. cbn [rev].
      rewrite <- app_assoc. rewrite hd_error_app; [exact Hc1|].
      intros E. rewrite E in Hc1. discriminate.
Qed.

Lemma remove_tokens_plain : forall m,
  plain m ->
  replace (chars "USD") []
    (replace (chars "$") [] (replace (chars ",") [] m)) = m.
Proof.
  intros m Hp.
  change (chars ",") with [","%ch]. change (chars "$") with ["$"%ch].
  rewrite (replace_char ","%ch), filter_keep_all
    by (apply plain_keeps; [reflexivity | exact Hp]).
  rewrite replace_char, filter_keep_all
    by (apply plain_keeps; [reflexivity | exact Hp]).
  change (chars "USD") with ("U"%ch :: chars "SD").
  apply replace_absent_head. apply plain_lacks; [reflexivity | exact Hp].
Qed.

Lemma sanitize_literal : forall m d, literal_value m d -> sanitize m = m.
Proof.
  intros m d H. unfold sanitize.
  rewrite remove_tokens_plain by (apply (literal_plain m d H)).
  destruct (literal_edges m d H) as (_ & He & c & Hc1 & Hc2).
  apply strip_id; [exact He|].
  destruct (rev m) as [|x r]; [exact I|]. simpl in Hc1. injection Hc1 as ->.
  simpl. now apply digit_not_space.
Qed.

Lemma sanitize_literal_USD : forall m d,
  literal_value m d -> sanitize (m ++ chars " USD") = m.
Proof.
  intros m d H. unfold sanitize.
  pose proof (literal_plain m d H) as Hp.
  change (chars ",") with [","%ch]. change (chars "$") with ["$"%ch].
  rewrite (replace_char ","%ch), filter_app, filter_keep_all
    by (apply plain_keeps; [reflexivity | exact Hp]).
  rewrite replace_char, filter_app, filter_keep_all
    by (apply plain_keeps; [reflexivity | exact Hp]).
  change (chars "USD") with ("U"%ch :: chars "SD").
  rewrite replace_app_absent_head by (apply plain_lacks; [reflexivity | exact Hp]).
  change (replace ("U"%ch :: chars "SD") []
            (filter (fun x => negb (N.eqb "$"%ch x))
               (filter (fun x => negb (N.eqb ","%ch x)) (chars " USD"))))
    with [" "%ch].
  destruct (literal_edges m d H) as (Hn & He & c & Hc1 & Hc2).
  unfold strip, lstrip, rstrip.
  rewrite (dropwhile_head_stop isspace (m ++ [" "%ch])).
  - rewrite rev_app_distr. cbn [rev app dropwhile].
    change (isspace " "%ch) with true. cbv iota.
    rewrite dropwhile_head_stop; [apply rev_involutive|].
    destruct (rev m) as [|x r]; [exact I|]. simpl in Hc1. injection Hc1 as ->.
    now apply digit_not_space.
  - destruct m as [|x r]; [congruence|]. exact He.
Qed.

(** X16. A plain numeral, that is an optional minus sign, digits and
    optionally a point and more digits, parses to the number it denotes,
    and so does the numeral with a dollar sign before it or with " USD"
    after it. *)
Theorem numerals_parse_to_their_value : forall m d,
  literal_value m d ->
  parse_decimal_from_text (Some m) = Some d /\
  parse_decimal_from_text (Some (chars "$" ++ m)) = Some d /\
  parse_decimal_from_text (Some (m ++ chars " USD")) = Some d.
Proof.
  intros m d H. repeat split.
  - apply (parse_literal _ m); [now apply (sanitize_literal m d) | exact H].
  - apply (parse_literal _ m); [|exact H].
    rewrite sanitize_skip_leading_dollar. now apply (sanitize_literal m d).
  - apply (parse_literal _ m); [now apply (sanitize_literal_USD m d) | exact H].
Qed.

(** Examples of the locator on a document. *)
Lemma locate_examples :
  locate_perp_table
    (mkDocument (inl tt)
       (inr [mkTable 1%nat (inr [chars "Asset"; chars "Price"]);
             mkTable 2%nat (@inr unit _ [chars " Coin "; chars "Size"; chars "Mark Price"])]))
    = inr (Some 2%nat) /\
  locate_perp_table
    (mkDocument (inr [mkHeading 7%nat (@inr unit _ 0%nat); mkHeading 8%nat (inr 1%nat)])
                (inl tt))
    = inr (Some 8%nat) /\
  has_keywords (headers_upper [chars "CO"; chars "IN"; chars "SIZE"; chars "MARK"])
    = false.
Proof. repeat split; vm_compute; reflexivity. Qed.

End Unicode.

(** * Examples, and the statements the database has no part in

    The examples below hold whatever the Unicode database holds, or are
    taken on [sample_decimal] and [sample_upper]. *)

(** C2 as stated fails on a row whose coin cell reads COIN: the first
    cell is not empty and both numbers parse, yet no position is emitted. *)
Lemma coin_named_COIN_is_dropped :
  nonempty (chars "COIN") = true /\
  (forall unicode_decimal,
     parse_decimal_from_text unicode_decimal (Some (chars "2.5"))
       = Some (mkDecimal false 25 (-1)) /\
     parse_decimal_from_text unicode_decimal (Some (chars "60000"))
       = Some (mkDecimal false 60000 0)) /\
  (forall unicode_decimal unicode_upper,
     build_positions unicode_decimal unicode_upper
       [[chars "COIN"; chars "5x"; chars "2.5"; chars "60000"]] [] = []).
Proof.
  split; [reflexivity|]. split.
  - intros unicode_decimal. split; vm_compute; reflexivity.
  - intros unicode_decimal unicode_upper. vm_compute. reflexivity.
Qed.

(** The header guard on a first cell padded with no-break spaces and
    written with the dotless i. *)
Lemma header_row_excluded_witness :
  upper sample_upper
        (strip (160%N :: chars "co" ++ 305%N :: chars "n" ++ [160%N]))
    = chars "COIN" /\
  build_positions sample_decimal sample_upper
    ([[chars "BTC"; chars "5x"; chars "2.5"; chars "60000"]] ++
     ((160%N :: chars "co" ++ 305%N :: chars "n" ++ [160%N])
        :: [chars "5x"; chars "2.5"; chars "60000"]) ::
     [[chars "ETH"; chars "3x"; chars "-10"; chars "3,000"]]) []
  = build_positions sample_decimal sample_upper
      ([[chars "BTC"; chars "5x"; chars "2.5"; chars "60000"]] ++
       [[chars "ETH"; chars "3x"; chars "-10"; chars "3,000"]]) [].
Proof.
  split; [vm_compute; reflexivity|].
  apply (header_row_excluded sample_decimal sample_upper
           [[chars "BTC"; chars "5x"; chars "2.5"; chars "60000"]]
           (160%N :: chars "co" ++ 305%N :: chars "n" ++ [160%N])
           [chars "5x"; chars "2.5"; chars "60000"]
           [[chars "ETH"; chars "3x"; chars "-10"; chars "3,000"]]).
  vm_compute. reflexivity.
Defined.

(** C5 as stated fails on a value with a seventh fractional digit:
    0.1234567 is formatted as 0.123457 and read back as that. *)
Lemma seventh_digit_is_lost :
  format_decimal (mkDecimal false 1234567 (-7)) = chars "0.123457" /\
  (forall unicode_decimal,
     parse_decimal_from_text unicode_decimal
       (Some (format_decimal (mkDecimal false 1234567 (-7))))
     = Some (mkDecimal false 123457 (-6))) /\
  dec_eqb (mkDecimal false 123457 (-6)) (mkDecimal false 1234567 (-7)) = false.
Proof.
  split; [vm_compute; reflexivity|]. split; [|vm_compute; reflexivity].
  intros unicode_decimal. vm_compute. reflexivity.
Qed.

Lemma short_cells_give_exact_values_witness :
  exists p,
    build_row sample_decimal sample_upper
      [chars "BTC"; chars "5x"; chars "2.5"; chars "$60,000"] = Some p /\
    position_value p = inr (mkDecimal false 1500000 (-1)).
Proof.
  eexists. split; [vm_compute; reflexivity|].
  apply (proj1 (short_cells_give_exact_values sample_decimal sample_upper
    [chars "BTC"; chars "5x"; chars "2.5"; chars "$60,000"] _ eq_refl
    ltac:(vm_compute; lia) ltac:(vm_compute; lia))).
Defined.

(** X6. For positions whose values are in range and whose coin and
    leverage texts have no line break, the alert body, split at its
    newlines, is the four heading lines, seven lines for each position in
    the order given, and the closing line; the final trimming removes
    nothing.  The lines of the body that begin with "- Coin: " are those
    of the positions' coins, one for each position and in their order. *)
Theorem alert_body_lists_each_position : forall threshold l,
  (forall p, In p l -> absolute_position_value p <> inl Overflow) ->
  (forall p, In p l -> one_line (coin p) /\ one_line (leverage p)) ->
  exists blocks body,
    alert_blocks l = inr blocks /\
    build_alert_body threshold l = inr body /\
    split_on newline body = alert_head threshold ++ blocks ++ alert_foot /\
    List.length blocks = (7 * List.length l)%nat /\
    filter (starts_with (chars "- Coin: ")) (split_on newline body)
      = map (fun p => chars "- Coin: " ++ coin p) l.
Proof. exact (alert_body_lines sample_decimal sample_upper). Qed.

Lemma alert_body_lists_each_position_witness :
  exists blocks body,
    alert_blocks [pos_60000; pos_minus_70000] = inr blocks /\
    build_alert_body POSITION_VALUE_THRESHOLD [pos_60000; pos_minus_70000]
      = inr body /\
    split_on newline body
      = alert_head POSITION_VALUE_THRESHOLD ++ blocks ++ alert_foot /\
    List.length blocks = 14%nat /\
    filter (starts_with (chars "- Coin: ")) (split_on newline body)
      = [chars "- Coin: BTC"; chars "- Coin: SOL"].
Proof.
  exact (alert_body_lists_each_position POSITION_VALUE_THRESHOLD
           [pos_60000; pos_minus_70000] in_range_examples one_line_examples).
Defined.

(** A leverage text with a line break adds a line to the body, here one
    that begins with "- Coin: ". *)
Lemma line_break_in_a_field :
  match build_alert_body POSITION_VALUE_THRESHOLD
          [mkPosition (chars "BTC") (chars "5x" ++ newline :: chars "- Coin: ETH")
                      (mkDecimal false 2 0) (mkDecimal false 30000 0)] with
  | inr body =>
      filter (starts_with (chars "- Coin: ")) (split_on newline body)
  | inl _ => []
  end = [chars "- Coin: BTC"; chars "- Coin: ETH"].
Proof. vm_compute. reflexivity. Qed.

(** X14. A whole number is formatted as its digits in groups of three,
    with the minus sign if it is negative and with no point: every zero
    of the number is kept. *)
Theorem format_decimal_of_whole_number : forall v,
  (0 <= d_exp v)%Z ->
  format_decimal v
  = minus (d_sign v)
      ++ insert_thousands_sep (str_of_int (d_int v * 10 ^ Z.to_N (d_exp v))).
Proof. exact (whole_number_text sample_decimal). Qed.

Lemma format_decimal_of_whole_number_witness :
  format_decimal (mkDecimal true 1200000 0) = chars "-1,200,000" /\
  format_decimal (mkDecimal false 12 5) = chars "1,200,000".
Proof.
  split.
  - exact (format_decimal_of_whole_number (mkDecimal true 1200000 0)
             ltac:(simpl; lia)).
  - exact (format_decimal_of_whole_number (mkDecimal false 12 5)
             ltac:(simpl; lia)).
Defined.

(** The numeral -12.5 written with the Arabic-Indic digits one and two. *)
Lemma numerals_parse_to_their_value_witness :
  parse_decimal_from_text sample_decimal
    (Some ("-"%ch :: 1633%N :: 1634%N :: chars ".5"))
    = Some (mkDecimal true 125 (-1)) /\
  parse_decimal_from_text sample_decimal
    (Some (chars "$" ++ "-"%ch :: 1633%N :: 1634%N :: chars ".5"))
    = Some (mkDecimal true 125 (-1)) /\
  parse_decimal_from_text sample_decimal
    (Some (("-"%ch :: 1633%N :: 1634%N :: chars ".5") ++ chars " USD"))
    = Some (mkDecimal true 125 (-1)).
Proof.
  apply (numerals_parse_to_their_value sample_decimal
           ("-"%ch :: 1633%N :: 1634%N :: chars ".5")
           (mkDecimal true 125 (-1))).
  apply (FractionLiteral (unicode_decimal := sample_decimal) true
           (ip := [1633%N; 1634%N]) (fp := chars "5"));
    try discriminate; repeat constructor.
Defined.
